(** * Mayrand on-sale scraper: normalizer, deduplication, traversal, publish guard

    Shallow embedding of [scripts/scrape_mayrand_onsale.mjs] (the current
    variant of the script, the one that exports [parseUnitPriceText]) and
    proofs about it.

    - JavaScript strings are sequences of UTF-16 code units.
    - JavaScript numbers are IEEE-754 binary64 values; a decimal literal is
      read with correct rounding (to nearest, ties to even), as V8 does.
    - Regular expressions are run by a backtracking matcher in the order of
      ECMAScript.
    - [Map] is a finite map; the output directory is a finite map from paths
      to file contents.
    - The browser, its page, the clock and the debug directory are a state
      with operations that may throw; an [async] function is a state and
      exception monad over it. The durations of the waits and [console.log]
      are left out.
    - The four workers of [enrichItemsWithDetails] fill slots that do not
      depend on each other; the slots are filled in order here. *)

From Stdlib Require Import ZArith NArith List Bool Lia String Ascii DecimalString.
From stdpp Require Import base option list sorting gmap strings.

Set Default Proof Using "Type".
Set Warnings "-register-all".

(* ===================================================================== *)
(** * JavaScript strings *)
(* ===================================================================== *)

Module JsString.

(** A string is a list of UTF-16 code units. *)
Abbreviation jstring := (list N).

(** An ASCII literal as a JavaScript string. *)
Definition str (s : string) : jstring :=
  map N_of_ascii (list_ascii_of_string s).

Local Open Scope N_scope.

(** The class [\s] of regular expressions, which is also what [trim]
    removes: WhiteSpace and LineTerminator of ECMAScript. *)
Definition is_space (c : N) : bool :=
  ((9 <=? c) && (c <=? 13)) || (c =? 32) || (c =? 160) || (c =? 5760)
  || ((8192 <=? c) && (c <=? 8202)) || (c =? 8232) || (c =? 8233)
  || (c =? 8239) || (c =? 8287) || (c =? 12288) || (c =? 65279).

Definition is_digit (c : N) : bool := (48 <=? c) && (c <=? 57).

(** [s.replace(/[class]/g, by)]: every code unit of the class is replaced. *)
Definition replace_each (p : N -> bool) (by_ : jstring) (s : jstring) : jstring :=
  flat_map (fun c => if p c then by_ else [c]) s.

(** [s.replace(/[class]+/g, by)]: every maximal run of the class is
    replaced by one copy of [by]. [in_run] tells that the previous code unit
    was in the class. *)
Fixpoint replace_runs_from (p : N -> bool) (by_ : jstring) (in_run : bool)
    (s : jstring) : jstring :=
  match s with
  | [] => []
  | c :: s' =>
      if p c then (if in_run then [] else by_) ++ replace_runs_from p by_ true s'
      else c :: replace_runs_from p by_ false s'
  end.

Definition replace_runs (p : N -> bool) (by_ : jstring) (s : jstring) : jstring :=
  replace_runs_from p by_ false s.

Fixpoint trimStart (s : jstring) : jstring :=
  match s with
  | c :: s' => if is_space c then trimStart s' else s
  | [] => []
  end.

Definition trimEnd (s : jstring) : jstring := rev (trimStart (rev s)).

Definition trim (s : jstring) : jstring := trimEnd (trimStart s).

(** [s.startsWith(t)] *)
Fixpoint startsWith (s t : jstring) : bool :=
  match t, s with
  | [], _ => true
  | x :: t', y :: s' => (x =? y) && startsWith s' t'
  | _ :: _, [] => false
  end.

(** [s.includes(t)] *)
Fixpoint includes (s t : jstring) : bool :=
  startsWith s t ||
  match s with
  | [] => false
  | _ :: s' => includes s' t
  end.

(** [s.endsWith(t)] *)
Definition endsWith (s t : jstring) : bool := startsWith (rev s) (rev t).

(** [s.toLowerCase()] on the ASCII letters; other code units are kept, which
    is what the script relies on (it only looks for ASCII needles). *)
Definition lower (c : N) : N := if (65 <=? c) && (c <=? 90) then c + 32 else c.
Definition toLowerCase (s : jstring) : jstring := map lower s.

(** A string is truthy when it is not empty. *)
Definition truthy (s : jstring) : bool :=
  match s with [] => false | _ => true end.

(** The longest prefix of code units in the class, and the rest. *)
Fixpoint span (p : N -> bool) (s : jstring) : jstring * jstring :=
  match s with
  | c :: s' => if p c then let '(a, b) := span p s' in (c :: a, b) else ([], s)
  | [] => ([], [])
  end.

End JsString.

Import JsString.

(* ===================================================================== *)
(** * JavaScript numbers *)
(* ===================================================================== *)

Module Number.

Local Open Scope Z_scope.

(** A binary64 value. [Fin neg m e] is [(-1)^neg * m * 2^e] with
    [0 <= m < 2^53] and [-1074 <= e <= 971]; zero is [m = 0]. *)
Inductive number : Type :=
| NaN
| Infinity (neg : bool)
| Fin (neg : bool) (m e : Z).

Definition emin : Z := -1074.
Definition emax : Z := 971.

(** Nearest integer to [n / d], ties to even ([0 <= n], [0 < d]). *)
Definition round_half_even (n d : Z) : Z :=
  let q := n / d in
  match (2 * (n mod d)) ?= d with
  | Lt => q
  | Gt => q + 1
  | Eq => if Z.even q then q else q + 1
  end.

(** The fraction [p / (q * 2^e)] with integer numerator and denominator. *)
Definition scale (p q e : Z) : Z * Z :=
  (p * 2 ^ Z.max 0 (- e), q * 2 ^ Z.max 0 e).

(** [q * 2^e <= p], on integers. *)
Definition below (p q e : Z) : Prop := snd (scale p q e) <= fst (scale p q e).

(** [floor (log2 (p / q))] for [0 < p], [0 < q]. *)
Definition ilog2 (p q : Z) : Z :=
  let l := Z.log2 p - Z.log2 q in
  let '(n, d) := scale p q l in
  if d <=? n then l else l - 1.

(** The binary64 value nearest to [(-1)^neg * p / q] (round to nearest,
    ties to even), for [0 <= p], [0 < q]. *)
Definition round (neg : bool) (p q : Z) : number :=
  if p =? 0 then Fin neg 0 0
  else
    let e := Z.max emin (ilog2 p q - 52) in
    let '(n, d) := scale p q e in
    let m := round_half_even n d in
    let '(m, e) := if m =? 2 ^ 53 then (2 ^ 52, e + 1) else (m, e) in
    if emax <? e then Infinity neg else Fin neg m e.

(** A finite value counted in units of [2^-1074]: an order-preserving
    embedding of the finite doubles into the integers. *)
Definition ulps (neg : bool) (m e : Z) : Z :=
  (if neg then -1 else 1) * (m * 2 ^ (e - emin)).

Definition of_Z (z : Z) : number := round (z <? 0) (Z.abs z) 1.

(** The value of a finite number, in units of [2^-1074]. *)
Definition value (x : number) : Z :=
  match x with
  | Fin s m e => ulps s m e
  | _ => 0
  end.

Definition isFinite (x : number) : bool :=
  match x with Fin _ _ _ => true | _ => false end.

(** [a < b] *)
Definition lt (a b : number) : bool :=
  match a, b with
  | NaN, _ | _, NaN => false
  | Infinity s, Infinity t => s && negb t
  | Infinity s, Fin _ _ _ => s
  | Fin _ _ _, Infinity t => negb t
  | Fin s m e, Fin t m' e' => ulps s m e <? ulps t m' e'
  end.

(** [a > b] *)
Definition gt (a b : number) : bool := lt b a.

(** [a === b] on numbers: [NaN] differs from itself, [-0 === +0]. *)
Definition strict_eq (a b : number) : bool :=
  match a, b with
  | Infinity s, Infinity t => Bool.eqb s t
  | Fin s m e, Fin t m' e' => ulps s m e =? ulps t m' e'
  | _, _ => false
  end.

(** [a - b] *)
Definition sub (a b : number) : number :=
  match a, b with
  | NaN, _ | _, NaN => NaN
  | Infinity s, Infinity t => if Bool.eqb s t then NaN else Infinity s
  | Infinity s, Fin _ _ _ => Infinity s
  | Fin _ _ _, Infinity t => Infinity (negb t)
  | Fin s m e, Fin t m' e' =>
      let d := ulps s m e - ulps t m' e' in
      if d =? 0 then Fin (s && negb t) 0 0
      else round (d <? 0) (Z.abs d) (2 ^ (- emin))
  end.

(** ToBoolean: [0], [-0] and [NaN] are falsy. *)
Definition truthy (x : number) : bool :=
  match x with
  | NaN => false
  | Infinity _ => true
  | Fin _ m _ => negb (m =? 0)
  end.

Definition is_neg (x : number) : bool :=
  match x with
  | NaN => false
  | Infinity s => s
  | Fin s _ _ => s
  end.

Definition min2 (a b : number) : number :=
  match a, b with
  | NaN, _ | _, NaN => NaN
  | _, _ => if lt a b then a else if lt b a then b else if is_neg a then a else b
  end.

Definition max2 (a b : number) : number :=
  match a, b with
  | NaN, _ | _, NaN => NaN
  | _, _ => if lt a b then b else if lt b a then a else if is_neg a then b else a
  end.

(** [Math.min(...l)] and [Math.max(...l)] *)
Definition math_min (l : list number) : number := fold_left min2 l (Infinity false).
Definition math_max (l : list number) : number := fold_left max2 l (Infinity true).

(** The value of a string of decimal digits. *)
Definition digits_value (ds : jstring) : Z :=
  fold_left (fun acc c => 10 * acc + (Z.of_N c - 48)) ds 0.

(** The exponent part of a decimal literal: [e] or [E], an optional sign and
    at least one digit. Without digits there is no exponent part. *)
Definition exponent_part (s : jstring) : Z :=
  match s with
  | c :: s1 =>
      if (c =? 101)%N || (c =? 69)%N then
        let '(sg, s2) :=
          match s1 with
          | d :: s2 => if (d =? 45)%N then (-1, s2) else if (d =? 43)%N then (1, s2) else (1, s1)
          | [] => (1, s1)
          end in
        let '(ds, _) := span is_digit s2 in
        match ds with
        | [] => 0
        | _ => sg * digits_value ds
        end
      else 0
  | [] => 0
  end.

Definition infinity_word : jstring := str "Infinity".

(** [Number.parseFloat(s)]: leading white space is skipped, then the longest
    prefix that is a decimal literal is read ([Infinity], or digits with an
    optional fraction and exponent, after an optional sign); the result is
    the double nearest to its value, or [NaN] when there is no such
    prefix. *)
Definition parseFloat (s : jstring) : number :=
  let s0 := trimStart s in
  let '(neg, s1) :=
    match s0 with
    | c :: s1 => if (c =? 45)%N then (true, s1) else if (c =? 43)%N then (false, s1) else (false, s0)
    | [] => (false, s0)
    end in
  if startsWith s1 infinity_word then Infinity neg
  else
    let '(int_ds, s2) := span is_digit s1 in
    let '(frac_ds, s3) :=
      match s2 with
      | c :: s2' => if (c =? 46)%N then span is_digit s2' else ([], s2)
      | [] => ([], s2)
      end in
    match int_ds ++ frac_ds with
    | [] => NaN
    | ds =>
        let ex := exponent_part s3 - Z.of_nat (length frac_ds) in
        round neg (digits_value ds * 10 ^ Z.max 0 ex) (10 ^ Z.max 0 (- ex))
    end.

(** [Number.parseInt(s, 10)]: white space, an optional sign, and the longest
    prefix of decimal digits; [NaN] without a digit. *)
Definition parseInt10 (s : jstring) : number :=
  let s0 := trimStart s in
  let '(neg, s1) :=
    match s0 with
    | c :: s1 => if (c =? 45)%N then (true, s1) else if (c =? 43)%N then (false, s1) else (false, s0)
    | [] => (false, s0)
    end in
  let '(ds, _) := span is_digit s1 in
  match ds with
  | [] => NaN
  | _ => round neg (digits_value ds) 1
  end.

(** The integer that a finite, integer-valued number is; [None] for [NaN]
    and the infinities. *)
Definition to_Z (x : number) : option Z :=
  match x with
  | Fin neg m e =>
      Some ((if neg then -1 else 1) * (if 0 <=? e then m * 2 ^ e else m / 2 ^ (- e)))
  | _ => None
  end.

(** [String(z)] for an integer [z] with [|z| < 10^21], as the page numbers
    of the traversal are; from [10^21] on the script has an exponent. *)
Definition decimal (z : Z) : jstring := str (NilZero.string_of_int (Z.to_int z)).

End Number.

Import Number.

(* ===================================================================== *)
(** * Regular expressions *)
(* ===================================================================== *)

Module Regex.

(** The fragment of ECMAScript patterns that the script uses. A character
    class is a predicate on code units; [(?: )] is grouping without a
    constructor of its own; [r+] is [r] followed by [r*]. *)
Inductive regex : Type :=
| Eps
| Eos
| Class (p : N -> bool)
| Cat (r1 r2 : regex)
| Alt (r1 r2 : regex)
| Opt (r : regex)
| Star (r : regex)
| Group (i : nat) (r : regex).

Definition Plus (r : regex) : regex := Cat r (Star r).

Definition Seq (rs : list regex) : regex := fold_right Cat Eps rs.

(** The captures made so far, most recent first. *)
Definition captures : Type := list (nat * jstring).

Definition cont : Type := jstring -> captures -> option captures.

(** The greedy loop of [r*]. [m] matches one iteration; an iteration that
    consumes nothing is rejected, as in RepeatMatcher. [n] bounds the number
    of iterations and is the length of the input, which is never reached. *)
Fixpoint star_loop (m : jstring -> captures -> cont -> option captures) (k : cont)
    (n : nat) (s : jstring) (c : captures) : option captures :=
  match n with
  | O => k s c
  | S n' =>
      match m s c (fun s' c' =>
                     if (length s' <? length s)%nat then star_loop m k n' s' c' else None) with
      | Some res => Some res
      | None => k s c
      end
  end.

(** The backtracking matcher of ECMAScript, in continuation-passing style:
    [rmatch r s c k] matches [r] at the start of [s] and hands the rest of
    the input and the captures to [k]; when [k] fails, the next alternative
    of [r] is tried, in priority order (left alternative first, longest
    repetition first). *)
Fixpoint rmatch (r : regex) (s : jstring) (c : captures) (k : cont) {struct r}
    : option captures :=
  match r with
  | Eps => k s c
  | Eos =>
      match s with
      | [] => k s c
      | _ :: _ => None
      end
  | Class p =>
      match s with
      | x :: s' => if p x then k s' c else None
      | [] => None
      end
  | Cat r1 r2 => rmatch r1 s c (fun s' c' => rmatch r2 s' c' k)
  | Alt r1 r2 =>
      match rmatch r1 s c k with
      | Some res => Some res
      | None => rmatch r2 s c k
      end
  | Opt r1 =>
      match rmatch r1 s c (fun s' c' =>
                             if (length s' <? length s)%nat then k s' c' else None) with
      | Some res => Some res
      | None => k s c
      end
  | Star r1 => star_loop (rmatch r1) k (length s) s c
  | Group i r1 =>
      rmatch r1 s c (fun s' c' => k s' ((i, take (length s - length s') s) :: c'))
  end.

(** [s.match(r)] for a pattern without the [g] flag: the first position,
    from the left, at which the matcher succeeds. *)
Fixpoint search (r : regex) (s : jstring) : option captures :=
  match rmatch r s [] (fun _ c => Some c) with
  | Some c => Some c
  | None =>
      match s with
      | [] => None
      | _ :: s' => search r s'
      end
  end.

(** [match[i]] *)
Fixpoint group (i : nat) (c : captures) : option jstring :=
  match c with
  | [] => None
  | (j, x) :: c' => if (i =? j)%nat then Some x else group i c'
  end.

(** What a pattern matches, and the captures it makes: the declarative
    reading of a pattern. [matches r a b c] says that [r] matches [a] when
    [b] is what follows in the input (the end-of-input assertion [$] looks
    at it), making the captures [c]. *)
Inductive matches : regex -> jstring -> jstring -> captures -> Prop :=
| M_eps b : matches Eps [] b []
| M_eos : matches Eos [] [] []
| M_class p x b : p x = true -> matches (Class p) [x] b []
| M_cat r1 r2 a1 a2 b c1 c2 :
    matches r1 a1 (a2 ++ b) c1 -> matches r2 a2 b c2 ->
    matches (Cat r1 r2) (a1 ++ a2) b (c2 ++ c1)
| M_alt_l r1 r2 a b c : matches r1 a b c -> matches (Alt r1 r2) a b c
| M_alt_r r1 r2 a b c : matches r2 a b c -> matches (Alt r1 r2) a b c
| M_opt_none r b : matches (Opt r) [] b []
| M_opt_some r a b c : matches r a b c -> a <> [] -> matches (Opt r) a b c
| M_star_nil r b : matches (Star r) [] b []
| M_star_cons r a1 a2 b c1 c2 :
    matches r a1 (a2 ++ b) c1 -> a1 <> [] -> matches (Star r) a2 b c2 ->
    matches (Star r) (a1 ++ a2) b (c2 ++ c1)
| M_group i r a b c : matches r a b c -> matches (Group i r) a b ((i, a) :: c).

(** Canonicalize of the [i] flag without the [u] flag: upper case. Only
    ASCII letters can become equal to an ASCII letter. *)
Definition canonicalize (c : N) : N :=
  if ((97 <=? c) && (c <=? 122))%N then (c - 32)%N else c.

(** A literal character under the [i] flag. *)
Definition Chr_i (c : N) : regex :=
  Class (fun x => (canonicalize x =? canonicalize c)%N).

End Regex.

Import Regex.

(* ===================================================================== *)
(** * Price and text normalizer *)
(* ===================================================================== *)

(** Values that are [null] or [undefined] in the script are [None]. *)

Definition space : jstring := [32%N].

(** [value?.replace(/\s+/g, ' ').replace(/\u00a0/g, ' ').trim() ?? null] *)
Definition normalizeWhitespace (value : option jstring) : option jstring :=
  match value with
  | None => None
  | Some v =>
      Some (trim (replace_each (N.eqb 160) space (replace_runs is_space space v)))
  end.

Definition is_dollar (c : N) : bool := (c =? 36)%N.
Definition is_comma (c : N) : bool := (c =? 44)%N.
Definition is_dot (c : N) : bool := (c =? 46)%N.

(** The class [[^0-9.]] *)
Definition not_digit_or_dot (c : N) : bool := negb (is_digit c || is_dot c).

(** The cleaning chain of [parseNumber]. *)
Definition clean_number_text (value : jstring) : jstring :=
  replace_each not_digit_or_dot []
    (replace_each is_comma (str ".")
       (replace_each is_dollar []
          (replace_runs is_space [] value))).

Definition parseNumber (value : option jstring) : option number :=
  match value with
  | None => None
  | Some v =>
      if negb (JsString.truthy v) then None
      else
        let cleaned := clean_number_text v in
        if negb (JsString.truthy cleaned) then None
        else
          let parsed := parseFloat cleaned in
          if isFinite parsed then Some parsed else None
  end.

Record unit_price_text : Type := { unitPrice : option number; unitLabel : option jstring }.

Definition currency : regex := Alt (Chr_i 36) (Chr_i 8364).
Definition digit : regex := Class is_digit.
Definition dot_or_comma (c : N) : bool := is_dot c || is_comma c.
Definition not_newline (c : N) : bool := negb (c =? 10)%N.

(** The number of the pattern: [[0-9]+(?:[.,][0-9]+)?] *)
Definition number_re : regex :=
  Cat (Plus digit) (Opt (Cat (Class dot_or_comma) (Plus digit))).

(** The separator of the pattern: [(?:\/|par)] under the [i] flag *)
Definition separator_re : regex :=
  Alt (Chr_i 47) (Seq [Chr_i 112; Chr_i 97; Chr_i 114]).

(** [/(?:\$|E)?\s*([0-9]+(?:[.,][0-9]+)?)\s*(?:\$|E)?\s*(?:\/|par)\s*([^\n]+)/i],
    where [E] stands for the euro sign, code unit 8364 *)
Definition unit_price_re : regex :=
  Seq [ Opt currency; Star (Class is_space);
        Group 1 number_re;
        Star (Class is_space); Opt currency; Star (Class is_space);
        separator_re;
        Star (Class is_space);
        Group 2 (Plus (Class not_newline)) ].

Definition parseUnitPriceText (value : option jstring) : unit_price_text :=
  match value with
  | None => {| unitPrice := None; unitLabel := None |}
  | Some v =>
      if negb (JsString.truthy v) then {| unitPrice := None; unitLabel := None |}
      else
        let normalized :=
          trim (replace_each (N.eqb 160) space (replace_runs is_space space v)) in
        match search unit_price_re normalized with
        | None => {| unitPrice := None; unitLabel := None |}
        | Some m =>
            {| unitPrice := parseNumber (group 1 m);
               unitLabel := normalizeWhitespace (group 2 m) |}
        end
  end.

Record price_pair : Type := { sale : option number; regular : option number }.

Definition zero : number := Fin false 0 0.

(** [Array.prototype.sort(comparefn)] as a stable insertion sort: [x] goes
    before the first element [y] with [comparefn(x, y) < 0]. Any sort gives
    the same array when the comparison is consistent, as it is here. *)
Fixpoint sort_insert (comparefn : number -> number -> number) (x : number)
    (l : list number) : list number :=
  match l with
  | [] => [x]
  | y :: l' =>
      if Number.lt (comparefn x y) zero then x :: y :: l'
      else y :: sort_insert comparefn x l'
  end.

Definition array_sort (comparefn : number -> number -> number) (l : list number)
    : list number :=
  fold_left (fun acc x => sort_insert comparefn x acc) l [].

(** [.filter((entry) => entry !== null)] *)
Definition non_null {A : Type} (l : list (option A)) : list A := omap id l.

Definition parsePriceCandidates (values : list jstring) : price_pair :=
  let prices := non_null (map (fun entry => parseNumber (Some entry)) values) in
  match prices with
  | [] => {| sale := None; regular := None |}
  | _ =>
      let sorted := array_sort (fun a b => sub a b) prices in
      {| sale := head sorted;
         regular := if (1 <? length sorted)%nat then last sorted else None |}
  end.

Definition normalizePricePair (p : price_pair) : price_pair :=
  match sale p, regular p with
  | Some s, None => {| sale := None; regular := Some s |}
  | Some s, Some r =>
      if strict_eq s r then {| sale := None; regular := Some r |} else p
  | _, _ => p
  end.

(* ===================================================================== *)
(** * Records, identity keys and deduplication *)
(* ===================================================================== *)

(** [a || b] on values that are strings or [null] *)
Definition truthy_str (v : option jstring) : bool :=
  match v with
  | Some s => JsString.truthy s
  | None => false
  end.

Definition or_else (a b : option jstring) : option jstring :=
  if truthy_str a then a else b.

(** [a ?? b] *)
Definition nullish {A : Type} (a b : option A) : option A :=
  match a with
  | Some _ => a
  | None => b
  end.

Infix "|||" := or_else (at level 50, left associativity).
Infix "??" := nullish (at level 50, left associativity).

(** The functions of the JavaScript runtime that the script calls and whose
    results it only passes on. *)
Class Builtins : Type := {
  (** [String(x)] for a number [x] *)
  number_to_string : number -> jstring;
  (** [new URL(u, base).toString()], [None] when the constructor throws *)
  url_resolve : jstring -> jstring -> option jstring;
  encodeURIComponent : jstring -> jstring;
  (** [new URL(u, base).searchParams.get(key)], [None] when the constructor
      throws, [Some None] when the parameter is absent *)
  url_search_param : jstring -> jstring -> jstring -> option (option jstring);
  (** [u = new URL(base); u.searchParams.set(key, v); u.toString()] *)
  url_set_param : jstring -> jstring -> jstring -> jstring
}.

(** The canonical record that the script publishes. *)
Record item : Type := {
  source : jstring;
  query : jstring;
  name : option jstring;
  brand : option jstring;
  sku : option jstring;
  price_sale : option number;
  price_regular : option number;
  unit_label : option jstring;
  unit_price : option number;
  url : option jstring;
  image : option jstring;
  category : option jstring;
  scraped_at : jstring
}.

(** The text-level data of one listing card, as [scrapePage] returns it. *)
Module Card.
Record t : Type := {
  name : option jstring;
  brand : option jstring;
  sku : option jstring;
  priceSaleText : option jstring;
  priceRegularText : option jstring;
  priceCandidates : list jstring;
  unitLabel : option jstring;
  link : option jstring;
  image : option jstring;
  category : option jstring
}.
End Card.

(** What [scrapeProductPage] returns for one product page. *)
Module Details.
Record t : Type := {
  productName : option jstring;
  productBrand : option jstring;
  productSku : option jstring;
  offerPrices : list jstring;
  h1Text : option jstring;
  ogTitle : option jstring;
  breadcrumb : option jstring;
  priceSaleText : option jstring;
  priceRegularText : option jstring;
  priceCandidates : list jstring;
  unitLabel : option jstring;
  unitPriceText : option jstring
}.
End Details.

Section WithBuiltins.

Context {builtins : Builtins}.

Definition resolveUrl (maybeUrl : option jstring) (baseUrl : jstring) : option jstring :=
  match maybeUrl with
  | None => None
  | Some u => if negb (JsString.truthy u) then None else url_resolve u baseUrl
  end.

Definition buildFallbackUrl (sku name : option jstring) (baseUrl : jstring) : jstring :=
  match sku ||| name with
  | None => baseUrl
  | Some anchor =>
      if negb (JsString.truthy anchor) then baseUrl
      else baseUrl ++ str "#"
           ++ encodeURIComponent (take 80 (replace_runs is_space (str "-") anchor))
  end.

(** [`${x}`] for [x] a number or [null] *)
Definition template_number (x : option number) : jstring :=
  match x with
  | None => str "null"
  | Some n => number_to_string n
  end.

Definition buildFallbackKey (it : item) : option jstring :=
  match name it with
  | None => None
  | Some n =>
      if negb (JsString.truthy n) then None
      else Some (n ++ str "__" ++ template_number (price_sale it) ++ str "__"
                 ++ default [] (unit_label it ||| Some []))
  end.

Definition uniqueKeyForItem (it : item) : option jstring :=
  sku it ||| url it ||| buildFallbackKey it.

(** The key that the loop of [scrapeListing] computes for a record. *)
Definition listing_key (it : item) : option jstring :=
  if truthy_str (sku it) then sku it
  else if truthy_str (url it) then url it
  else if truthy_str (name it) then buildFallbackKey it
  else None.

(** The body of [pageItems.forEach] in [scrapeListing]: [uniqueItems] is the
    [Map] of the keys seen so far and [allItems] the output array. *)
Definition add_listing_item (acc : gmap jstring item * list item) (it : item)
    : gmap jstring item * list item :=
  let '(uniqueItems, allItems) := acc in
  let key := listing_key it in
  if truthy_str key then
    match key with
    | Some k =>
        match uniqueItems !! k with
        | None => (<[k := it]> uniqueItems, allItems ++ [it])
        | Some _ => (uniqueItems, allItems)
        end
    | None => (uniqueItems, allItems ++ [it])
    end
  else (uniqueItems, allItems ++ [it]).

Definition add_page_items (acc : gmap jstring item * list item) (pageItems : list item)
    : gmap jstring item * list item :=
  fold_left add_listing_item pageItems acc.

(** The items that one query accumulates over the pages it extracts. *)
Definition aggregate (pages : list (list item)) : list item :=
  snd (fold_left add_page_items pages (∅, [])).

(** The body of [candidateItems.forEach] in [main]. *)
Definition add_final_item (acc : gmap jstring item * list item) (it : item)
    : gmap jstring item * list item :=
  let '(uniqueItems, finalItems) := acc in
  let key := uniqueKeyForItem it in
  if truthy_str key then
    match key with
    | Some k =>
        match uniqueItems !! k with
        | Some _ => (uniqueItems, finalItems)
        | None => (<[k := it]> uniqueItems, finalItems ++ [it])
        end
    | None => (uniqueItems, finalItems ++ [it])
    end
  else (uniqueItems, finalItems ++ [it]).

Definition final_items (candidateItems : list item) : list item :=
  snd (fold_left add_final_item candidateItems (∅, [])).

Definition SOURCE : jstring := str "mayrand".

(** The body of [extracted.results.map] in [scrapeListing]: one card
    becomes one record. [now] is [new Date().toISOString()]. *)
Definition card_to_item (query baseUrlString : jstring) (pageCategory : option jstring)
    (now : jstring) (card : Card.t) : item :=
  let parsedSale := parseNumber (Card.priceSaleText card) in
  let parsedRegular := parseNumber (Card.priceRegularText card) in
  let prices :=
    match parsedSale, parsedRegular with
    | None, None => parsePriceCandidates (Card.priceCandidates card)
    | _, _ => {| sale := parsedSale; regular := parsedRegular |}
    end in
  let normalizedPrices := normalizePricePair prices in
  let resolvedLink := resolveUrl (Card.link card) baseUrlString in
  let resolvedImage := resolveUrl (Card.image card) baseUrlString in
  {| source := SOURCE;
     query := query;
     name := Card.name card;
     brand := Card.brand card;
     sku := Card.sku card;
     price_sale := sale normalizedPrices;
     price_regular := regular normalizedPrices;
     unit_label := Card.unitLabel card;
     unit_price := None;
     url := resolvedLink
            ||| Some (buildFallbackUrl (Card.sku card) (Card.name card) baseUrlString);
     image := resolvedImage;
     category := Card.category card ||| pageCategory;
     scraped_at := now |}.

End WithBuiltins.

(* ===================================================================== *)
(** * Detail enrichment of one record *)
(* ===================================================================== *)

(** [/-(\d{3,})(?:\D|$)/] *)
Definition sku_in_url_re : regex :=
  Seq [ Class (N.eqb 45);
        Group 1 (Seq [digit; digit; digit; Star digit]);
        Alt (Class (fun c => negb (is_digit c))) Eos ].

Definition extractSkuFromUrl (url : option jstring) : option jstring :=
  match url with
  | None => None
  | Some u =>
      if negb (JsString.truthy u) then None
      else
        match search sku_in_url_re u with
        | None => None
        | Some m => group 1 m ||| None
        end
  end.

(** [.map((entry) => parseNumber(entry)).filter(Boolean)] *)
Definition truthy_numbers (entries : list jstring) : list number :=
  omap (fun entry =>
          match parseNumber (Some entry) with
          | Some n => if Number.truthy n then Some n else None
          | None => None
          end) entries.

Definition default_name : jstring := str "Produit Mayrand".

(** The prices that [enrichItemsWithDetails] reads from a product page,
    after [normalizePricePair]. *)
Definition detail_prices (details : Details.t) : price_pair :=
  let parsedSale := parseNumber (Details.priceSaleText details) in
  let parsedRegular := parseNumber (Details.priceRegularText details) in
  let offerPrices := truthy_numbers (Details.offerPrices details) in
  let offerSale :=
    if (0 <? length offerPrices)%nat then Some (math_min offerPrices) else None in
  let offerRegular :=
    if (1 <? length offerPrices)%nat then Some (math_max offerPrices) else None in
  let priceCandidates :=
    match parsedSale, parsedRegular with
    | None, None => parsePriceCandidates (Details.priceCandidates details)
    | _, _ => {| sale := parsedSale; regular := parsedRegular |}
    end in
  let combinedPriceSale := parsedSale ?? offerSale ?? sale priceCandidates ?? None in
  let combinedPriceRegular :=
    parsedRegular ?? offerRegular ?? regular priceCandidates ?? None in
  normalizePricePair {| sale := combinedPriceSale; regular := combinedPriceRegular |}.

(** The record that a worker of [enrichItemsWithDetails] stores when the
    product page was read. *)
Definition enrich_with (it : item) (details : Details.t) : item :=
  let normalizedPrices := detail_prices details in
  let unitPriceParsed := parseUnitPriceText (Details.unitPriceText details) in
  let nameFallback :=
    Details.h1Text details ||| Details.ogTitle details ||| Details.productName details
    ||| name it ||| sku it ||| url it ||| Some default_name in
  {| source := source it;
     query := query it;
     name := nameFallback;
     brand := Details.productBrand details ||| brand it ||| None;
     sku := Details.productSku details ||| sku it ||| extractSkuFromUrl (url it) ||| None;
     price_sale := sale normalizedPrices ?? price_sale it ?? None;
     price_regular := regular normalizedPrices ?? price_regular it ?? None;
     unit_label :=
       Details.unitLabel details ||| unitLabel unitPriceParsed ||| unit_label it ||| None;
     unit_price := unitPrice unitPriceParsed ?? unit_price it ?? None;
     url := url it;
     image := image it;
     category := Details.breadcrumb details ||| category it ||| None;
     scraped_at := scraped_at it |}.

(** The record that a worker stores when reading the product page threw. *)
Definition enrich_failed (it : item) : item :=
  {| source := source it;
     query := query it;
     name := name it ||| sku it ||| url it ||| Some default_name;
     brand := brand it;
     sku := sku it;
     price_sale := price_sale it;
     price_regular := price_regular it;
     unit_label := unit_label it;
     unit_price := unit_price it;
     url := url it;
     image := image it;
     category := category it;
     scraped_at := scraped_at it |}.

(* ===================================================================== *)
(** * Effects: a state and exception monad *)
(* ===================================================================== *)

(** What the script throws: an error of the rendering surface (a timeout, a
    failed navigation), or the error of the publish guard. *)
Inductive exn : Type :=
| SurfaceError (message : jstring)
| ZeroItemsRegression (historicalCount : number).

Inductive outcome (A : Type) : Type :=
| Ok (a : A)
| Throw (e : exn).

Arguments Ok {A} a.
Arguments Throw {A} e.

(** An [async] computation over the state [S]: it returns or throws, and
    leaves a new state. *)
Definition M (S A : Type) : Type := S -> outcome A * S.

Definition ret {S A : Type} (a : A) : M S A := fun s => (Ok a, s).

Definition bind {S A B : Type} (c : M S A) (k : A -> M S B) : M S B :=
  fun s =>
    match c s with
    | (Ok a, s') => k a s'
    | (Throw e, s') => (Throw e, s')
    end.

Definition throw {S A : Type} (e : exn) : M S A := fun s => (Throw e, s).

(** [try { body } catch (e) { handler }] *)
Definition try_catch {S A : Type} (body : M S A) (handler : exn -> M S A) : M S A :=
  fun s =>
    match body s with
    | (Ok a, s') => (Ok a, s')
    | (Throw e, s') => handler e s'
    end.

(** [try { body } finally { cleanup }] *)
Definition try_finally {S A : Type} (body : M S A) (cleanup : M S unit) : M S A :=
  fun s =>
    match body s with
    | (Ok a, s') =>
        match cleanup s' with
        | (Ok _, s'') => (Ok a, s'')
        | (Throw e, s'') => (Throw e, s'')
        end
    | (Throw e, s') =>
        match cleanup s' with
        | (Ok _, s'') => (Throw e, s'')
        | (Throw e', s'') => (Throw e', s'')
        end
    end.

(** An operation that cannot throw. *)
Definition total_op {S A : Type} (f : S -> A * S) : M S A :=
  fun s => let '(a, s') := f s in (Ok a, s').

Declare Scope monad_scope.
Delimit Scope monad_scope with monad.

Notation "'let*' x ':=' c 'in' k" := (bind c (fun x => k))
  (at level 10, x name, c at level 100, k at level 200) : monad_scope.
Notation "c ;; k" := (bind c (fun _ => k))
  (at level 100, k at level 200, right associativity) : monad_scope.

Local Open Scope monad_scope.

Fixpoint mapM {S A B : Type} (f : A -> M S B) (l : list A) : M S (list B) :=
  match l with
  | [] => ret []
  | x :: l' => let* y := f x in let* ys := mapM f l' in ret (y :: ys)
  end.

(** A computation over one component of a pair of states. *)
Definition on_fst {S T A : Type} (c : M S A) : M (S * T) A :=
  fun st =>
    let '(s, t) := st in
    let '(r, s') := c s in (r, (s', t)).

Definition on_snd {S T A : Type} (c : M T A) : M (S * T) A :=
  fun st =>
    let '(s, t) := st in
    let '(r, t') := c t in (r, (s, t')).

(* ===================================================================== *)
(** * The rendering surface *)
(* ===================================================================== *)

(** What [scrapePage] returns. [pageNumber] is [None] when the script's
    value is [null] or not finite; [disabled] is [None] when the page has no
    next control. *)
Module Extracted.
Record next_page : Type := {
  href : option jstring;
  pageNumber : option Z;
  label : option jstring;
  disabled : option bool
}.
Record t : Type := {
  results : list Card.t;
  paginationLinks : list (option jstring);
  paginationButtons : list Z;
  nextPage : next_page;
  breadcrumb : option jstring;
  emptyStateText : option jstring;
  resultsCountText : option jstring;
  containerSelector : option jstring;
  visibleCardCount : nat
}.
End Extracted.

(** What [getResultsDomState] returns. *)
Record dom_state : Type := {
  cardsCount : nat;
  loaderVisible : bool;
  dom_resultsCountText : option jstring;
  dom_emptyStateText : option jstring
}.

(** What [goToPage] and [goToNextPage] return when they return an object. *)
Record pagination_status : Type := {
  beforeActive : option Z;
  afterActive : option Z;
  sigChanged : bool
}.

(** The browser, its page, the clock and the debug directory, as the script
    sees them: a state [W] and operations on it. Every operation of the page
    may throw (a timeout). The operations that run a script in the page
    ([page.evaluate]) are taken whole; a locator of a pagination button is
    named by the page number of its [data-page] attribute. *)
Class Surface (W : Type) : Type := {
  ensureDirs : M W unit;
  launch_browser : M W unit;
  browser_close : M W unit;
  page_goto : jstring -> M W unit;
  page_url : W -> jstring;
  page_waitForTimeout : M W unit;
  page_waitForSelector : M W unit;
  page_waitForLoadState : M W unit;
  acceptCookies : M W unit;
  getResultsDomState : M W dom_state;
  scrollForLazyLoad : M W unit;
  scrapePage : M W Extracted.t;
  countCards : M W nat;
  killOverlays : M W unit;
  getActivePage : M W (option Z);
  getCardsSignature : M W jstring;
  getPagerText : M W jstring;
  button_count : Z -> M W nat;
  button_getAttribute : Z -> jstring -> M W (option jstring);
  button_scrollIntoViewIfNeeded : Z -> M W unit;
  button_click : Z -> bool -> M W unit;
  (** the page content, a screenshot and a JSON summary written under the
      debug directory *)
  debug_dump : M W unit;
  sleep : W -> W;
  (** [new Date().toISOString()] *)
  date_now : W -> jstring * W;
  (** [context.newPage()], [scrapeProductPage(page, url)] and [page.close()]
      of a worker of the detail enrichment *)
  context_newPage : M W unit;
  scrapeProductPage : jstring -> M W Details.t;
  detail_page_close : M W unit
}.

Definition PAGE_RETRY_COUNT : nat := 2.
Definition PAGE_MAX_LIMIT : Z := 100.
Definition RESULT_WAIT_ATTEMPTS : nat := 10.
Definition BASE_URL : jstring := str "https://mayrand.ca/fr/page-recherche".

Definition getMaxPageFromButtons (paginationButtons : list Z) : option Z :=
  match paginationButtons with
  | [] => None
  | _ =>
      fold_left (fun max value =>
                   match max with
                   | None => Some value
                   | Some m => Some (Z.max m value)
                   end) paginationButtons None
  end.

Definition pagerShowsTarget (pagerText : jstring) (targetPage : Z) : bool :=
  if negb (JsString.truthy pagerText) then false
  else
    let normalized := toLowerCase (replace_runs is_space space pagerText) in
    let target := decimal targetPage in
    includes normalized (space ++ target ++ space)
    || endsWith normalized (space ++ target)
    || startsWith normalized (target ++ space).

Section WithSurface.

Context {builtins : Builtins} {W : Type} {surface : Surface W}.

Local Open Scope monad_scope.

Definition getPaginationInfo (paginationLinks : list (option jstring)) (baseUrl : jstring)
    : option Z :=
  fold_left
    (fun maxPage href =>
       match href with
       | None => maxPage
       | Some h =>
           if negb (JsString.truthy h) then maxPage
           else
             match url_search_param h baseUrl (str "page") with
             | None => maxPage
             | Some pageParam =>
                 let pageNumber :=
                   if truthy_str pageParam then to_Z (parseInt10 (default [] pageParam))
                   else None in
                 match pageNumber with
                 | None => maxPage
                 | Some n =>
                     match maxPage with
                     | Some m => if (m =? 0)%Z then Some n else Some (Z.max m n)
                     | None => Some n
                     end
                 end
             end
       end)
    paginationLinks None.

Definition results_ready (state : dom_state) : bool :=
  truthy_str (dom_resultsCountText state) || (0 <? cardsCount state)%nat
  || negb (loaderVisible state).

(** The loop of [waitForResultsWithRetry], with the attempts that remain. *)
Fixpoint wait_results_loop (remaining : nat) : M W dom_state :=
  match remaining with
  | O => page_waitForTimeout ;; getResultsDomState
  | S n =>
      let* state := getResultsDomState in
      if results_ready state then page_waitForTimeout ;; ret state
      else page_waitForTimeout ;; wait_results_loop n
  end.

Definition waitForResultsWithRetry : M W dom_state :=
  wait_results_loop RESULT_WAIT_ATTEMPTS.

(** The loop of [waitForCardsStable], with the attempts that remain. *)
Fixpoint cards_stable_loop (remaining : nat) (lastCount : nat) : M W nat :=
  match remaining with
  | O => ret lastCount
  | S n =>
      let* count := countCards in
      if (0 <? count)%nat && (count =? lastCount)%nat then ret count
      else page_waitForTimeout ;; cards_stable_loop n count
  end.

Definition waitForCardsStable : M W nat := cards_stable_loop 3 0.

Definition same_page (a b : option Z) : bool :=
  match a, b with
  | Some x, Some y => (x =? y)%Z
  | None, None => true
  | _, _ => false
  end.

(** One attempt of the click loop of [goToPage], after the click: [Some]
    is the [return] inside the [try] block. *)
Definition after_click (targetPage : Z) (beforeActive : option Z) (beforeCount : nat)
    : M W (option pagination_status) :=
  try_catch
    (page_waitForLoadState ;;
     waitForResultsWithRetry ;;
     waitForCardsStable ;;
     let* afterActive := getActivePage in
     let* afterCount := countCards in
     let* afterSig := getCardsSignature in
     let* afterPagerText := getPagerText in
     let sigChanged :=
       negb (same_page beforeActive afterActive) || negb (beforeCount =? afterCount)%nat in
     if same_page afterActive (Some targetPage) || pagerShowsTarget afterPagerText targetPage
     then ret (Some {| beforeActive := beforeActive; afterActive := afterActive;
                       sigChanged := sigChanged |})
     else page_waitForTimeout ;; ret None)
    (fun _ => getActivePage ;; page_waitForTimeout ;; ret None).

(** The click loop of [goToPage], with the attempts that remain; after the
    last one the failure is dumped and the result is [null]. *)
Fixpoint click_attempts (remaining : nat) (targetPage : Z)
    : M W (option pagination_status) :=
  match remaining with
  | O => debug_dump ;; ret None
  | S n =>
      killOverlays ;;
      let* beforeActive := getActivePage in
      let* beforeCount := countCards in
      let* beforeSig := getCardsSignature in
      let* beforePagerText := getPagerText in
      button_scrollIntoViewIfNeeded targetPage ;;
      try_catch (button_click targetPage false)
                (fun _ => killOverlays ;; button_click targetPage true) ;;
      let* moved := after_click targetPage beforeActive beforeCount in
      match moved with
      | Some status => ret (Some status)
      | None => click_attempts n targetPage
      end
  end.

(** The second half of [goToPage]: the page is loaded by its address. *)
Definition goToPage_by_url (baseUrl : jstring) (targetPage : Z) (initialActive : option Z)
    : M W (option pagination_status) :=
  let url := url_set_param baseUrl (str "page") (decimal targetPage) in
  let* beforeActive :=
    match initialActive with
    | Some _ => ret initialActive
    | None => getActivePage
    end in
  page_goto url ;;
  page_waitForTimeout ;;
  page_waitForSelector ;;
  waitForCardsStable ;;
  let* afterActive := getActivePage in
  ret (Some {| beforeActive := beforeActive; afterActive := afterActive;
               sigChanged := negb (same_page beforeActive afterActive) |}).

Definition goToPage (baseUrl : jstring) (targetPage : Z) : M W (option pagination_status) :=
  let* initialActive := getActivePage in
  let* count := button_count targetPage in
  let* clickable :=
    if (0 <? count)%nat then
      let* disabled := button_getAttribute targetPage (str "disabled") in
      match disabled with
      | Some _ => ret false
      | None =>
          let* aria := button_getAttribute targetPage (str "aria-disabled") in
          ret (negb (bool_decide (aria = Some (str "true"))))
      end
    else ret false in
  if clickable then click_attempts 5 targetPage
  else goToPage_by_url baseUrl targetPage initialActive.

Definition goToNextPage (baseUrl : jstring) (nextPage : Extracted.next_page)
    : M W (option pagination_status) :=
  if bool_decide (Extracted.disabled nextPage = Some true) then ret None
  else
    match Extracted.pageNumber nextPage with
    | Some n => goToPage baseUrl n
    | None =>
        if truthy_str (Extracted.href nextPage) then
          match resolveUrl (Extracted.href nextPage) baseUrl with
          | None => ret None
          | Some resolved =>
              if negb (JsString.truthy resolved) then ret None
              else
                page_goto resolved ;;
                page_waitForTimeout ;;
                page_waitForSelector ;;
                waitForCardsStable ;;
                let* afterActive := getActivePage in
                ret (Some {| beforeActive := None; afterActive := afterActive;
                             sigChanged := false |})
          end
        else ret None
    end.

End WithSurface.

(* ===================================================================== *)
(** * Listing traversal *)
(* ===================================================================== *)

(** The variables of the [while] loop of [scrapeListing]. *)
Module Loop.
Record t : Type := {
  allItems : list item;
  uniqueItems : gmap jstring item;
  currentPage : Z;
  maxPage : option Z;
  emptyPageStreak : nat;
  pageCount : nat;
  stoppedReason : option string
}.
End Loop.

(** What [scrapeListing] returns. *)
Module Result.
Record t : Type := {
  baseUrl : jstring;
  items : list item;
  pageCount : nat;
  stoppedReason : string
}.
End Result.

(** How one turn of the [while] loop ends: at its last statement, or by
    [break]. *)
Inductive turn : Type :=
| Continue (st : Loop.t)
| Break (st : Loop.t).

Definition set_stopped (st : Loop.t) (reason : string) : Loop.t :=
  {| Loop.allItems := Loop.allItems st;
     Loop.uniqueItems := Loop.uniqueItems st;
     Loop.currentPage := Loop.currentPage st;
     Loop.maxPage := Loop.maxPage st;
     Loop.emptyPageStreak := Loop.emptyPageStreak st;
     Loop.pageCount := Loop.pageCount st;
     Loop.stoppedReason := Some reason |}.

Definition set_currentPage (st : Loop.t) (page : Z) : Loop.t :=
  {| Loop.allItems := Loop.allItems st;
     Loop.uniqueItems := Loop.uniqueItems st;
     Loop.currentPage := page;
     Loop.maxPage := Loop.maxPage st;
     Loop.emptyPageStreak := Loop.emptyPageStreak st;
     Loop.pageCount := Loop.pageCount st;
     Loop.stoppedReason := Loop.stoppedReason st |}.

Section Traversal.

Context {builtins : Builtins} {W : Type} {surface : Surface W}.

Local Open Scope monad_scope.
Local Open Scope string_scope.

(** The [for] loop that extracts one page, with the attempts that remain:
    the value of [extracted] after it. An attempt that throws keeps the
    value of an earlier attempt. *)
Fixpoint extract_attempts (remaining attempt : nat) (currentPage : Z) (pageUrl : jstring)
    (extracted : option Extracted.t) : M W (option Extracted.t) :=
  match remaining with
  | O => ret extracted
  | S n =>
      let* r :=
        try_catch
          ((if (currentPage =? 1)%Z then page_goto pageUrl else ret tt) ;;
           acceptCookies ;;
           page_waitForTimeout ;;
           try_catch page_waitForSelector (fun _ => ret tt) ;;
           waitForCardsStable ;;
           waitForResultsWithRetry ;;
           scrollForLazyLoad ;;
           let* ex := scrapePage in
           if (0 <? length (Extracted.results ex))%nat || (attempt =? PAGE_RETRY_COUNT)%nat
           then ret (Some ex, true)
           else total_op (fun w => (tt, sleep w)) ;; ret (Some ex, false))
          (fun error => total_op (fun w => (tt, sleep w)) ;; ret (extracted, false)) in
      let '(extracted', stop) := r in
      if stop then ret extracted'
      else extract_attempts n (S attempt) currentPage pageUrl extracted'
  end.

(** The first part of a turn: the page is extracted; [None] when every
    attempt threw, after the error file is written. *)
Definition extract_page (baseUrlString : jstring) (st : Loop.t) : M W (option Extracted.t) :=
  let* current := total_op (fun w => (page_url w, w)) in
  let pageUrl :=
    if (Loop.currentPage st =? 1)%Z then baseUrlString
    else if JsString.truthy current then current else baseUrlString in
  let* extracted :=
    extract_attempts (S PAGE_RETRY_COUNT) 0 (Loop.currentPage st) pageUrl None in
  match extracted with
  | None => debug_dump ;; ret None
  | Some ex => ret (Some ex)
  end.

(** The second part of a turn: the cards become records, the records are
    merged into the output, and the counters of the loop are updated. *)
Definition accumulate (query baseUrlString : jstring) (st : Loop.t) (extracted : Extracted.t)
    : M W Loop.t :=
  (if (length (Extracted.results extracted) =? 0)%nat then debug_dump else ret tt) ;;
  let* emptyPageStreak :=
    if (Extracted.visibleCardCount extracted =? 0)%nat
    then debug_dump ;; ret (S (Loop.emptyPageStreak st))
    else ret O in
  let pageCategory := Extracted.breadcrumb extracted ||| None in
  let* pageItems :=
    mapM (fun card =>
            let* now := total_op date_now in
            ret (card_to_item query baseUrlString pageCategory now card))
         (Extracted.results extracted) in
  let '(uniqueItems, allItems) :=
    add_page_items (Loop.uniqueItems st, Loop.allItems st) pageItems in
  let derivedMaxPage :=
    getMaxPageFromButtons (Extracted.paginationButtons extracted)
    ?? getPaginationInfo (Extracted.paginationLinks extracted) baseUrlString in
  let maxPage :=
    match derivedMaxPage with
    | Some d =>
        match Loop.maxPage st with
        | None => Some d
        | Some m => Some (Z.max m d)
        end
    | None => Loop.maxPage st
    end in
  (if (length pageItems =? 0)%nat then debug_dump else ret tt) ;;
  ret {| Loop.allItems := allItems;
         Loop.uniqueItems := uniqueItems;
         Loop.currentPage := Loop.currentPage st;
         Loop.maxPage := maxPage;
         Loop.emptyPageStreak := emptyPageStreak;
         Loop.pageCount := S (Loop.pageCount st);
         Loop.stoppedReason := Loop.stoppedReason st |}.

(** The pagination transition of a turn: the next control first, then the
    page number when the maximum page is known. *)
Definition transition (baseUrlString : jstring) (st : Loop.t) (extracted : Extracted.t)
    : M W (option pagination_status) :=
  let targetPage := (Loop.currentPage st + 1)%Z in
  let* paginationStatus :=
    if negb (bool_decide (Extracted.disabled (Extracted.nextPage extracted) = Some true))
    then goToNextPage baseUrlString (Extracted.nextPage extracted)
    else ret None in
  match paginationStatus, Loop.maxPage st with
  | None, Some m =>
      if (Loop.currentPage st <? m)%Z then goToPage baseUrlString targetPage
      else ret paginationStatus
  | _, _ => ret paginationStatus
  end.

(** What the loop does with the result of the transition. *)
Definition after_transition (st : Loop.t) (extracted : Extracted.t)
    (paginationStatus : option pagination_status) : M W turn :=
  let targetPage := (Loop.currentPage st + 1)%Z in
  match paginationStatus with
  | None =>
      ret (Break (set_stopped st
                    (if bool_decide (Extracted.disabled (Extracted.nextPage extracted) = Some true)
                     then "next-disabled" else "no-next-page")))
  | Some status =>
      if negb (same_page (afterActive status) (Some targetPage))
      then ret (Break (set_stopped st "no-next-page"))
      else
        total_op (fun w => (tt, sleep w)) ;;
        ret (Continue (set_currentPage st targetPage))
  end.

(** The third part of a turn: stop, or move to the next page. *)
Definition advance (baseUrlString : jstring) (st : Loop.t) (extracted : Extracted.t)
    : M W turn :=
  if (2 <=? Loop.emptyPageStreak st)%nat then ret (Break (set_stopped st "empty-pages-streak"))
  else
    match Loop.maxPage st with
    | Some m =>
        if (m <=? Loop.currentPage st)%Z then ret (Break (set_stopped st "max-page-reached"))
        else
          let* paginationStatus := transition baseUrlString st extracted in
          after_transition st extracted paginationStatus
    | None =>
        let* paginationStatus := transition baseUrlString st extracted in
        after_transition st extracted paginationStatus
    end.

(** One turn of the [while] loop. *)
Definition process_page (query baseUrlString : jstring) (st : Loop.t) : M W turn :=
  let* extracted := extract_page baseUrlString st in
  match extracted with
  | None => ret (Break st)
  | Some ex =>
      let* st' := accumulate query baseUrlString st ex in
      advance baseUrlString st' ex
  end.

(** The [while (currentPage <= PAGE_MAX_LIMIT)] loop. [fuel] bounds the
    number of turns; [None] is the loop running out of it. *)
Fixpoint listing_loop (fuel : nat) (query baseUrlString : jstring) (st : Loop.t)
    : M W (option Loop.t) :=
  if (Loop.currentPage st <=? PAGE_MAX_LIMIT)%Z then
    match fuel with
    | O => ret None
    | S n =>
        let* r := process_page query baseUrlString st in
        match r with
        | Break st' => ret (Some st')
        | Continue st' => listing_loop n query baseUrlString st'
        end
    end
  else ret (Some st).

Definition initial_loop_state : Loop.t :=
  {| Loop.allItems := [];
     Loop.uniqueItems := ∅;
     Loop.currentPage := 1;
     Loop.maxPage := None;
     Loop.emptyPageStreak := 0;
     Loop.pageCount := 0;
     Loop.stoppedReason := None |}.

(** The statements of [scrapeListing] after the loop. *)
Definition listing_result (baseUrlString : jstring) (st : Loop.t) : Result.t :=
  {| Result.baseUrl := baseUrlString;
     Result.items := Loop.allItems st;
     Result.pageCount := Loop.pageCount st;
     Result.stoppedReason :=
       match Loop.stoppedReason st with
       | Some reason => reason
       | None =>
           if (PAGE_MAX_LIMIT <? Loop.currentPage st)%Z then "page-limit-reached"
           else "completed"
       end |}.

Definition listing_base_url (query : jstring) : jstring :=
  if JsString.truthy query then url_set_param BASE_URL (str "search") query else BASE_URL.

(** [scrapeListing(page, query)]; [None] is the loop running out of fuel,
    which does not happen. *)
Definition scrapeListing (query : jstring) : M W (option Result.t) :=
  let baseUrlString := listing_base_url query in
  let* final :=
    listing_loop (Z.to_nat PAGE_MAX_LIMIT) query baseUrlString initial_loop_state in
  ret (option_map (listing_result baseUrlString) final).

End Traversal.

(* ===================================================================== *)
(** * Published files and the publish guard *)
(* ===================================================================== *)

(** A value that [JSON.parse] returns. The fields of an object have
    distinct keys. *)
Inductive json : Type :=
| JNull
| JBool (b : bool)
| JNum (n : number)
| JStr (s : jstring)
| JArr (elements : list json)
| JObj (fields : list (jstring * json)).

(** The content of a file of the output directory: a text that
    [JSON.parse] reads as a value, the text that [writeCsv] writes for a
    list of records, or a text that is not JSON. *)
Inductive file : Type :=
| JsonText (value : json)
| CsvText (rows : list item)
| OtherText (text : jstring).

(** The output directory: its files by path. A path that is not bound is a
    file that does not exist. *)
Abbreviation store := (gmap string file).

Local Open Scope string_scope.

Definition metadata_path : string := "public/mayrand/onsale/metadata.json".
Definition data_json_path : string := "public/mayrand/onsale/data.json".
Definition data_csv_path : string := "public/mayrand/onsale/data.csv".

(** [JSON.stringify] writes a number that is not finite as [null]. *)
Definition json_of_number (n : number) : json :=
  if isFinite n then JNum n else JNull.

Definition json_of_string (s : option jstring) : json :=
  match s with
  | Some x => JStr x
  | None => JNull
  end.

Definition json_of_price (x : option number) : json :=
  match x with
  | Some n => json_of_number n
  | None => JNull
  end.

Definition json_of_item (it : item) : json :=
  JObj [ (str "source", JStr (source it));
         (str "query", JStr (query it));
         (str "name", json_of_string (name it));
         (str "brand", json_of_string (brand it));
         (str "sku", json_of_string (sku it));
         (str "price_sale", json_of_price (price_sale it));
         (str "price_regular", json_of_price (price_regular it));
         (str "unit_label", json_of_string (unit_label it));
         (str "unit_price", json_of_price (unit_price it));
         (str "url", json_of_string (url it));
         (str "image", json_of_string (image it));
         (str "category", json_of_string (category it));
         (str "scraped_at", JStr (scraped_at it)) ].

(** The object that [main] writes to [metadata.json]. *)
Definition metadata_json (pagesScraped totalItems : nat) : json :=
  JObj [ (str "pagesScraped", JNum (of_Z (Z.of_nat pagesScraped)));
         (str "totalItems", JNum (of_Z (Z.of_nat totalItems))) ].

(** [value?.[key]] on a parsed value: [None] is [undefined]. *)
Definition json_field (value : json) (key : jstring) : option json :=
  match value with
  | JObj fields => snd <$> List.find (fun kv => bool_decide (fst kv = key)) fields
  | _ => None
  end.

(** [Number.isFinite(value?.[key])] and the number *)
Definition finite_field (value : json) (key : jstring) : option number :=
  match json_field value key with
  | Some (JNum n) => if isFinite n then Some n else None
  | _ => None
  end.

(** [JSON.parse(await fs.readFile(path, 'utf8'))]: [None] when the file
    does not exist or is not JSON, and the script catches the error. *)
Definition read_json (path : string) (files : store) : option json :=
  match files !! path with
  | Some (JsonText value) => Some value
  | _ => None
  end.

Definition writeJson (path : string) (data : json) : M store unit :=
  fun files => (Ok tt, <[path := JsonText data]> files).

Definition writeCsv (path : string) (items : list item) : M store unit :=
  fun files => (Ok tt, <[path := CsvText items]> files).

(** The count that the first [try] block of [readHistoricalCount] returns,
    when it returns. *)
Definition metadata_count (files : store) : option number :=
  match read_json metadata_path files with
  | Some metadata =>
      match finite_field metadata (str "totalItems") with
      | Some n => Some n
      | None =>
          match finite_field metadata (str "total_items") with
          | Some n => Some n
          | None => finite_field metadata (str "product_count")
          end
      end
  | None => None
  end.

(** The count that the second [try] block returns. *)
Definition data_count (files : store) : number :=
  match read_json data_json_path files with
  | Some (JArr elements) => of_Z (Z.of_nat (length elements))
  | _ => zero
  end.

Definition readHistoricalCount : M store number :=
  fun files =>
    (Ok (match metadata_count files with
         | Some n => n
         | None => data_count files
         end), files).

Local Open Scope monad_scope.

(** The end of [main], from the call of [readHistoricalCount]: the publish
    guard and the writes. *)
Definition publish (enrichedItems : list item) (pagesScraped : nat) : M store unit :=
  let* historicalCount := readHistoricalCount in
  if (length enrichedItems =? 0)%nat then
    if Number.gt historicalCount zero then throw (ZeroItemsRegression historicalCount)
    else writeJson metadata_path (metadata_json pagesScraped (length enrichedItems))
  else
    writeJson data_json_path (JArr (map json_of_item enrichedItems)) ;;
    writeCsv data_csv_path enrichedItems ;;
    writeJson metadata_path (metadata_json pagesScraped (length enrichedItems)).

Section Main.

Context {builtins : Builtins} {W : Type} {surface : Surface W}.

(** One slot of [enrichItemsWithDetails]. *)
Definition enrich_item (it : item) : M W item :=
  match url it with
  | Some u =>
      if negb (JsString.truthy u) then ret it
      else
        total_op (fun w => (tt, sleep w)) ;;
        context_newPage ;;
        try_finally
          (try_catch (let* details := scrapeProductPage u in ret (enrich_with it details))
                     (fun _ => ret (enrich_failed it)))
          detail_page_close
  | None => ret it
  end.

(** [enrichItemsWithDetails]: every slot of the result depends on its own
    record and on the product page read for it. The four workers of the
    script take the slots in turn; here the slots are filled in order. *)
Definition enrichItemsWithDetails (items : list item) : M W (list item) :=
  mapM enrich_item items.

(** The loop of [main] over the queries: the first query with records, or
    else the result of the first query. [None] is a traversal out of fuel. *)
Fixpoint run_queries (queries : list jstring) (result : option Result.t)
    : M W (option (option Result.t)) :=
  match queries with
  | [] => ret (Some result)
  | query :: rest =>
      let* run := scrapeListing query in
      match run with
      | None => ret None
      | Some runResult =>
          if (0 <? length (Result.items runResult))%nat then ret (Some (Some runResult))
          else
            run_queries rest
              (match result with
               | None => Some runResult
               | Some _ => result
               end)
      end
  end.

Definition queries : list jstring := [str "onsale"; str "promo"; str "solde"].

(** [main], up to the call of [readHistoricalCount]: the enriched records
    and the number of pages. *)
Definition collect : M W (option (list item * nat)) :=
  ensureDirs ;;
  launch_browser ;;
  let* found := run_queries queries None in
  match found with
  | None => ret None
  | Some result =>
      let candidateItems := from_option Result.items [] result in
      let finalItems := final_items candidateItems in
      let* enrichedItems := enrichItemsWithDetails finalItems in
      browser_close ;;
      ret (Some (enrichedItems, from_option Result.pageCount O result))
  end.

Definition main : M (W * store) (option unit) :=
  let* collected := on_fst collect in
  match collected with
  | None => ret None
  | Some (enrichedItems, pagesScraped) =>
      on_snd (publish enrichedItems pagesScraped) ;; ret (Some tt)
  end.

End Main.

Local Close Scope string_scope.
Local Close Scope monad_scope.

(* ===================================================================== *)
(** * Debug file names and the text of the CSV file *)
(* ===================================================================== *)

(** The class [[a-z0-9]] *)
Definition is_slug_char (c : N) : bool := ((97 <=? c) && (c <=? 122))%N || is_digit c.

Definition hyphen : jstring := [45%N].

(** [s.replace(/^-+|-+$/g, '')]: the hyphens at the start and then those at
    the end are taken out. *)
Definition strip_hyphens (s : jstring) : jstring :=
  rev (snd (span (N.eqb 45) (rev (snd (span (N.eqb 45) s))))).

(** [slugify(value)]; [lowerCase] is [String.prototype.toLowerCase]. *)
Definition slugify (lowerCase : jstring -> jstring) (value : option jstring) : jstring :=
  let text := default (str "query") (value ||| Some (str "query")) in
  let slug :=
    take 40 (strip_hyphens
               (replace_runs (fun c => negb (is_slug_char c)) hyphen (lowerCase text))) in
  if JsString.truthy slug then slug else str "query".

(** [l.join(sep)] on an array of strings *)
Fixpoint join (sep : jstring) (l : list jstring) : jstring :=
  match l with
  | [] => []
  | [x] => x
  | x :: l' => x ++ sep ++ join sep l'
  end.

Definition csv_headers : list jstring :=
  [ str "source"; str "query"; str "name"; str "brand"; str "sku"; str "price_sale";
    str "price_regular"; str "unit_label"; str "unit_price"; str "url"; str "image";
    str "category"; str "scraped_at" ].

Definition comma : jstring := str ",".
Definition double_quote : jstring := [34%N].
Definition line_feed : jstring := [10%N].

(** [sanitize] of [writeCsv], on [String(value)]: a text with a comma, a
    double quote or a line feed is put between double quotes, its own
    double quotes doubled. *)
Definition sanitize (stringValue : jstring) : jstring :=
  if includes stringValue comma || includes stringValue double_quote
     || includes stringValue line_feed
  then double_quote ++ replace_each (N.eqb 34) (double_quote ++ double_quote) stringValue
       ++ double_quote
  else stringValue.

Section CsvText.

Context {builtins : Builtins}.

(** [String(item[header] ?? '')] for the headers in their order: [null] is
    the empty text. *)
Definition csv_cells (it : item) : list jstring :=
  let text (v : option jstring) := default [] v in
  let number (v : option number) := from_option number_to_string [] v in
  [ source it; query it; text (name it); text (brand it); text (sku it);
    number (price_sale it); number (price_regular it); text (unit_label it);
    number (unit_price it); text (url it); text (image it); text (category it);
    scraped_at it ].

(** The text that [writeCsv] writes for the records. *)
Definition csv_text (items : list item) : jstring :=
  let lines :=
    join comma csv_headers
    :: map (fun it => join comma (map sanitize (csv_cells it))) items in
  join line_feed lines ++ line_feed.

End CsvText.

(** Where a reader of CSV is in its input: at the start of a row, at the
    start of a cell after a comma, in a cell without quotes, in a cell
    between quotes, or after a double quote met in a cell between quotes. *)
Inductive csv_mode : Type := RowStart | CellStart | Plain | Quoted | AfterQuote.

(** A reader of CSV texts: cells are separated by commas and rows by line
    feeds; a cell that starts with a double quote runs to its closing
    double quote, and a doubled double quote in it is one double quote.
    [rows] are the rows read so far, [cells] the cells read so far in the
    row, and [cell] what was read of the cell. *)
Fixpoint read_csv (mode : csv_mode) (rows : list (list jstring)) (cells : list jstring)
    (cell : jstring) (s : jstring) : list (list jstring) :=
  match s with
  | [] =>
      match mode with
      | RowStart => rows
      | _ => rows ++ [cells ++ [cell]]
      end
  | c :: s' =>
      match mode with
      | Quoted =>
          if (c =? 34)%N then read_csv AfterQuote rows cells cell s'
          else read_csv Quoted rows cells (cell ++ [c]) s'
      | _ =>
          if (c =? 44)%N then read_csv CellStart rows (cells ++ [cell]) [] s'
          else if (c =? 10)%N then read_csv RowStart (rows ++ [cells ++ [cell]]) [] [] s'
          else if (c =? 34)%N then
            match mode with
            | RowStart | CellStart => read_csv Quoted rows cells cell s'
            | AfterQuote => read_csv Quoted rows cells (cell ++ [c]) s'
            | _ => read_csv Plain rows cells (cell ++ [c]) s'
            end
          else read_csv Plain rows cells (cell ++ [c]) s'
      end
  end.

(* ===================================================================== *)
(** * Vocabulary of the statements *)
(* ===================================================================== *)

(** ** Numbers and prices *)

Definition finite (x : number) : Prop := isFinite x = true.

Definition value_le (a b : number) : Prop := (value a <= value b)%Z.

(** The numbers that [parsePriceCandidates] keeps: the candidates that
    [parseNumber] reads. *)
Definition parsed_prices (values : list jstring) : list number :=
  non_null (map (fun entry => parseNumber (Some entry)) values).

(** The two prices of a record are not both present and equal. *)
Definition distinct_prices (sale regular : option number) : Prop :=
  forall s r, sale = Some s -> regular = Some r -> strict_eq s r = false.

(** ** The matcher and the pattern *)

(** What the matcher returns comes from a match of the pattern. *)
Definition sound (m : jstring -> captures -> cont -> option captures) (r : regex) : Prop :=
  forall s c k res,
    m s c k = Some res ->
    exists a b cs, s = a ++ b /\ matches r a b cs /\ k b (cs ++ c) = Some res.

(** The continuation accepts the rest [b] of the input whatever the
    captures are. *)
Definition accepts (k : cont) (b : jstring) : Prop := forall c, is_Some (k b c).

(** Every match of the pattern that the continuation accepts makes the
    matcher succeed. *)
Definition complete (m : jstring -> captures -> cont -> option captures) (r : regex) : Prop :=
  forall a b cs, matches r a b cs ->
  forall c k, accepts k b -> is_Some (m (a ++ b) c k).

Definition spaces (s : jstring) : Prop := Forall (fun c => is_space c = true) s.

(** An optional currency symbol: nothing, a dollar sign or a euro sign. *)
Definition currency_opt (s : jstring) : Prop := s = [] \/ s = [36%N] \/ s = [8364%N].

(** One digit or more. *)
Definition digits1 (s : jstring) : Prop :=
  s <> [] /\ Forall (fun c => is_digit c = true) s.

(** Digits, optionally followed by a dot or a comma and digits. *)
Definition number_text (s : jstring) : Prop :=
  digits1 s \/
  exists i c f, s = i ++ c :: f /\ digits1 i /\ dot_or_comma c = true /\ digits1 f.

(** A slash, or the word [word] in any letter case. *)
Definition separator_text (word s : jstring) : Prop :=
  s = [47%N] \/ map canonicalize s = map canonicalize word.

(** One code unit or more, none of them a line feed. *)
Definition label_text (s : jstring) : Prop :=
  s <> [] /\ Forall (fun c => not_newline c = true) s.

(** The text [a] is an occurrence of the unit-price pattern with the number
    [num] and the label [lab]: currency symbol, number, currency symbol,
    separator and label, with optional white space between them. *)
Definition unit_price_occurrence (word num lab a : jstring) : Prop :=
  exists cur1 ws1 ws2 cur2 ws3 sep ws4,
    a = cur1 ++ ws1 ++ num ++ ws2 ++ cur2 ++ ws3 ++ sep ++ ws4 ++ lab /\
    currency_opt cur1 /\ spaces ws1 /\ number_text num /\ spaces ws2 /\
    currency_opt cur2 /\ spaces ws3 /\ separator_text word sep /\ spaces ws4 /\
    label_text lab.

(** The text in which [parseUnitPriceText] looks for the pattern. *)
Definition normalized_unit_text (value : option jstring) : jstring :=
  match value with
  | Some v => trim (replace_each (N.eqb 160) space (replace_runs is_space space v))
  | None => []
  end.

(** The text has an occurrence of the pattern. *)
Definition has_unit_price (word text : jstring) : Prop :=
  exists pre a post num lab,
    text = pre ++ a ++ post /\ unit_price_occurrence word num lab a.

Definition no_unit_price : unit_price_text := {| unitPrice := None; unitLabel := None |}.

(** ** Deduplication *)

(** The records of [l] that are the first with their key, the keys of
    [seen] counting as seen before; records without a key are all kept. *)
Fixpoint first_seen (key : item -> option jstring) (seen : gset jstring) (l : list item)
    : list item :=
  match l with
  | [] => []
  | x :: l' =>
      match key x with
      | Some k =>
          if decide (k ∈ seen) then first_seen key seen l'
          else x :: first_seen key ({[k]} ∪ seen) l'
      | None => x :: first_seen key seen l'
      end
  end.

(** ** The publish guard *)

(** The count that [readHistoricalCount] returns. *)
Definition historical_count (files : store) : number :=
  match metadata_count files with
  | Some n => n
  | None => data_count files
  end.

(** What a computation returned, when it returned. *)
Definition returned {A S : Type} (r : outcome A * S) : option A :=
  match r with
  | (Ok a, _) => Some a
  | (Throw _, _) => None
  end.

(** ** The turns of a traversal *)

Local Open Scope string_scope.

(** The reasons that a turn of the loop gives when it stops. *)
Definition turn_reasons : list string :=
  ["empty-pages-streak"; "max-page-reached"; "next-disabled"; "no-next-page"].

(** The values of [stoppedReason] in the result of [scrapeListing]. *)
Definition stopped_reasons : list string :=
  turn_reasons ++ ["page-limit-reached"; "completed"].

(** What the loop does with the result of the transition, as a value. *)
Definition transition_verdict (st : Loop.t) (extracted : Extracted.t)
    (paginationStatus : option pagination_status) : turn :=
  let targetPage := (Loop.currentPage st + 1)%Z in
  match paginationStatus with
  | None =>
      Break (set_stopped st
               (if bool_decide (Extracted.disabled (Extracted.nextPage extracted) = Some true)
                then "next-disabled" else "no-next-page"))
  | Some status =>
      if same_page (afterActive status) (Some targetPage)
      then Continue (set_currentPage st targetPage)
      else Break (set_stopped st "no-next-page")
  end.

Local Close Scope string_scope.

(** How a turn can end. *)
Inductive turn_end (st : Loop.t) : turn -> Prop :=
| extraction_failed : turn_end st (Break st)
| stopped st1 reason :
    Loop.currentPage st1 = Loop.currentPage st ->
    Loop.pageCount st1 = S (Loop.pageCount st) ->
    reason ∈ turn_reasons ->
    turn_end st (Break (set_stopped st1 reason))
| moved st1 :
    Loop.currentPage st1 = Loop.currentPage st ->
    Loop.pageCount st1 = S (Loop.pageCount st) ->
    Loop.stoppedReason st1 = Loop.stoppedReason st ->
    turn_end st (Continue (set_currentPage st1 (Loop.currentPage st + 1))).

(** The state at the head of the loop, with enough fuel for the pages left
    under the limit. *)
Definition loop_entry (st : Loop.t) (fuel : nat) : Prop :=
  Loop.stoppedReason st = None /\
  (1 <= Loop.currentPage st <= PAGE_MAX_LIMIT + 1)%Z /\
  Z.of_nat (Loop.pageCount st) = (Loop.currentPage st - 1)%Z /\
  (PAGE_MAX_LIMIT + 1 - Loop.currentPage st <= Z.of_nat fuel)%Z.

(** The state when the loop is left: by its condition, after the page
    limit; by the [break] of a failed extraction; or by the [break] of a
    turn that gives its reason. *)
Inductive loop_exit : Loop.t -> Prop :=
| exit_limit st :
    Loop.stoppedReason st = None ->
    Loop.currentPage st = (PAGE_MAX_LIMIT + 1)%Z ->
    Loop.pageCount st = 100%nat ->
    loop_exit st
| exit_failed st :
    Loop.stoppedReason st = None ->
    (Loop.currentPage st <= PAGE_MAX_LIMIT)%Z ->
    Z.of_nat (Loop.pageCount st) = (Loop.currentPage st - 1)%Z ->
    loop_exit st
| exit_stopped st reason :
    Loop.stoppedReason st = Some reason ->
    reason ∈ turn_reasons ->
    (1 <= Loop.currentPage st <= PAGE_MAX_LIMIT)%Z ->
    Z.of_nat (Loop.pageCount st) = Loop.currentPage st ->
    loop_exit st.

Section Turns.

Context {builtins : Builtins} {W : Type} {surface : Surface W}.

(** The turns of a run: [reaches q b x y] when the loop, at its head in
    [x], gets to its head in [y] after some turns. *)
Inductive reaches (q b : jstring) : Loop.t * W -> Loop.t * W -> Prop :=
| reaches_here x : reaches q b x x
| reaches_turn st w st1 w1 y :
    (Loop.currentPage st <= PAGE_MAX_LIMIT)%Z ->
    process_page q b st w = (Ok (Continue st1), w1) ->
    reaches q b (st1, w1) y ->
    reaches q b (st, w) y.

End Turns.

(** ** White space, number texts and addresses *)

(** The only code unit of the class [p] is [x]. *)
Definition only_of (p : N -> bool) (x : N) (s : jstring) : Prop := Forall (fun c => p c = true -> c = x) s.

(** No two [x] in a row. *)
Fixpoint no_pair (x : N) (s : jstring) : Prop :=
  match s with
  | c1 :: (c2 :: _) as s' => ~ (c1 = x /\ c2 = x) /\ no_pair x s'
  | _ => True
  end.

(** A code unit that [parseNumber] keeps: a digit, a dot or a comma. *)
Definition kept_in_number (c : N) : bool := is_digit c || dot_or_comma c.

(** A comma becomes a dot. *)
Definition comma_to_dot (c : N) : N := if is_comma c then 46%N else c.

(** The text [u] has, after [pre], a hyphen followed by the digits [d],
    three or more. *)
Definition sku_at (u pre d : jstring) : Prop :=
  exists post, u = pre ++ 45%N :: d ++ post /\
               Forall (fun c => is_digit c = true) d /\ (3 <= length d)%nat.


Section LinkPage.

Context {builtins : Builtins}.

(** The page number that [getPaginationInfo] reads from one link: the
    integer that starts its [page] parameter. *)
Definition link_page (baseUrl : jstring) (href : option jstring) : option Z :=
  match href with
  | Some h =>
      if JsString.truthy h then
        match url_search_param h baseUrl (str "page") with
        | Some (Some pageParam) =>
            if JsString.truthy pageParam then to_Z (parseInt10 pageParam) else None
        | _ => None
        end
      else None
  | None => None
  end.

End LinkPage.

(** ** Reading an occurrence of the unit-price pattern from its start *)

(** The text without the currency symbol that it starts with, if any. *)
Definition after_currency (s : jstring) : jstring :=
  match s with
  | c :: s' => if (c =? 36)%N || (c =? 8364)%N then s' else s
  | [] => []
  end.

(** The text without the white space that it starts with. *)
Definition skip_spaces (s : jstring) : jstring := snd (span is_space s).

(** The number that the text starts with, and the rest: digits, and a dot
    or a comma with digits after it when there are some. *)
Definition read_number (s : jstring) : jstring * jstring :=
  let '(i, r) := span is_digit s in
  match r with
  | c :: r' =>
      if dot_or_comma c then
        match span is_digit r' with
        | ([], _) => (i, r)
        | (f, r'') => (i ++ c :: f, r'')
        end
      else (i, r)
  | [] => (i, r)
  end.

(** The text after the separator that it starts with. *)
Definition after_separator (s : jstring) : option jstring :=
  match s with
  | x :: t =>
      if (x =? 47)%N then Some t
      else
        match t with
        | y :: z :: t' =>
            if bool_decide (map canonicalize [x; y; z] = map canonicalize (str "par"))
            then Some t' else None
        | _ => None
        end
  | [] => None
  end.

(** The number of an occurrence that starts the text, and what follows its
    separator. *)
Definition read_occurrence (a : jstring) : option (jstring * jstring) :=
  let '(num, r) := read_number (skip_spaces (after_currency a)) in
  match after_separator (skip_spaces (after_currency (skip_spaces r))) with
  | Some rest => Some (num, rest)
  | None => None
  end.

(** A delimiter: the comma that ends a cell or the line feed that ends a
    row, and the state of the reader after it. *)
Definition after_delimiter (d : N) (rows : list (list jstring)) (cells : list jstring)
    (cell rest : jstring) : list (list jstring) :=
  if (d =? 44)%N then read_csv CellStart rows (cells ++ [cell]) [] rest
  else read_csv RowStart (rows ++ [cells ++ [cell]]) [] [] rest.

(** ** The pages of a traversal *)

Section Pages.

Context {builtins : Builtins} {W : Type} {surface : Surface W}.

(** The records of the cards of an extracted page, in the order of the
    cards; [stamps] are the times at which the cards were turned into
    records. *)
Definition page_records (q b : jstring) (ex : Extracted.t) (stamps : list jstring)
    : list item :=
  zip_with (fun now card => card_to_item q b (Extracted.breadcrumb ex ||| None) now card)
           stamps (Extracted.results ex).

(** [page] is the list of the records of the page that the run from [w0]
    extracts in the turn that follows [i] extracted pages. *)
Definition turn_page (q b : jstring) (w0 : W) (i : nat) (page : list item) : Prop :=
  exists st w ex w1 stamps,
    reaches q b (initial_loop_state, w0) (st, w) /\
    Loop.pageCount st = i /\
    (Loop.currentPage st <= PAGE_MAX_LIMIT)%Z /\
    extract_page b st w = (Ok (Some ex), w1) /\
    length stamps = length (Extracted.results ex) /\
    page = page_records q b ex stamps.

(** The output of the loop is what the merge of the pages [pages], the
    pages that the run extracted so far, gives. *)
Definition gathered (q b : jstring) (w0 : W) (st : Loop.t) (pages : list (list item))
    : Prop :=
  length pages = Loop.pageCount st /\
  (forall i page, pages !! i = Some page -> turn_page q b w0 i page) /\
  (Loop.uniqueItems st, Loop.allItems st) = fold_left add_page_items pages (∅, []).

End Pages.

(** The state of the loop at the end of a turn. *)
Definition turn_state (t : turn) : Loop.t :=
  match t with
  | Continue st | Break st => st
  end.

(** The maximum page that the loop knows after a page: the greatest of the
    one it knew and the one that the page gives, by its buttons or else by
    its links. *)
Definition known_max_page {builtins : Builtins} (b : jstring) (st : Loop.t)
    (ex : Extracted.t) : option Z :=
  match getMaxPageFromButtons (Extracted.paginationButtons ex)
        ?? getPaginationInfo (Extracted.paginationLinks ex) b,
        Loop.maxPage st with
  | Some d, Some m => Some (Z.max m d)
  | Some d, None => Some d
  | None, known => known
  end.

(** What every record built from a listing card has: the source, the query
    of the traversal, no unit price, an address, a sale price only beside a
    regular price, and never two equal prices. *)
Definition listed (q : jstring) (it : item) : Prop :=
  source it = SOURCE /\ query it = q /\ unit_price it = None /\ is_Some (url it) /\
  (price_regular it = None -> price_sale it = None) /\
  distinct_prices (price_sale it) (price_regular it).

(** The keys of the output are the keys of the map, each once. *)
Definition keyed {builtins : Builtins} (m : gmap jstring item) (l : list item) : Prop :=
  NoDup (omap listing_key l) /\ forall k, k ∈ dom m <-> k ∈ omap listing_key l.

(** What a slot of [enrichItemsWithDetails] holds for the record [it]:
    the record itself when it has no address, and else the record merged
    with the details of its product page, or, when the page could not be
    read, the record with a name of last resort. *)
Definition enriched_from (it r : item) : Prop :=
  (truthy_str (url it) = false /\ r = it) \/
  (truthy_str (url it) = true /\
   (r = enrich_failed it \/ exists details, r = enrich_with it details)).

(* ===================================================================== *)
(** * Example inputs: builtins, cards and simulated sites *)
(* ===================================================================== *)

(** Builtins for examples: a number prints as a fixed text, a link resolves
    to itself, and a search parameter is appended to the address. *)
Definition example_builtins : Builtins :=
  {| number_to_string := fun _ => str "n";
     url_resolve := fun u _ => Some u;
     encodeURIComponent := fun s => s;
     url_search_param := fun _ _ _ => Some None;
     url_set_param := fun base key v => base ++ str "?" ++ key ++ str "=" ++ v |}.

(** A card of the listing with a sale price of 4,99 $ and a regular price
    of 6,99 $. *)
Definition coffee_card : Card.t :=
  {| Card.name := Some (str "Cafe moulu");
     Card.brand := None;
     Card.sku := Some (str "12345");
     Card.priceSaleText := Some (str "4,99 $");
     Card.priceRegularText := Some (str "6,99 $");
     Card.priceCandidates := [];
     Card.unitLabel := None;
     Card.link := Some (str "https://mayrand.ca/fr/nos-produits/cafe-12345");
     Card.image := None;
     Card.category := None |}.

(** Its product page, which shows the current price of 4,99 $ and no
    struck-out price. *)
Definition coffee_details : Details.t :=
  {| Details.productName := None;
     Details.productBrand := None;
     Details.productSku := None;
     Details.offerPrices := [];
     Details.h1Text := None;
     Details.ogTitle := None;
     Details.breadcrumb := None;
     Details.priceSaleText := Some (str "4,99 $");
     Details.priceRegularText := None;
     Details.priceCandidates := [];
     Details.unitLabel := None;
     Details.unitPriceText := None |}.

(** The query of the examples, and the address of its listing. *)
Definition onsale_query : jstring := str "onsale".
Definition onsale_base : jstring := @listing_base_url example_builtins onsale_query.

(** The record that [scrapeListing] builds from the card. *)
Definition coffee_item : item :=
  @card_to_item example_builtins onsale_query onsale_base None (str "2024-01-01")
    coffee_card.

(** A listing site for examples: what every page shows, and whether a click
    on a pagination button changes the active page. *)
Record site : Type := {
  site_buttons : list Z;
  site_next : Z -> Extracted.next_page;
  site_click_moves : bool;
  site_pager_text : jstring;
  site_cards : Z -> list Card.t;
  site_details : jstring -> option Details.t
}.

(** The state of the simulated browser: the active page and the address,
    and a log of what the script did: the active page and the address at
    every call of [scrapePage], and the page numbers of the buttons that
    were clicked. *)
Record browser : Type := {
  active : Z;
  address : jstring;
  scraped : list (Z * jstring);
  clicked : list Z
}.

Definition next_link : jstring := str "https://mayrand.ca/fr/page-recherche?next".

(** Loading the address of the next link shows the page after the active
    one; loading any other address shows the first page. *)
Definition simulated_goto (u : jstring) (w : browser) : outcome unit * browser :=
  (Ok tt, {| active := if includes u (str "?next") then (active w + 1)%Z else 1%Z;
             address := u;
             scraped := scraped w;
             clicked := clicked w |}).

Definition simulated_extracted (cfg : site) (w : browser) : Extracted.t :=
  {| Extracted.results := site_cards cfg (active w);
     Extracted.paginationLinks := [];
     Extracted.paginationButtons := site_buttons cfg;
     Extracted.nextPage := site_next cfg (active w);
     Extracted.breadcrumb := None;
     Extracted.emptyStateText := None;
     Extracted.resultsCountText := None;
     Extracted.containerSelector := None;
     Extracted.visibleCardCount := length (site_cards cfg (active w)) |}.

Definition simulated (cfg : site) : Surface browser :=
  {| ensureDirs := ret tt;
     launch_browser := ret tt;
     browser_close := ret tt;
     page_goto := simulated_goto;
     page_url := address;
     page_waitForTimeout := ret tt;
     page_waitForSelector := ret tt;
     page_waitForLoadState := ret tt;
     acceptCookies := ret tt;
     getResultsDomState := fun w =>
       (Ok {| cardsCount := length (site_cards cfg (active w));
              loaderVisible := false;
              dom_resultsCountText := None;
              dom_emptyStateText := None |}, w);
     scrollForLazyLoad := ret tt;
     scrapePage := fun w =>
       (Ok (simulated_extracted cfg w),
        {| active := active w; address := address w;
           scraped := scraped w ++ [(active w, address w)];
           clicked := clicked w |});
     countCards := fun w => (Ok (length (site_cards cfg (active w))), w);
     killOverlays := ret tt;
     getActivePage := fun w => (Ok (Some (active w)), w);
     getCardsSignature := ret [];
     getPagerText := ret (site_pager_text cfg);
     button_count := fun k =>
       ret (if bool_decide (k ∈ site_buttons cfg) then 1%nat else 0%nat);
     button_getAttribute := fun _ _ => ret None;
     button_scrollIntoViewIfNeeded := fun _ => ret tt;
     button_click := fun k _ w =>
       (Ok tt, {| active := if site_click_moves cfg then k else active w;
                  address := address w;
                  scraped := scraped w;
                  clicked := clicked w ++ [k] |});
     debug_dump := ret tt;
     sleep := fun w => w;
     date_now := fun w => (str "2024-01-01", w);
     context_newPage := ret tt;
     scrapeProductPage := fun u w =>
       match site_details cfg u with
       | Some details => (Ok details, w)
       | None => (Throw (SurfaceError (str "Timeout")), w)
       end;
     detail_page_close := ret tt |}.

Definition one_card (k : Z) : list Card.t :=
  [ {| Card.name := Some (str "Produit " ++ decimal k);
       Card.brand := None;
       Card.sku := Some (str "100" ++ decimal k);
       Card.priceSaleText := Some (str "4,99 $");
       Card.priceRegularText := Some (str "6,99 $");
       Card.priceCandidates := [];
       Card.unitLabel := None;
       Card.link := None;
       Card.image := None;
       Card.category := None |} ].

(** A card without any text. *)
Definition bare_card : Card.t :=
  {| Card.name := None;
     Card.brand := None;
     Card.sku := None;
     Card.priceSaleText := None;
     Card.priceRegularText := None;
     Card.priceCandidates := [];
     Card.unitLabel := None;
     Card.link := None;
     Card.image := None;
     Card.category := None |}.

(** A site without an end: every page has a card and a next link, and no
    page numbers. *)
Definition endless_site : site :=
  {| site_buttons := [];
     site_next := fun _ =>
       {| Extracted.href := Some next_link; Extracted.pageNumber := None;
          Extracted.label := Some (str "Suivant"); Extracted.disabled := Some false |};
     site_click_moves := false;
     site_pager_text := [];
     site_cards := fun _ => [bare_card];
     site_details := fun _ => None |}.

(** A site of three pages whose pagination buttons change the page without
    changing the address. *)
Definition spa_site : site :=
  {| site_buttons := [1; 2; 3]%Z;
     site_next := fun k =>
       {| Extracted.href := None; Extracted.pageNumber := Some (k + 1)%Z;
          Extracted.label := Some (str "Suivant"); Extracted.disabled := Some false |};
     site_click_moves := true;
     site_pager_text := str "1 2 3";
     site_cards := one_card;
     site_details := fun _ => None |}.

(** A site of three pages whose next control is disabled and whose
    pagination buttons do nothing; the pager has no text. *)
Definition stuck_site : site :=
  {| site_buttons := [1; 2; 3]%Z;
     site_next := fun _ =>
       {| Extracted.href := None; Extracted.pageNumber := None;
          Extracted.label := Some (str "Suivant"); Extracted.disabled := Some true |};
     site_click_moves := false;
     site_pager_text := [];
     site_cards := one_card;
     site_details := fun _ => None |}.

(** A site of three pages whose next control names the next page and whose
    pagination buttons do nothing; the pager shows the page numbers. *)
Definition frozen_site : site :=
  {| site_buttons := [1; 2; 3]%Z;
     site_next := fun k =>
       {| Extracted.href := None; Extracted.pageNumber := Some (k + 1)%Z;
          Extracted.label := Some (str "Suivant"); Extracted.disabled := Some false |};
     site_click_moves := false;
     site_pager_text := str "1 2 3";
     site_cards := one_card;
     site_details := fun _ => None |}.

Definition start : browser :=
  {| active := 0; address := []; scraped := []; clicked := [] |}.

(** A site that shows no card and no pagination. *)
Definition empty_site : site :=
  {| site_buttons := [];
     site_next := fun _ =>
       {| Extracted.href := None; Extracted.pageNumber := None;
          Extracted.label := None; Extracted.disabled := None |};
     site_click_moves := false;
     site_pager_text := [];
     site_cards := fun _ => [];
     site_details := fun _ => None |}.

(** An output directory whose metadata counts 120 records. *)
Definition published_120 : store :=
  {[ metadata_path := JsonText (JObj [(str "totalItems", JNum (of_Z 120))]) ]}.

(** A site of one page that shows the coffee card, and its product page. *)
Definition coffee_site : site :=
  {| site_buttons := [1%Z];
     site_next := fun _ =>
       {| Extracted.href := None; Extracted.pageNumber := None;
          Extracted.label := None; Extracted.disabled := None |};
     site_click_moves := false;
     site_pager_text := str "1";
     site_cards := fun _ => [coffee_card];
     site_details := fun _ => Some coffee_details |}.

(** The first part of [main] on the site without cards. *)
Definition empty_collect : outcome (option (list item * nat)) * browser :=
  @collect example_builtins browser (simulated empty_site) start.

(** A site of two pages that both show the coffee card; its pagination
    buttons change the page. *)
Definition repeating_site : site :=
  {| site_buttons := [1; 2]%Z;
     site_next := fun k =>
       {| Extracted.href := None; Extracted.pageNumber := Some (k + 1)%Z;
          Extracted.label := Some (str "Suivant"); Extracted.disabled := Some false |};
     site_click_moves := true;
     site_pager_text := str "1 2";
     site_cards := fun _ => [coffee_card];
     site_details := fun _ => None |}.

(** The simulated browser of a site, with a network that is down: loading
    an address throws. *)
Definition offline (cfg : site) : Surface browser :=
  let s := simulated cfg in
  {| ensureDirs := @ensureDirs _ s;
     launch_browser := @launch_browser _ s;
     browser_close := @browser_close _ s;
     page_goto := fun _ => throw (SurfaceError (str "net::ERR_INTERNET_DISCONNECTED"));
     page_url := @page_url _ s;
     page_waitForTimeout := @page_waitForTimeout _ s;
     page_waitForSelector := @page_waitForSelector _ s;
     page_waitForLoadState := @page_waitForLoadState _ s;
     acceptCookies := @acceptCookies _ s;
     getResultsDomState := @getResultsDomState _ s;
     scrollForLazyLoad := @scrollForLazyLoad _ s;
     scrapePage := @scrapePage _ s;
     countCards := @countCards _ s;
     killOverlays := @killOverlays _ s;
     getActivePage := @getActivePage _ s;
     getCardsSignature := @getCardsSignature _ s;
     getPagerText := @getPagerText _ s;
     button_count := @button_count _ s;
     button_getAttribute := @button_getAttribute _ s;
     button_scrollIntoViewIfNeeded := @button_scrollIntoViewIfNeeded _ s;
     button_click := @button_click _ s;
     debug_dump := @debug_dump _ s;
     sleep := @sleep _ s;
     date_now := @date_now _ s;
     context_newPage := @context_newPage _ s;
     scrapeProductPage := @scrapeProductPage _ s;
     detail_page_close := @detail_page_close _ s |}.

(** A site whose pages show no card and a next link. *)
Definition blank_site : site :=
  {| site_buttons := [];
     site_next := fun _ =>
       {| Extracted.href := Some next_link; Extracted.pageNumber := None;
          Extracted.label := Some (str "Suivant"); Extracted.disabled := Some false |};
     site_click_moves := false;
     site_pager_text := [];
     site_cards := fun _ => [];
     site_details := fun _ => None |}.

(** The simulated browser of a site whose load state is never reached:
    waiting for it throws after its timeout. *)
Definition impatient (cfg : site) : Surface browser :=
  let s := simulated cfg in
  {| ensureDirs := @ensureDirs _ s;
     launch_browser := @launch_browser _ s;
     browser_close := @browser_close _ s;
     page_goto := @page_goto _ s;
     page_url := @page_url _ s;
     page_waitForTimeout := @page_waitForTimeout _ s;
     page_waitForSelector := @page_waitForSelector _ s;
     page_waitForLoadState := throw (SurfaceError (str "Timeout 15000ms exceeded"));
     acceptCookies := @acceptCookies _ s;
     getResultsDomState := @getResultsDomState _ s;
     scrollForLazyLoad := @scrollForLazyLoad _ s;
     scrapePage := @scrapePage _ s;
     countCards := @countCards _ s;
     killOverlays := @killOverlays _ s;
     getActivePage := @getActivePage _ s;
     getCardsSignature := @getCardsSignature _ s;
     getPagerText := @getPagerText _ s;
     button_count := @button_count _ s;
     button_getAttribute := @button_getAttribute _ s;
     button_scrollIntoViewIfNeeded := @button_scrollIntoViewIfNeeded _ s;
     button_click := @button_click _ s;
     debug_dump := @debug_dump _ s;
     sleep := @sleep _ s;
     date_now := @date_now _ s;
     context_newPage := @context_newPage _ s;
     scrapeProductPage := @scrapeProductPage _ s;
     detail_page_close := @detail_page_close _ s |}.

(* ===================================================================== *)
(** * Properties of numbers *)
(* ===================================================================== *)

Section NumberFacts.

Local Open Scope Z_scope.

Lemma round_half_even_nonneg n d : 0 <= n -> 0 < d -> 0 <= round_half_even n d.
Proof.
  intros Hn Hd. unfold round_half_even.
  assert (0 <= n / d) by (apply Z.div_pos; lia).
  destruct (2 * (n mod d) ?= d); [destruct (Z.even (n / d))|..]; lia.
Qed.

Lemma round_half_even_pos n d : 0 < d -> d <= n -> 0 < round_half_even n d.
Proof.
  intros Hd Hn. unfold round_half_even.
  assert (1 <= n / d) by (apply Z.div_le_lower_bound; lia).
  destruct (2 * (n mod d) ?= d); [destruct (Z.even (n / d))|..]; lia.
Qed.

Lemma scale_pos p q e :
  0 <= p -> 0 < q -> 0 <= fst (scale p q e) /\ 0 < snd (scale p q e).
Proof.
  intros Hp Hq. unfold scale. simpl.
  assert (0 < 2 ^ Z.max 0 (- e)) by (apply Z.pow_pos_nonneg; lia).
  assert (0 < 2 ^ Z.max 0 e) by (apply Z.pow_pos_nonneg; lia).
  split; nia.
Qed.

(** A rounded value is an infinity of the sign asked for, or a finite value
    of that sign whose mantissa is not negative. *)
Lemma round_shape neg p q :
  0 <= p -> 0 < q ->
  round neg p q = Infinity neg \/
  exists m e, round neg p q = Fin neg m e /\ 0 <= m.
Proof.
  intros Hp Hq. unfold round.
  destruct (p =? 0) eqn:Hz.
  { right. exists 0, 0. split; [done|lia]. }
  set (e := Z.max emin (ilog2 p q - 52)).
  destruct (scale p q e) as [n d] eqn:Hs.
  pose proof (scale_pos p q e Hp Hq) as [Hn Hd]. rewrite Hs in Hn, Hd. simpl in Hn, Hd.
  pose proof (round_half_even_nonneg n d Hn Hd) as Hm.
  destruct (round_half_even n d =? 2 ^ 53).
  - destruct (emax <? e + 1); [by left|]. right. exists (2 ^ 52), (e + 1).
    split; [done|lia].
  - destruct (emax <? e); [by left|]. right. by exists (round_half_even n d), e.
Qed.

Lemma below_ilog2 p q : 0 < p -> 0 < q -> below p q (ilog2 p q).
Proof.
  intros Hp Hq. unfold ilog2.
  set (l := Z.log2 p - Z.log2 q).
  destruct (scale p q l) as [n d] eqn:Hs.
  destruct (d <=? n) eqn:Hle.
  { unfold below. rewrite Hs. simpl. lia. }
  unfold below, scale. simpl.
  pose proof (Z.log2_spec p Hp) as [Hp1 Hp2].
  pose proof (Z.log2_spec q Hq) as [Hq1 Hq2].
  pose proof (Z.log2_nonneg p) as Hlp. pose proof (Z.log2_nonneg q) as Hlq.
  destruct (Z.le_gt_cases 0 (l - 1)) as [Hl|Hl].
  - rewrite (Z.max_r 0 (l - 1)) by lia. rewrite (Z.max_l 0 (- (l - 1))) by lia.
    rewrite Z.pow_0_r, Z.mul_1_r.
    assert (Hpow : 2 ^ Z.succ (Z.log2 q) * 2 ^ (l - 1) = 2 ^ Z.log2 p).
    { rewrite <- Z.pow_add_r by lia. f_equal. unfold l. lia. }
    assert (0 < 2 ^ (l - 1)) by (apply Z.pow_pos_nonneg; lia).
    nia.
  - rewrite (Z.max_l 0 (l - 1)) by lia. rewrite (Z.max_r 0 (- (l - 1))) by lia.
    rewrite Z.pow_0_r, Z.mul_1_r.
    assert (Hpow : 2 ^ Z.log2 p * 2 ^ (- (l - 1)) = 2 ^ Z.succ (Z.log2 q)).
    { rewrite <- Z.pow_add_r by lia. f_equal. unfold l. lia. }
    assert (0 < 2 ^ (- (l - 1))) by (apply Z.pow_pos_nonneg; lia).
    nia.
Qed.

Lemma below_antitone p q e e' :
  0 < p -> 0 < q -> e' <= e -> below p q e -> below p q e'.
Proof.
  unfold below, scale. simpl. intros Hp Hq He H.
  assert (Hpow : forall a b, 0 <= a -> a <= b -> 2 ^ a <= 2 ^ b).
  { intros a b Ha Hab. apply Z.pow_le_mono_r; lia. }
  assert (Hone : forall a, 0 <= a -> 1 <= 2 ^ a).
  { intros a Ha. pose proof (Hpow 0 a). rewrite Z.pow_0_r in *. lia. }
  pose proof (Hpow (Z.max 0 e') (Z.max 0 e)) as H1.
  pose proof (Hpow (Z.max 0 (- e)) (Z.max 0 (- e'))) as H2.
  pose proof (Hone (Z.max 0 e')). pose proof (Hone (Z.max 0 (- e))).
  assert (2 ^ Z.max 0 e' <= 2 ^ Z.max 0 e) by (apply H1; lia).
  assert (2 ^ Z.max 0 (- e) <= 2 ^ Z.max 0 (- e')) by (apply H2; lia).
  nia.
Qed.

(** A value of at least [2^-1074] does not round to zero. *)
Lemma round_positive neg p q :
  0 < p -> 0 < q -> below p q emin ->
  round neg p q = Infinity neg \/
  exists m e, round neg p q = Fin neg m e /\ 0 < m /\ emin <= e.
Proof.
  intros Hp Hq Hmin. unfold round.
  destruct (p =? 0) eqn:Hz; [apply Z.eqb_eq in Hz; lia|].
  set (e := Z.max emin (ilog2 p q - 52)).
  assert (He : below p q e).
  { unfold e. destruct (Z.max_spec emin (ilog2 p q - 52)) as [[_ ->]|[_ ->]]; [|done].
    apply (below_antitone p q (ilog2 p q)); [done|done|lia|by apply below_ilog2]. }
  unfold below in He.
  destruct (scale p q e) as [n d] eqn:Hs. simpl in He.
  pose proof (scale_pos p q e ltac:(lia) Hq) as [Hn Hd]. rewrite Hs in Hn, Hd. simpl in Hn, Hd.
  pose proof (round_half_even_pos n d Hd He) as Hm.
  destruct (round_half_even n d =? 2 ^ 53).
  - destruct (emax <? e + 1); [by left|]. right. exists (2 ^ 52), (e + 1).
    split; [done|]. split; [lia|unfold e; lia].
  - destruct (emax <? e); [by left|]. right. exists (round_half_even n d), e.
    split; [done|]. split; [done|unfold e; lia].
Qed.

(** The sign of a difference of finite numbers is the order of their
    values: this is what makes [(a, b) => a - b] a consistent comparison. *)
Lemma sub_negative s m e t m' e' :
  Number.lt (sub (Fin s m e) (Fin t m' e')) zero = (ulps s m e <? ulps t m' e').
Proof.
  unfold sub. set (d := ulps s m e - ulps t m' e').
  destruct (d =? 0) eqn:Hd.
  { apply Z.eqb_eq in Hd. simpl. unfold ulps at 1 2. simpl.
    symmetry. rewrite Z.mul_0_r. destruct (s && negb t); apply Z.ltb_ge; lia. }
  apply Z.eqb_neq in Hd.
  assert (Hq : 0 < 2 ^ (- emin)) by (apply Z.pow_pos_nonneg; unfold emin; lia).
  assert (Hb : below (Z.abs d) (2 ^ (- emin)) emin).
  { unfold below, scale. cbn [fst snd].
    replace (Z.max 0 emin) with 0 by (unfold emin; lia).
    replace (Z.max 0 (- emin)) with (- emin) by (unfold emin; lia).
    rewrite Z.pow_0_r. nia. }
  destruct (round_positive (d <? 0) (Z.abs d) (2 ^ (- emin))) as [->|(m1 & e1 & -> & Hm1 & He1)];
    [lia|done|done|..].
  - simpl. destruct (d <? 0) eqn:Hs; symmetry; [apply Z.ltb_lt|apply Z.ltb_ge]; lia.
  - simpl. unfold ulps at 1 2.
    assert (0 < 2 ^ (e1 - emin)) by (apply Z.pow_pos_nonneg; lia).
    destruct (d <? 0) eqn:Hs.
    + apply Z.ltb_lt in Hs. transitivity true; [apply Z.ltb_lt; nia|symmetry; apply Z.ltb_lt; lia].
    + apply Z.ltb_ge in Hs. transitivity false; [apply Z.ltb_ge; nia|symmetry; apply Z.ltb_ge; lia].
Qed.

End NumberFacts.

(* ===================================================================== *)
(** * Properties of the normalizer *)
(* ===================================================================== *)

Section NormalizerFacts.

Local Open Scope Z_scope.

Lemma Forall_replace_each (P : N -> Prop) p by_ s :
  Forall P by_ -> (forall c, c ∈ s -> p c = false -> P c) ->
  Forall P (replace_each p by_ s).
Proof.
  intros Hby Hs. unfold replace_each. apply Forall_forall. intros x Hx.
  apply list_elem_of_In, in_flat_map in Hx as (c & Hc & Hx).
  apply list_elem_of_In in Hc.
  destruct (p c) eqn:Hp.
  - rewrite Forall_forall in Hby. apply Hby. by apply list_elem_of_In.
  - apply list_elem_of_In, list_elem_of_singleton in Hx as ->. by apply Hs.
Qed.

(** After the cleaning chain only digits and dots are left: no minus sign,
    no white space, no currency symbol. *)
Lemma clean_number_text_chars value :
  Forall (fun c => is_digit c || is_dot c = true) (clean_number_text value).
Proof.
  unfold clean_number_text. apply Forall_replace_each; [constructor|].
  intros c _ Hc. unfold not_digit_or_dot in Hc. by apply negb_false_iff in Hc.
Qed.

Lemma trimStart_suffix s : trimStart s `suffix_of` s.
Proof.
  induction s as [|c s IH]; simpl; [done|].
  destruct (is_space c); [by apply suffix_cons_r|done].
Qed.

Lemma span_app p s : fst (span p s) ++ snd (span p s) = s.
Proof.
  induction s as [|c s IH]; simpl; [done|].
  destruct (p c); [|done]. destruct (span p s) as [a b]. simpl in *. by rewrite IH.
Qed.

Lemma span_Forall p s : Forall (fun c => p c = true) (fst (span p s)).
Proof.
  induction s as [|c s IH]; simpl; [constructor|].
  destruct (p c) eqn:Hp; [|constructor].
  destruct (span p s) as [a b]. simpl in *. by constructor.
Qed.

Lemma digits_value_nonneg ds :
  Forall (fun c => is_digit c = true) ds -> 0 <= digits_value ds.
Proof.
  unfold digits_value.
  assert (H : forall acc, 0 <= acc -> Forall (fun c => is_digit c = true) ds ->
                          0 <= fold_left (fun acc c => 10 * acc + (Z.of_N c - 48)) ds acc).
  { induction ds as [|c ds IH]; intros acc Hacc Hds; simpl; [done|].
    inversion Hds as [|? ? Hc Hds']; subst. apply IH; [|done].
    unfold is_digit in Hc. apply andb_true_iff in Hc as [Hc _].
    apply N.leb_le in Hc. lia. }
  intros Hds. by apply H.
Qed.

(** The sign of what [parseFloat] returns is the minus sign in front of the
    text, and the mantissa is never negative. *)
Lemma parseFloat_shape s :
  let neg := bool_decide (head (trimStart s) = Some 45%N) in
  parseFloat s = NaN \/ parseFloat s = Infinity neg \/
  exists m e, parseFloat s = Fin neg m e /\ 0 <= m.
Proof.
  intros neg. unfold parseFloat.
  set (s0 := trimStart s) in *.
  set (signed := match s0 with
                 | c :: s1 => if (c =? 45)%N then (true, s1)
                              else if (c =? 43)%N then (false, s1) else (false, s0)
                 | [] => (false, s0)
                 end).
  assert (Hneg : fst signed = neg).
  { unfold signed, neg. destruct s0 as [|c s1]; simpl; [done|].
    destruct (c =? 45)%N eqn:Hc.
    - apply N.eqb_eq in Hc as ->. by rewrite bool_decide_eq_true_2.
    - apply N.eqb_neq in Hc. rewrite bool_decide_eq_false_2 by congruence.
      by destruct (c =? 43)%N. }
  destruct signed as [neg' s1]. simpl in Hneg. subst neg'.
  destruct (startsWith s1 infinity_word); [by right; left|].
  pose proof (span_Forall is_digit s1) as Hint.
  destruct (span is_digit s1) as [int_ds s2]. simpl in Hint.
  set (frac := match s2 with
               | c :: s2' => if (c =? 46)%N then span is_digit s2' else ([], s2)
               | [] => ([], s2)
               end).
  assert (Hfrac : Forall (fun c => is_digit c = true) (fst frac)).
  { unfold frac. destruct s2 as [|c s2']; [constructor|].
    destruct (c =? 46)%N; [apply span_Forall|constructor]. }
  destruct frac as [frac_ds s3]. simpl in Hfrac.
  destruct (int_ds ++ frac_ds) as [|d ds] eqn:Hds; [by left|].
  right. rewrite <- Hds.
  assert (Hv : 0 <= digits_value (int_ds ++ frac_ds)).
  { apply digits_value_nonneg, Forall_app. by split. }
  set (ex := exponent_part s3 - Z.of_nat (length frac_ds)).
  destruct (round_shape neg (digits_value (int_ds ++ frac_ds) * 10 ^ Z.max 0 ex)
              (10 ^ Z.max 0 (- ex))) as [H|H].
  - assert (0 <= 10 ^ Z.max 0 ex) by (apply Z.pow_nonneg; lia). nia.
  - apply Z.pow_pos_nonneg; lia.
  - by left.
  - by right.
Qed.

(** [parseNumber] never returns a negative number, an infinity or [NaN]. *)
Lemma parseNumber_shape value x :
  parseNumber value = Some x -> exists m e, x = Fin false m e /\ 0 <= m.
Proof.
  unfold parseNumber. destruct value as [v|]; [|done].
  destruct (negb (JsString.truthy v)); [done|].
  set (cleaned := clean_number_text v).
  destruct (negb (JsString.truthy cleaned)); [done|].
  pose proof (clean_number_text_chars v) as Hchars. fold cleaned in Hchars.
  pose proof (parseFloat_shape cleaned) as Hshape. simpl in Hshape.
  assert (Hsign : bool_decide (head (trimStart cleaned) = Some 45%N) = false).
  { apply bool_decide_eq_false_2. intros Hhead.
    pose proof (trimStart_suffix cleaned) as [pre Hpre].
    destruct (trimStart cleaned) as [|c rest]; [done|]. simpl in Hhead.
    injection Hhead as ->.
    rewrite Hpre in Hchars. apply Forall_app in Hchars as [_ Hchars].
    by inversion Hchars. }
  rewrite Hsign in Hshape.
  destruct Hshape as [->|[->|(m & e & -> & Hm)]]; [done|done|].
  simpl. intros [= <-]. by exists m, e.
Qed.

End NormalizerFacts.

(* ===================================================================== *)
(** * Runs of a class at the start of a text *)
(* ===================================================================== *)

Section SpanFacts.

Lemma span_head p s c : head (snd (span p s)) = Some c -> p c = false.
Proof.
  induction s as [|x s IH]; simpl; [done|].
  destruct (p x) eqn:Hx.
  - destruct (span p s) as [u v]. exact IH.
  - simpl. by intros [= <-].
Qed.

Lemma span_suffix p s : snd (span p s) `suffix_of` s.
Proof. exists (fst (span p s)). symmetry. apply span_app. Qed.

Lemma span_run (p : N -> bool) run rest :
  Forall (fun c => p c = true) run ->
  (forall c, head rest = Some c -> p c = false) ->
  span p (run ++ rest) = (run, rest).
Proof.
  intros Hrun Hrest. induction Hrun as [|c run Hc _ IH]; simpl.
  - destruct rest as [|c rest]; [done|]. simpl. by rewrite (Hrest c).
  - by rewrite Hc, IH.
Qed.

End SpanFacts.

(* ===================================================================== *)
(** * White space *)
(* ===================================================================== *)

Section WhitespaceFacts.

Local Open Scope N_scope.

Implicit Types (s t : jstring) (c : N).

Lemma startsWith_prefix s t : startsWith s t = true <-> t `prefix_of` s.
Proof.
  revert s. induction t as [|x t IH]; intros s.
  { destruct s; simpl; (split; [intros _; apply prefix_nil|done]). }
  destruct s as [|y s]; simpl.
  { split; [done|]. intros [k Hk]. done. }
  rewrite andb_true_iff, N.eqb_eq, IH. split.
  - intros [-> Hp]. by apply prefix_cons.
  - intros [k Hk]. injection Hk as -> ->. split; [done|]. by exists k.
Qed.

Lemma includes_infix s t : includes s t = true <-> exists a b, s = a ++ t ++ b.
Proof.
  induction s as [|c s IH]; cbn [includes].
  - rewrite orb_false_r, startsWith_prefix. split.
    + intros [k ->]. by exists [], k.
    + intros (a & b & H). symmetry in H. apply app_eq_nil in H as [-> H].
      apply app_eq_nil in H as [-> ->]. done.
  - rewrite orb_true_iff, startsWith_prefix, IH. split.
    + intros [[k ->]|(a & b & ->)]; [by exists [], k|by exists (c :: a), b].
    + intros (a & b & H). destruct a as [|c' a]; simpl in H.
      * left. by exists b.
      * injection H as <- ->. right. by exists a, b.
Qed.

Lemma no_pair_infix x s :
  no_pair x s <-> ~ exists a b, s = a ++ [x; x] ++ b.
Proof.
  induction s as [|c1 s IH]; simpl.
  { split; [|done]. intros _ (a & b & H). by destruct a. }
  destruct s as [|c2 s].
  { split; [|done]. intros _ (a & b & H).
    destruct a as [|? a]; [done|]. injection H as _ H. by destruct a. }
  rewrite IH. split.
  - intros [Hne Hs] (a & b & H). destruct a as [|c a]; simpl in H.
    + injection H as -> -> _. by apply Hne.
    + injection H as _ H. apply Hs. by exists a, b.
  - intros Hs. split.
    + intros [-> ->]. apply Hs. by exists [], s.
    + intros (a & b & H). apply Hs. exists (c1 :: a), b. simpl. by rewrite H.
Qed.

Lemma replace_runs_only p x in_run s :
  only_of p x (replace_runs_from p [x] in_run s).
Proof.
  revert in_run. induction s as [|c s IH]; intros in_run; simpl; [constructor|].
  destruct (p c) eqn:Hc.
  - apply Forall_app. split; [|apply IH].
    destruct in_run; [constructor|]. by repeat constructor.
  - constructor; [|apply IH]. congruence.
Qed.

Lemma replace_runs_no_pair p x in_run s :
  p x = true ->
  no_pair x (replace_runs_from p [x] in_run s) /\
  (in_run = true -> head (replace_runs_from p [x] in_run s) <> Some x).
Proof.
  intros Hx. revert in_run. induction s as [|c s IH]; intros in_run; simpl; [done|].
  destruct (p c) eqn:Hc.
  - destruct (IH true) as [Hs Hh]. specialize (Hh eq_refl).
    destruct in_run; simpl; [done|]. split; [|done].
    destruct (replace_runs_from p [x] true s) as [|c2 r]; [done|].
    split; [|done]. intros [_ ->]. by apply Hh.
  - destruct (IH false) as [Hs _].
    assert (Hne : c <> x) by (intros ->; congruence).
    split; [|by intros _ [= ->]].
    destruct (replace_runs_from p [x] false s) as [|c2 r]; [done|].
    split; [|done]. by intros [-> _].
Qed.

Lemma replace_each_id p by_ s :
  Forall (fun c => p c = false) s -> replace_each p by_ s = s.
Proof.
  unfold replace_each. induction 1 as [|c s Hc _ IH]; simpl; [done|].
  by rewrite Hc, IH.
Qed.

Lemma only_space_no_nbsp s : only_of is_space 32 s -> Forall (fun c => (160 =? c) = false) s.
Proof.
  intros Hp. eapply Forall_impl; [exact Hp|]. intros c Hc. apply N.eqb_neq. intros <-.
  by specialize (Hc eq_refl).
Qed.

Lemma trimStart_head s c : head (trimStart s) = Some c -> is_space c = false.
Proof.
  induction s as [|x s IH]; simpl; [done|].
  destruct (is_space x) eqn:Hx; [done|]. by intros [= <-].
Qed.

Lemma trimStart_id s :
  (forall c, head s = Some c -> is_space c = false) -> trimStart s = s.
Proof. destruct s as [|c s]; simpl; [done|]. intros H. by rewrite (H c). Qed.

Lemma trimEnd_prefix s : trimEnd s `prefix_of` s.
Proof.
  unfold trimEnd. destruct (trimStart_suffix (rev s)) as [k Hk].
  exists (rev k). apply (f_equal (@rev N)) in Hk.
  by rewrite rev_involutive, rev_app_distr in Hk.
Qed.

Lemma last_rev_head {A} (l : list A) : last l = head (rev l).
Proof.
  induction l as [|x l IH] using rev_ind; [done|].
  by rewrite last_snoc, rev_app_distr.
Qed.

Lemma trimEnd_last s c : last (trimEnd s) = Some c -> is_space c = false.
Proof.
  unfold trimEnd. rewrite last_rev_head, rev_involutive. apply trimStart_head.
Qed.

Lemma trimEnd_id s :
  (forall c, last s = Some c -> is_space c = false) -> trimEnd s = s.
Proof.
  intros H. unfold trimEnd. rewrite trimStart_id; [apply rev_involutive|].
  intros c Hc. apply H. by rewrite last_rev_head.
Qed.

Lemma trim_infix s : exists a b, s = a ++ trim s ++ b.
Proof.
  unfold trim. destruct (trimStart_suffix s) as [a Ha].
  destruct (trimEnd_prefix (trimStart s)) as [b Hb].
  exists a, b. by rewrite <- Hb.
Qed.

Lemma trim_head s c : head (trim s) = Some c -> is_space c = false.
Proof.
  unfold trim. intros H. destruct (trimEnd_prefix (trimStart s)) as [b Hb].
  apply (trimStart_head s). rewrite Hb.
  destruct (trimEnd (trimStart s)); [done|]. done.
Qed.

Lemma filter_trimStart s :
  filter (fun c => is_space c = false) (trimStart s) = filter (fun c => is_space c = false) s.
Proof.
  induction s as [|c s IH]; simpl; [done|].
  destruct (is_space c) eqn:Hc; [|done].
  rewrite filter_cons_False by (rewrite Hc; done). done.
Qed.

Lemma filter_trimEnd s :
  filter (fun c => is_space c = false) (trimEnd s) = filter (fun c => is_space c = false) s.
Proof.
  unfold trimEnd.
  assert (H : forall l : jstring, filter (fun c => is_space c = false) (rev l)
                        = rev (filter (fun c => is_space c = false) l)).
  { induction l as [|x l IH]; simpl; [done|]. rewrite filter_app, IH.
    destruct (is_space x) eqn:Hx.
    - rewrite !(filter_cons_False _ x) by (rewrite Hx; done). by rewrite app_nil_r.
    - by rewrite !(filter_cons_True _ x) by done. }
  rewrite H, filter_trimStart, H. by rewrite rev_involutive.
Qed.

Lemma filter_replace_runs in_run s :
  filter (fun c => is_space c = false) (replace_runs_from is_space space in_run s)
  = filter (fun c => is_space c = false) s.
Proof.
  revert in_run. induction s as [|c s IH]; intros in_run; simpl; [done|].
  destruct (is_space c) eqn:Hc.
  - rewrite filter_app, IH, (filter_cons_False _ c) by (rewrite Hc; done).
    by destruct in_run.
  - rewrite !filter_cons_True by done. by rewrite IH.
Qed.

Lemma replace_runs_id in_run s :
  only_of is_space 32 s -> no_pair 32 s -> (in_run = true -> head s <> Some 32) ->
  replace_runs_from is_space space in_run s = s.
Proof.
  revert in_run. induction s as [|c s IH]; intros in_run Hp Hs Hh; simpl; [done|].
  inversion Hp as [|? ? Hc Hp']; subst.
  assert (Hs' : no_pair 32 s) by (destruct s; [done|apply Hs]).
  destruct (is_space c) eqn:Hsp.
  - pose proof (Hc eq_refl) as Hc32. subst c.
    destruct in_run; [exfalso; by apply Hh|].
    simpl. f_equal. apply IH; try done.
    intros _ Hhead. destruct s as [|c2 s]; [done|]. injection Hhead as ->.
    destruct Hs as [Hs _]. by apply Hs.
  - f_equal. by apply IH.
Qed.

End WhitespaceFacts.

(** C10. For every input, [parseNumber] returns [null] or a finite number
    that is not negative; the text that reaches [parseFloat] holds digits
    and dots only, so that the minus signs, the white space and the currency
    symbols are gone. *)
Theorem parseNumber_finite_nonnegative (value : option jstring) :
  (parseNumber value = None \/
   exists m e, parseNumber value = Some (Fin false m e) /\ (0 <= m)%Z) /\
  (forall v : jstring,
     Forall (fun c => is_digit c || is_dot c = true) (clean_number_text v) /\
     (45%N ∉ clean_number_text v) /\ (36%N ∉ clean_number_text v) /\
     Forall (fun c => is_space c = false) (clean_number_text v)).
Proof.
  split.
  - destruct (parseNumber value) as [x|] eqn:Hx; [|by left].
    right. apply parseNumber_shape in Hx as (m & e & -> & Hm). by exists m, e.
  - intros v. pose proof (clean_number_text_chars v) as Hchars.
    split; [done|]. rewrite Forall_forall in Hchars.
    split; [|split].
    + intros Hin. by apply Hchars in Hin.
    + intros Hin. by apply Hchars in Hin.
    + apply Forall_forall. intros c Hc. apply Hchars in Hc.
      unfold is_digit, is_dot in Hc. unfold is_space.
      apply orb_true_iff in Hc as [Hc|Hc].
      * apply andb_true_iff in Hc as [H1 H2]. apply N.leb_le in H1, H2.
        repeat (apply orb_false_iff; split);
          try (apply N.eqb_neq; lia); try (apply andb_false_iff; right; apply N.leb_gt; lia);
          try (apply andb_false_iff; left; apply N.leb_gt; lia).
      * apply N.eqb_eq in Hc as ->. done.
Qed.

(** C9. [normalizePricePair] moves a lone sale price to the regular price,
    drops a sale price equal to the regular price, and returns any other
    pair unchanged; the pair it returns never has two equal prices. *)
Theorem normalizePricePair_spec (p : price_pair) :
  (forall s, sale p = Some s -> regular p = None ->
     normalizePricePair p = {| sale := None; regular := Some s |}) /\
  (forall s r, sale p = Some s -> regular p = Some r -> strict_eq s r = true ->
     normalizePricePair p = {| sale := None; regular := Some r |}) /\
  (sale p = None \/
   (exists s r, sale p = Some s /\ regular p = Some r /\ strict_eq s r = false) ->
   normalizePricePair p = p) /\
  (forall s r, sale (normalizePricePair p) = Some s ->
     regular (normalizePricePair p) = Some r -> strict_eq s r = false).
Proof.
  destruct p as [[s|] [r|]]; unfold normalizePricePair; simpl.
  - destruct (strict_eq s r) eqn:Heq; simpl.
    + repeat split; try done.
      * intros s' r' [= <-] [= <-] _. done.
      * intros [H|(s' & r' & [= <-] & [= <-] & H)]; congruence.
    + repeat split; try done.
      * intros s' r' [= <-] [= <-]. congruence.
      * intros s' r' [= <-] [= <-]. done.
  - repeat split; try done.
    + intros s' [= <-] _. done.
    + intros [H|(s' & r' & _ & H & _)]; congruence.
  - repeat split; done.
  - repeat split; done.
Qed.

(* ===================================================================== *)
(** * Properties of the sort *)
(* ===================================================================== *)

Section SortFacts.

Local Open Scope Z_scope.

Lemma lt_value a b : finite a -> finite b -> Number.lt a b = (value a <? value b).
Proof. destruct a, b; done. Qed.

Lemma sub_lt_zero a b :
  finite a -> finite b -> Number.lt (sub a b) zero = (value a <? value b).
Proof. destruct a, b; try done. intros _ _. apply sub_negative. Qed.

Lemma sort_insert_perm x l : sort_insert sub x l ≡ₚ x :: l.
Proof.
  induction l as [|y l IH]; simpl; [done|].
  destruct (Number.lt (sub x y) zero); [done|]. rewrite IH. apply Permutation_swap.
Qed.

Lemma sort_insert_sorted x l :
  finite x -> Forall finite l -> StronglySorted value_le l ->
  StronglySorted value_le (sort_insert sub x l).
Proof.
  intros Hx Hl Hs. induction Hs as [|y l Hs IH Hy]; simpl.
  { repeat constructor. }
  inversion Hl as [|? ? Hfy Hfl]; subst.
  rewrite sub_lt_zero by done.
  destruct (value x <? value y) eqn:Hxy.
  - apply Z.ltb_lt in Hxy. constructor; [by constructor|].
    constructor; [unfold value_le; lia|].
    eapply Forall_impl; [exact Hy|]. unfold value_le. simpl. intros; lia.
  - apply Z.ltb_ge in Hxy. constructor; [by apply IH|].
    rewrite sort_insert_perm. by constructor.
Qed.

Lemma array_sort_from acc l :
  Forall finite acc -> Forall finite l -> StronglySorted value_le acc ->
  let sorted := fold_left (fun acc x => sort_insert sub x acc) l acc in
  sorted ≡ₚ acc ++ l /\ StronglySorted value_le sorted.
Proof.
  revert acc. induction l as [|x l IH]; intros acc Hacc Hl Hs; simpl.
  { by rewrite app_nil_r. }
  inversion Hl as [|? ? Hx Hl']; subst.
  destruct (IH (sort_insert sub x acc)) as [Hp Hsorted].
  - rewrite sort_insert_perm. by constructor.
  - done.
  - by apply sort_insert_sorted.
  - split; [|done]. rewrite Hp, sort_insert_perm. simpl. apply Permutation_middle.
Qed.

(** Sorting finite numbers with [(a, b) => a - b] gives the same numbers in
    ascending order. *)
Lemma array_sort_spec l :
  Forall finite l ->
  array_sort sub l ≡ₚ l /\ StronglySorted value_le (array_sort sub l).
Proof.
  intros Hl. destruct (array_sort_from [] l) as [Hp Hs]; [done|done|constructor|].
  by split.
Qed.

Lemma sorted_head_least l x :
  StronglySorted value_le l -> head l = Some x -> Forall (value_le x) l.
Proof.
  intros Hs Hh. destruct Hs as [|y l Hs Hy]; [done|]. injection Hh as ->.
  constructor; [unfold value_le; lia|done].
Qed.

Lemma sorted_last_greatest l x :
  StronglySorted value_le l -> last l = Some x -> Forall (fun y => value_le y x) l.
Proof.
  intros Hs. induction Hs as [|y l Hs IH Hy]; intros Hl; [done|].
  destruct l as [|z l'].
  - injection Hl as ->. repeat constructor. unfold value_le. lia.
  - rewrite last_cons_cons in Hl. specialize (IH Hl). constructor; [|done].
    rewrite Forall_forall in Hy. apply Hy. apply list_elem_of_In.
    assert (Hin : last (z :: l') = Some x) by done.
    apply last_Some in Hin as [l'' ->]. apply in_or_app. right. by left.
Qed.

Lemma parsed_prices_finite values : Forall finite (parsed_prices values).
Proof.
  apply Forall_forall. intros x Hx. unfold parsed_prices, non_null in Hx.
  apply list_elem_of_omap in Hx as (o & Ho & Hx). simpl in Hx. subst o.
  apply list_elem_of_fmap in Ho as (entry & Hentry & _).
  symmetry in Hentry. apply parseNumber_shape in Hentry as (m & e & -> & _). done.
Qed.

End SortFacts.

(** C4, as the script has it. [parsePriceCandidates] reads every candidate
    with [parseNumber]; without a number read both prices are [null];
    otherwise the sale price is the least number read, and the regular
    price is the greatest number read when more than one candidate was read
    (equal numbers count separately) and [null] when just one was. *)
Theorem parsePriceCandidates_spec (values : list jstring) :
  let prices := parsed_prices values in
  let r := parsePriceCandidates values in
  (prices = [] -> sale r = None /\ regular r = None) /\
  (prices <> [] ->
     exists s, sale r = Some s /\ s ∈ prices /\
               forall p, p ∈ prices -> Number.lt p s = false) /\
  ((1 < length prices)%nat ->
     exists g, regular r = Some g /\ g ∈ prices /\
               forall p, p ∈ prices -> Number.lt g p = false) /\
  (length prices = 1%nat -> regular r = None).
Proof.
  intros prices r.
  pose proof (parsed_prices_finite values) as Hfin. fold prices in Hfin.
  destruct (array_sort_spec prices Hfin) as [Hperm Hsorted].
  assert (Hr : r = match prices with
                   | [] => {| sale := None; regular := None |}
                   | _ => {| sale := head (array_sort sub prices);
                             regular := if (1 <? length (array_sort sub prices))%nat
                                        then last (array_sort sub prices) else None |}
                   end) by done.
  assert (Hlen : length (array_sort sub prices) = length prices)
    by (by rewrite Hperm).
  assert (Hmem : forall x, x ∈ array_sort sub prices <-> x ∈ prices)
    by (intros x; by rewrite Hperm).
  assert (Hfin' : forall x, x ∈ prices -> finite x)
    by (by apply Forall_forall).
  split; [|split; [|split]].
  - intros Hnil. rewrite Hr, Hnil. done.
  - intros Hne. destruct prices as [|p0 prices'] eqn:Hp; [done|]. rewrite Hr.
    destruct (array_sort sub (p0 :: prices')) as [|s sorted] eqn:Hs; [done|].
    exists s. split; [done|]. split; [apply Hmem; left|].
    intros p Hin. rewrite lt_value; [|by apply Hfin'|apply Hfin', Hmem; left].
    apply Z.ltb_ge. pose proof (sorted_head_least (s :: sorted) s Hsorted eq_refl) as Hleast.
    rewrite Forall_forall in Hleast. by apply Hleast, Hmem.
  - intros Hlt. destruct prices as [|p0 prices'] eqn:Hp; [simpl in Hlt; lia|]. rewrite Hr.
    cbn [regular]. rewrite Hlen. replace (1 <? length (p0 :: prices'))%nat with true
      by (symmetry; by apply Nat.ltb_lt).
    destruct (last (array_sort sub (p0 :: prices'))) as [g|] eqn:Hg.
    + exists g. split; [done|].
      assert (Hgin : g ∈ p0 :: prices').
      { apply Hmem. apply last_Some in Hg as [l' ->].
        apply list_elem_of_In, in_or_app. right. by left. }
      split; [done|]. intros p Hin. rewrite lt_value; [|by apply Hfin'|by apply Hfin'].
      apply Z.ltb_ge. pose proof (sorted_last_greatest _ g Hsorted Hg) as Hgreatest.
      rewrite Forall_forall in Hgreatest. by apply Hgreatest, Hmem.
    + apply last_None in Hg. rewrite Hg in Hlen. done.
  - intros Hone. destruct prices as [|p0 prices'] eqn:Hp; [done|]. rewrite Hr.
    cbn [regular]. rewrite Hlen, Hone. done.
Qed.

(** C4, counterexample: two candidates with the same number. A single
    distinct value is read, and the regular price is that value, not
    [null]. *)
Lemma parsePriceCandidates_equal_candidates :
  let values := [str "5"; str "5"] in
  (forall a b, a ∈ parsed_prices values -> b ∈ parsed_prices values ->
               strict_eq a b = true) /\
  regular (parsePriceCandidates values) = Some (Fin false 5629499534213120 (-50)) /\
  regular (parsePriceCandidates values) <> None.
Proof.
  assert (Hp : parsed_prices [str "5"; str "5"]
               = [Fin false 5629499534213120 (-50); Fin false 5629499534213120 (-50)])
    by (vm_compute; reflexivity).
  cbv zeta. rewrite Hp. split; [|split].
  - assert (Hall : Forall (fun a => a = Fin false 5629499534213120 (-50))
                      [Fin false 5629499534213120 (-50); Fin false 5629499534213120 (-50)])
      by (repeat constructor).
    rewrite Forall_forall in Hall.
    intros a b Ha Hb. rewrite (Hall a Ha), (Hall b Hb). vm_compute. reflexivity.
  - vm_compute. reflexivity.
  - assert (H : regular (parsePriceCandidates [str "5"; str "5"])
               = Some (Fin false 5629499534213120 (-50))) by (vm_compute; reflexivity).
    rewrite H. done.
Qed.

(* ===================================================================== *)
(** * The matcher finds what the pattern describes *)
(* ===================================================================== *)

Section RegexFacts.

Implicit Types (r : regex) (s a b : jstring) (c cs : captures) (k : cont).

Lemma star_loop_sound r :
  sound (rmatch r) r ->
  forall n k s c res,
    star_loop (rmatch r) k n s c = Some res ->
    exists a b cs, s = a ++ b /\ matches (Star r) a b cs /\ k b (cs ++ c) = Some res.
Proof.
  intros Hr n k. induction n as [|n IH]; intros s c res; simpl.
  { intros Hk. exists [], s, []. split; [done|]. split; [constructor|done]. }
  destruct (rmatch r s c _) as [res'|] eqn:Hm.
  - intros [= ->]. apply Hr in Hm as (a1 & b1 & c1 & -> & Hm1 & Hk).
    destruct (length b1 <? length (a1 ++ b1))%nat eqn:Hlen; [|done].
    apply IH in Hk as (a2 & b & c2 & -> & Hm2 & Hk).
    exists (a1 ++ a2), b, (c2 ++ c1). split; [by rewrite app_assoc|].
    split; [|by rewrite <- app_assoc].
    constructor; [done| |done].
    intros ->. apply Nat.ltb_lt in Hlen. simpl in Hlen. lia.
  - intros Hk. exists [], s, []. split; [done|]. split; [constructor|done].
Qed.

Lemma rmatch_sound r : sound (rmatch r) r.
Proof.
  induction r as [| |p|r1 IH1 r2 IH2|r1 IH1 r2 IH2|r IH|r IH|i r IH];
    intros s c k res; simpl.
  - intros Hk. exists [], s, []. split; [done|]. split; [constructor|done].
  - destruct s; [|done]. intros Hk. exists [], [], []. split; [done|].
    split; [constructor|done].
  - destruct s as [|x s]; [done|]. destruct (p x) eqn:Hp; [|done].
    intros Hk. exists [x], s, []. split; [done|]. split; [by constructor|done].
  - intros Hm. apply IH1 in Hm as (a1 & b1 & c1 & -> & Hm1 & Hm).
    apply IH2 in Hm as (a2 & b & c2 & -> & Hm2 & Hk).
    exists (a1 ++ a2), b, (c2 ++ c1). split; [by rewrite app_assoc|].
    split; [by constructor|by rewrite <- app_assoc].
  - destruct (rmatch r1 s c k) as [res'|] eqn:Hm.
    + intros [= ->]. apply IH1 in Hm as (a & b & cs & -> & Hm & Hk).
      exists a, b, cs. split; [done|]. split; [by apply M_alt_l|done].
    + intros Hm2. apply IH2 in Hm2 as (a & b & cs & -> & Hm2 & Hk).
      exists a, b, cs. split; [done|]. split; [by apply M_alt_r|done].
  - destruct (rmatch r s c _) as [res'|] eqn:Hm.
    + intros [= ->]. apply IH in Hm as (a & b & cs & -> & Hm & Hk).
      destruct (length b <? length (a ++ b))%nat eqn:Hlen; [|done].
      exists a, b, cs. split; [done|]. split; [|done].
      apply M_opt_some; [done|]. intros ->. apply Nat.ltb_lt in Hlen. simpl in Hlen. lia.
    + intros Hk. exists [], s, []. split; [done|]. split; [constructor|done].
  - by apply star_loop_sound.
  - intros Hm. apply IH in Hm as (a & b & cs & -> & Hm & Hk).
    exists a, b, ((i, a) :: cs). split; [done|]. split; [by constructor|].
    rewrite length_app in Hk.
    replace (length a + length b - length b)%nat with (length a) in Hk by lia.
    by rewrite take_app_length in Hk.
Qed.

Lemma matches_eps_inv a b cs : matches Eps a b cs -> a = [] /\ cs = [].
Proof. by inversion 1. Qed.

Lemma matches_eos_inv a b cs : matches Eos a b cs -> a = [] /\ b = [] /\ cs = [].
Proof. by inversion 1. Qed.

Lemma matches_class_inv p a b cs :
  matches (Class p) a b cs -> exists x, a = [x] /\ p x = true /\ cs = [].
Proof. inversion 1; subst; eauto. Qed.

Lemma matches_cat_inv r1 r2 a b cs :
  matches (Cat r1 r2) a b cs ->
  exists a1 a2 c1 c2,
    a = a1 ++ a2 /\ cs = c2 ++ c1 /\ matches r1 a1 (a2 ++ b) c1 /\ matches r2 a2 b c2.
Proof. inversion 1; subst; eauto 10. Qed.

Lemma matches_alt_inv r1 r2 a b cs :
  matches (Alt r1 r2) a b cs -> matches r1 a b cs \/ matches r2 a b cs.
Proof. inversion 1; subst; eauto. Qed.

Lemma matches_opt_inv r a b cs :
  matches (Opt r) a b cs -> (a = [] /\ cs = []) \/ (matches r a b cs /\ a <> []).
Proof. inversion 1; subst; eauto. Qed.

Lemma matches_group_inv i r a b cs :
  matches (Group i r) a b cs -> exists c, cs = (i, a) :: c /\ matches r a b c.
Proof. inversion 1; subst; eauto. Qed.

Lemma star_loop_complete r :
  complete (rmatch r) r ->
  forall a b cs, matches (Star r) a b cs ->
  forall n c k, (length (a ++ b) <= n)%nat -> accepts k b ->
    is_Some (star_loop (rmatch r) k n (a ++ b) c).
Proof.
  intros Hr a b cs Hm. remember (Star r) as r0 eqn:Hr0.
  induction Hm as [| | | | | | | | |r' a1 a2 b c1 c2 Hm1 _ Hne Hm2 IH2|]; try done.
  - injection Hr0 as ->. intros n c k _ Hk. destruct n as [|n]; simpl; [apply Hk|].
    destruct (rmatch r b c _); [done|apply Hk].
  - injection Hr0 as ->. intros n c k Hn Hk.
    destruct n as [|n].
    { rewrite !length_app in Hn. destruct a1; [done|simpl in Hn; lia]. }
    simpl. rewrite <- app_assoc.
    destruct (rmatch r (a1 ++ a2 ++ b) c _) as [res|] eqn:Hres; [done|].
    exfalso. assert (Hsome : is_Some (@None captures)); [|by destruct Hsome].
    rewrite <- Hres. apply (Hr a1 (a2 ++ b) c1 Hm1). intros c'.
    replace (length (a2 ++ b) <? length (a1 ++ a2 ++ b))%nat with true.
    + apply IH2; [done| |done]. rewrite !length_app in *.
      destruct a1; [done|simpl in Hn; lia].
    + symmetry. apply Nat.ltb_lt. rewrite !length_app. destruct a1; [done|simpl; lia].
Qed.

Lemma rmatch_complete r : complete (rmatch r) r.
Proof.
  induction r as [| |p|r1 IH1 r2 IH2|r1 IH1 r2 IH2|r IH|r IH|i r IH];
    intros a b cs Hm c k Hk; simpl.
  - apply matches_eps_inv in Hm as [-> _]. apply Hk.
  - apply matches_eos_inv in Hm as (-> & -> & _). apply Hk.
  - apply matches_class_inv in Hm as (x & -> & Hp & _). simpl. rewrite Hp. apply Hk.
  - apply matches_cat_inv in Hm as (a1 & a2 & c1 & c2 & -> & _ & Hm1 & Hm2).
    rewrite <- app_assoc. apply (IH1 _ _ _ Hm1). intros c'. by apply (IH2 _ _ _ Hm2).
  - apply matches_alt_inv in Hm as [Hm1|Hm2].
    + pose proof (IH1 _ _ _ Hm1 c k Hk) as [res ->]. done.
    + destruct (rmatch r1 (a ++ b) c k); [done|]. by apply (IH2 _ _ _ Hm2).
  - apply matches_opt_inv in Hm as [[-> _]|[Hm1 Hne]].
    + simpl. destruct (rmatch r b c _); [done|apply Hk].
    + destruct (rmatch r (a ++ b) c _) as [res|] eqn:Hres; [done|].
      exfalso. assert (Hsome : is_Some (@None captures)); [|by destruct Hsome].
      rewrite <- Hres. apply (IH _ _ _ Hm1). intros c'.
      replace (length b <? length (a ++ b))%nat with true; [apply Hk|].
      symmetry. apply Nat.ltb_lt. rewrite length_app. destruct a; [done|simpl; lia].
  - by apply (star_loop_complete r IH a b cs).
  - apply matches_group_inv in Hm as (c0 & _ & Hm1).
    apply (IH _ _ _ Hm1). intros c'. apply Hk.
Qed.

(** [search] returns the captures of a match of the pattern somewhere in
    the text. *)
Lemma search_sound r s m :
  search r s = Some m ->
  exists pre a b, s = pre ++ a ++ b /\ matches r a b m.
Proof.
  induction s as [|x s IH]; simpl.
  - destruct (rmatch r [] [] _) as [res|] eqn:Hm; [|done].
    intros [= ->]. apply rmatch_sound in Hm as (a & b & cs & Hs & Hm & [= <-]).
    exists [], a, b. rewrite app_nil_r. done.
  - destruct (rmatch r (x :: s) [] _) as [res|] eqn:Hm.
    + intros [= ->]. apply rmatch_sound in Hm as (a & b & cs & Hs & Hm & [= <-]).
      exists [], a, b. rewrite app_nil_r. done.
    + intros Hs. apply IH in Hs as (pre & a & b & -> & Hm').
      by exists (x :: pre), a, b.
Qed.

(** [search] finds a match when the text has one. *)
Lemma search_complete r pre a b cs :
  matches r a b cs -> is_Some (search r (pre ++ a ++ b)).
Proof.
  intros Hm.
  assert (Hhere : forall s, s = a ++ b -> is_Some (rmatch r s [] (fun _ c => Some c))).
  { intros s ->. apply (rmatch_complete r a b cs Hm). intros c'. by eexists. }
  induction pre as [|x pre IH]; simpl.
  - destruct (a ++ b) as [|y s'] eqn:Hab; simpl.
    + destruct (Hhere [] eq_refl) as [res ->]. done.
    + destruct (Hhere (y :: s') eq_refl) as [res ->]. done.
  - destruct (rmatch r (x :: pre ++ a ++ b) [] _); [done|exact IH].
Qed.

End RegexFacts.

(* ===================================================================== *)
(** * The unit-price pattern, read as text *)
(* ===================================================================== *)

Section UnitPricePattern.

Implicit Types (s a b num lab : jstring) (cs : captures).

Lemma matches_star_class_intro p a b :
  Forall (fun c => p c = true) a -> matches (Star (Class p)) a b [].
Proof.
  induction 1 as [|x a Hx Ha IH]; [constructor|].
  apply (M_star_cons (Class p) [x] a b [] []); [by constructor|done|done].
Qed.

Lemma matches_star_class_elim p a b cs :
  matches (Star (Class p)) a b cs -> Forall (fun c => p c = true) a /\ cs = [].
Proof.
  intros Hm. remember (Star (Class p)) as r eqn:Hr.
  induction Hm as [| | | | | | | | |r' a1 a2 b c1 c2 Hm1 _ Hne Hm2 IH2|]; try done.
  injection Hr as ->. apply matches_class_inv in Hm1 as (x & -> & Hp & ->).
  destruct (IH2 eq_refl) as [Ha ->]. split; [by constructor|done].
Qed.

Lemma matches_plus_class_intro p a b :
  a <> [] -> Forall (fun c => p c = true) a -> matches (Plus (Class p)) a b [].
Proof.
  intros Hne Ha. destruct a as [|x a]; [done|]. inversion Ha; subst.
  apply (M_cat (Class p) (Star (Class p)) [x] a b [] []); [by constructor|].
  by apply matches_star_class_intro.
Qed.

Lemma matches_plus_class_elim p a b cs :
  matches (Plus (Class p)) a b cs ->
  a <> [] /\ Forall (fun c => p c = true) a /\ cs = [].
Proof.
  intros Hm. apply matches_cat_inv in Hm as (a1 & a2 & c1 & c2 & -> & -> & Hm1 & Hm2).
  apply matches_class_inv in Hm1 as (x & -> & Hp & ->).
  apply matches_star_class_elim in Hm2 as [Ha ->].
  split; [done|]. split; [by constructor|done].
Qed.

Lemma canonicalize_symbol x c :
  (c < 65 \/ 122 < c)%N -> canonicalize x = canonicalize c <-> x = c.
Proof.
  intros Hc. unfold canonicalize.
  destruct ((97 <=? x) && (x <=? 122))%N eqn:Hx;
    destruct ((97 <=? c) && (c <=? 122))%N eqn:Hc'.
  - apply andb_true_iff in Hc' as [H1 H2]. apply N.leb_le in H1, H2. lia.
  - apply andb_true_iff in Hx as [H1 H2]. apply N.leb_le in H1, H2. lia.
  - apply andb_true_iff in Hc' as [H1 H2]. apply N.leb_le in H1, H2. lia.
  - done.
Qed.

Lemma matches_chr_i_intro c x b :
  canonicalize x = canonicalize c -> matches (Chr_i c) [x] b [].
Proof. intros H. constructor. by apply N.eqb_eq. Qed.

Lemma matches_chr_i_elim c a b cs :
  matches (Chr_i c) a b cs ->
  exists x, a = [x] /\ canonicalize x = canonicalize c /\ cs = [].
Proof.
  intros Hm. apply matches_class_inv in Hm as (x & -> & Hp & ->).
  exists x. split; [done|]. split; [by apply N.eqb_eq|done].
Qed.

Lemma matches_currency_opt_intro a b :
  currency_opt a -> matches (Opt currency) a b [].
Proof.
  intros [-> | [-> | ->]]; [constructor| |].
  - apply M_opt_some; [|done]. apply M_alt_l. by apply matches_chr_i_intro.
  - apply M_opt_some; [|done]. apply M_alt_r. by apply matches_chr_i_intro.
Qed.

Lemma matches_currency_opt_elim a b cs :
  matches (Opt currency) a b cs -> currency_opt a /\ cs = [].
Proof.
  intros Hm. apply matches_opt_inv in Hm as [[-> ->]|[Hm _]]; [by split; [left|]|].
  apply matches_alt_inv in Hm as [Hm|Hm];
    apply matches_chr_i_elim in Hm as (x & -> & Hx & ->);
    apply canonicalize_symbol in Hx as ->; try lia.
  - split; [right; by left|done].
  - split; [right; by right|done].
Qed.

Lemma matches_number_intro num b : number_text num -> matches number_re num b [].
Proof.
  intros [[Hne Hd]|(i & c & f & -> & [Hi1 Hi2] & Hc & [Hf1 Hf2])]; unfold number_re.
  - rewrite <- (app_nil_r num).
    apply (M_cat _ _ num [] b [] []); [|constructor].
    by apply matches_plus_class_intro.
  - apply (M_cat _ _ i (c :: f) b [] []); [by apply matches_plus_class_intro|].
    apply M_opt_some; [|done].
    apply (M_cat _ _ [c] f b [] []); [by constructor|].
    by apply matches_plus_class_intro.
Qed.

Lemma matches_number_elim num b cs :
  matches number_re num b cs -> number_text num /\ cs = [].
Proof.
  intros Hm. unfold number_re in Hm.
  apply matches_cat_inv in Hm as (i & rest & c1 & c2 & -> & -> & Hm1 & Hm2).
  apply matches_plus_class_elim in Hm1 as (Hi1 & Hi2 & ->).
  apply matches_opt_inv in Hm2 as [[-> ->]|[Hm2 _]].
  - rewrite app_nil_r. split; [by left|done].
  - apply matches_cat_inv in Hm2 as (c & f & c3 & c4 & -> & -> & Hm3 & Hm4).
    apply matches_class_inv in Hm3 as (x & -> & Hx & ->).
    apply matches_plus_class_elim in Hm4 as (Hf1 & Hf2 & ->).
    split; [|done]. right. by exists i, x, f.
Qed.

Lemma matches_separator_intro sep b :
  separator_text (str "par") sep -> matches separator_re sep b [].
Proof.
  intros [->|Hw]; unfold separator_re.
  - apply M_alt_l. by apply matches_chr_i_intro.
  - apply M_alt_r.
    destruct sep as [|x [|y [|z [|? ?]]]]; try done.
    injection Hw as Hx Hy Hz.
    apply (M_cat _ _ [x] [y; z] b [] []); [by apply matches_chr_i_intro|].
    apply (M_cat _ _ [y] [z] b [] []); [by apply matches_chr_i_intro|].
    apply (M_cat _ _ [z] [] b [] []); [by apply matches_chr_i_intro|constructor].
Qed.

Lemma matches_separator_elim sep b cs :
  matches separator_re sep b cs -> separator_text (str "par") sep /\ cs = [].
Proof.
  intros Hm. unfold separator_re in Hm. apply matches_alt_inv in Hm as [Hm|Hm].
  - apply matches_chr_i_elim in Hm as (x & -> & Hx & ->).
    apply canonicalize_symbol in Hx as ->; [|lia]. split; [by left|done].
  - simpl in Hm.
    apply matches_cat_inv in Hm as (a1 & r1 & c1 & d1 & -> & -> & Hm1 & Hm).
    apply matches_cat_inv in Hm as (a2 & r2 & c2 & d2 & -> & -> & Hm2 & Hm).
    apply matches_cat_inv in Hm as (a3 & r3 & c3 & d3 & -> & -> & Hm3 & Hm).
    apply matches_eps_inv in Hm as [-> ->].
    apply matches_chr_i_elim in Hm1 as (x & -> & Hx & ->).
    apply matches_chr_i_elim in Hm2 as (y & -> & Hy & ->).
    apply matches_chr_i_elim in Hm3 as (z & -> & Hz & ->).
    split; [|done]. right. simpl. by rewrite Hx, Hy, Hz.
Qed.

(** The pattern matches exactly the occurrences, and captures the number
    and the label. *)
Lemma unit_price_re_intro num lab a b :
  unit_price_occurrence (str "par") num lab a ->
  matches unit_price_re a b [(2%nat, lab); (1%nat, num)].
Proof.
  intros (cur1 & ws1 & ws2 & cur2 & ws3 & sep & ws4 & -> & H1 & H2 & H3 & H4 & H5 & H6
          & H7 & H8 & [H9 H10]).
  unfold unit_price_re. simpl.
  apply (M_cat _ _ cur1 _ b [] [(2%nat, lab); (1%nat, num)]);
    [by apply matches_currency_opt_intro|].
  apply (M_cat _ _ ws1 _ b [] [(2%nat, lab); (1%nat, num)]);
    [by apply matches_star_class_intro|].
  apply (M_cat _ _ num _ b [(1%nat, num)] [(2%nat, lab)]);
    [constructor; by apply matches_number_intro|].
  apply (M_cat _ _ ws2 _ b [] [(2%nat, lab)]); [by apply matches_star_class_intro|].
  apply (M_cat _ _ cur2 _ b [] [(2%nat, lab)]); [by apply matches_currency_opt_intro|].
  apply (M_cat _ _ ws3 _ b [] [(2%nat, lab)]); [by apply matches_star_class_intro|].
  apply (M_cat _ _ sep _ b [] [(2%nat, lab)]); [by apply matches_separator_intro|].
  apply (M_cat _ _ ws4 _ b [] [(2%nat, lab)]); [by apply matches_star_class_intro|].
  rewrite <- (app_nil_r lab) at 1.
  apply (M_cat _ _ lab [] b [(2%nat, lab)] []); [|constructor].
  constructor. by apply matches_plus_class_intro.
Qed.

Lemma unit_price_re_elim a b cs :
  matches unit_price_re a b cs ->
  exists num lab,
    unit_price_occurrence (str "par") num lab a /\ cs = [(2%nat, lab); (1%nat, num)].
Proof.
  intros Hm. unfold unit_price_re in Hm. simpl in Hm.
  apply matches_cat_inv in Hm as (cur1 & r1 & c1 & d1 & -> & -> & Hm1 & Hm).
  apply matches_cat_inv in Hm as (ws1 & r2 & c2 & d2 & -> & -> & Hm2 & Hm).
  apply matches_cat_inv in Hm as (num & r3 & c3 & d3 & -> & -> & Hm3 & Hm).
  apply matches_cat_inv in Hm as (ws2 & r4 & c4 & d4 & -> & -> & Hm4 & Hm).
  apply matches_cat_inv in Hm as (cur2 & r5 & c5 & d5 & -> & -> & Hm5 & Hm).
  apply matches_cat_inv in Hm as (ws3 & r6 & c6 & d6 & -> & -> & Hm6 & Hm).
  apply matches_cat_inv in Hm as (sep & r7 & c7 & d7 & -> & -> & Hm7 & Hm).
  apply matches_cat_inv in Hm as (ws4 & r8 & c8 & d8 & -> & -> & Hm8 & Hm).
  apply matches_cat_inv in Hm as (lab & r9 & c9 & d9 & -> & -> & Hm9 & Hm).
  apply matches_eps_inv in Hm as [-> ->].
  apply matches_currency_opt_elim in Hm1 as [H1 ->].
  apply matches_star_class_elim in Hm2 as [H2 ->].
  apply matches_group_inv in Hm3 as (c3' & -> & Hm3).
  apply matches_number_elim in Hm3 as [H3 ->].
  apply matches_star_class_elim in Hm4 as [H4 ->].
  apply matches_currency_opt_elim in Hm5 as [H5 ->].
  apply matches_star_class_elim in Hm6 as [H6 ->].
  apply matches_separator_elim in Hm7 as [H7 ->].
  apply matches_star_class_elim in Hm8 as [H8 ->].
  apply matches_group_inv in Hm9 as (c9' & -> & Hm9).
  apply matches_plus_class_elim in Hm9 as (H9 & H10 & ->).
  exists num, lab. split; [|done].
  exists cur1, ws1, ws2, cur2, ws3, sep, ws4. rewrite app_nil_r.
  repeat split; done.
Qed.

End UnitPricePattern.

Section UnitPriceText.

Lemma parseUnitPriceText_search value :
  parseUnitPriceText value =
  match search unit_price_re (normalized_unit_text value) with
  | None => no_unit_price
  | Some m => {| unitPrice := parseNumber (group 1 m);
                 unitLabel := normalizeWhitespace (group 2 m) |}
  end.
Proof.
  destruct value as [[|c v]|]; [done| |done]. reflexivity.
Qed.

(** The match that [search] returns starts at the leftmost position at
    which the pattern matches. *)
Lemma search_leftmost r s m :
  search r s = Some m ->
  exists pre a b,
    s = pre ++ a ++ b /\ matches r a b m /\
    forall pre' a' b' cs', s = pre' ++ a' ++ b' -> matches r a' b' cs' ->
                           (length pre <= length pre')%nat.
Proof.
  induction s as [|x s IH]; simpl.
  - intros Hs. pose proof (search_sound r [] m) as Hsound. simpl in Hsound.
    destruct (Hsound Hs) as (pre & a & b & Heq & Hm).
    exists pre, a, b. split; [done|]. split; [done|].
    intros pre' a' b' cs' Heq' _.
    destruct pre; [simpl; lia|done].
  - destruct (rmatch r (x :: s) [] _) as [res|] eqn:Hm.
    + intros [= ->]. apply rmatch_sound in Hm as (a & b & cs & Hs & Hm & [= <-]).
      exists [], a, b. rewrite app_nil_r. split; [done|]. split; [done|].
      intros; simpl; lia.
    + intros Hs. apply IH in Hs as (pre & a & b & -> & Hm' & Hleft).
      exists (x :: pre), a, b. split; [done|]. split; [done|].
      intros pre' a' b' cs' Heq' Hm''. destruct pre' as [|y pre'].
      * exfalso. simpl in Heq'.
        assert (Hsome : is_Some (rmatch r (a' ++ b') [] (fun _ c => Some c))).
        { apply (rmatch_complete r a' b' cs' Hm''). intros c'. by eexists. }
        rewrite <- Heq', Hm in Hsome. by destruct Hsome.
      * injection Heq' as -> Heq'. simpl.
        pose proof (Hleft pre' a' b' cs' Heq' Hm''). lia.
Qed.

End UnitPriceText.

(* ===================================================================== *)
(** * The match that the unit-price pattern makes *)
(* ===================================================================== *)

Section GreedyLabel.

Implicit Types (r : regex) (s a b : jstring) (c cs : captures) (k : cont).

(** The greedy loop of a class, before a continuation that accepts
    everything, takes the longest run of the class. *)
Lemma star_loop_class p k n s c :
  (forall s' c', is_Some (k s' c')) -> (length s <= n)%nat ->
  star_loop (rmatch (Class p)) k n s c = k (snd (span p s)) c.
Proof.
  intros Hk. revert s c. induction n as [|n IH]; intros s c Hlen.
  { destruct s; [done|simpl in Hlen; lia]. }
  cbn [star_loop rmatch]. destruct s as [|x s]; [done|].
  cbn [span]. destruct (p x) eqn:Hx; [|done].
  replace (length s <? length (x :: s))%nat with true
    by (symmetry; apply Nat.ltb_lt; simpl; lia).
  rewrite IH by (simpl in Hlen; lia).
  destruct (span p s) as [run rest]. cbn [snd].
  by destruct (Hk rest c) as [res ->].
Qed.

Lemma rmatch_cat r1 r2 s c k :
  rmatch (Cat r1 r2) s c k = rmatch r1 s c (fun s' c' => rmatch r2 s' c' k).
Proof. done. Qed.

Lemma rmatch_group i r s c k :
  rmatch (Group i r) s c k
  = rmatch r s c (fun s' c' => k s' ((i, take (length s - length s') s) :: c')).
Proof. done. Qed.

Lemma rmatch_star r s c k : rmatch (Star r) s c k = star_loop (rmatch r) k (length s) s c.
Proof. done. Qed.

Lemma rmatch_class p s c k :
  rmatch (Class p) s c k =
  match s with
  | x :: s' => if p x then k s' c else None
  | [] => None
  end.
Proof. done. Qed.

(** The last group of a pattern, one code unit of a class or more, takes
    the longest run of the class. *)
Lemma rmatch_last_group i p s c res :
  rmatch (Cat (Group i (Plus (Class p))) Eps) s c (fun _ c' => Some c') = Some res ->
  exists lab post,
    s = lab ++ post /\ lab <> [] /\ Forall (fun x => p x = true) lab /\
    (forall x, head post = Some x -> p x = false) /\
    res = (i, lab) :: c.
Proof.
  rewrite rmatch_cat, rmatch_group. unfold Plus. rewrite rmatch_cat, rmatch_class.
  destruct s as [|x s]; [done|]. destruct (p x) eqn:Hx; [|done].
  rewrite rmatch_star, star_loop_class; [|by eexists|done].
  cbn [rmatch]. intros [= <-].
  pose proof (span_app p s) as Happ. pose proof (span_Forall p s) as Hrun.
  pose proof (span_head p s) as Hnext.
  destruct (span p s) as [run rest]. cbn [fst snd] in *.
  exists (x :: run), rest. split; [by rewrite <- Happ|]. split; [done|].
  split; [by constructor|]. split; [done|].
  f_equal. f_equal. rewrite <- Happ. cbn [length].
  replace (S (length (run ++ rest)) - length rest)%nat with (S (length run))
    by (rewrite length_app; lia).
  cbn [take]. f_equal. by rewrite take_app_length.
Qed.

(** [search] returns what the matcher returns at the leftmost position at
    which the pattern matches. *)
Lemma search_at r s m :
  search r s = Some m ->
  exists pre s',
    s = pre ++ s' /\ rmatch r s' [] (fun _ c' => Some c') = Some m /\
    forall pre' a' b' cs', s = pre' ++ a' ++ b' -> matches r a' b' cs' ->
                           (length pre <= length pre')%nat.
Proof.
  induction s as [|x s IH]; cbn [search].
  - destruct (rmatch r [] [] _) as [res|] eqn:Hm; [|done]. intros [= ->].
    exists [], []. split; [done|]. split; [done|]. intros; simpl; lia.
  - destruct (rmatch r (x :: s) [] _) as [res|] eqn:Hm.
    + intros [= ->]. exists [], (x :: s). split; [done|]. split; [done|].
      intros; simpl; lia.
    + intros Hs. apply IH in Hs as (pre & s' & -> & Hm' & Hleft).
      exists (x :: pre), s'. split; [done|]. split; [done|].
      intros pre' a' b' cs' Heq' Hm''. destruct pre' as [|y pre'].
      * exfalso. simpl in Heq'.
        assert (Hsome : is_Some (rmatch r (a' ++ b') [] (fun _ c' => Some c'))).
        { apply (rmatch_complete r a' b' cs' Hm''). intros c'. by eexists. }
        rewrite <- Heq', Hm in Hsome. by destruct Hsome.
      * injection Heq' as -> Heq'. simpl.
        pose proof (Hleft pre' a' b' cs' Heq' Hm''). lia.
Qed.

(** What the matcher returns for the unit-price pattern: the captures of
    an occurrence whose label runs to the end of the line. *)
Lemma rmatch_unit_price s m :
  rmatch unit_price_re s [] (fun _ c' => Some c') = Some m ->
  exists a post num lab,
    s = a ++ post /\ unit_price_occurrence (str "par") num lab a /\
    (forall x, head post = Some x -> not_newline x = false) /\
    m = [(2%nat, lab); (1%nat, num)].
Proof.
  unfold unit_price_re, Seq. cbn [fold_right]. intros Hm.
  rewrite rmatch_cat in Hm.
  apply rmatch_sound in Hm as (cur1 & s1 & c1 & -> & Hm1 & Hm). rewrite rmatch_cat in Hm.
  apply rmatch_sound in Hm as (ws1 & s2 & c2 & -> & Hm2 & Hm). rewrite rmatch_cat in Hm.
  apply rmatch_sound in Hm as (num & s3 & c3 & -> & Hm3 & Hm). rewrite rmatch_cat in Hm.
  apply rmatch_sound in Hm as (ws2 & s4 & c4 & -> & Hm4 & Hm). rewrite rmatch_cat in Hm.
  apply rmatch_sound in Hm as (cur2 & s5 & c5 & -> & Hm5 & Hm). rewrite rmatch_cat in Hm.
  apply rmatch_sound in Hm as (ws3 & s6 & c6 & -> & Hm6 & Hm). rewrite rmatch_cat in Hm.
  apply rmatch_sound in Hm as (sep & s7 & c7 & -> & Hm7 & Hm). rewrite rmatch_cat in Hm.
  apply rmatch_sound in Hm as (ws4 & s8 & c8 & -> & Hm8 & Hm).
  apply rmatch_last_group in Hm as (lab & post & -> & Hne & Hlab & Hpost & ->).
  apply matches_currency_opt_elim in Hm1 as [H1 ->].
  apply matches_star_class_elim in Hm2 as [H2 ->].
  apply matches_group_inv in Hm3 as (c3' & -> & Hm3).
  apply matches_number_elim in Hm3 as [H3 ->].
  apply matches_star_class_elim in Hm4 as [H4 ->].
  apply matches_currency_opt_elim in Hm5 as [H5 ->].
  apply matches_star_class_elim in Hm6 as [H6 ->].
  apply matches_separator_elim in Hm7 as [H7 ->].
  apply matches_star_class_elim in Hm8 as [H8 ->].
  exists (cur1 ++ ws1 ++ num ++ ws2 ++ cur2 ++ ws3 ++ sep ++ ws4 ++ lab), post, num, lab.
  split; [by rewrite <- !app_assoc|]. split; [|by split].
  exists cur1, ws1, ws2, cur2, ws3, sep, ws4. repeat split; done.
Qed.

End GreedyLabel.

Section ReadOccurrence.

Local Open Scope N_scope.

Implicit Types (s t a num lab ws cur sep rest : jstring) (c x : N).

Lemma skip_spaces_app ws rest :
  spaces ws -> (forall c, head rest = Some c -> is_space c = false) ->
  skip_spaces (ws ++ rest) = rest.
Proof. intros Hws Hrest. unfold skip_spaces. by rewrite span_run. Qed.

Lemma after_currency_app cur rest :
  currency_opt cur -> (forall c, head rest = Some c -> c <> 36 /\ c <> 8364) ->
  after_currency (cur ++ rest) = rest.
Proof.
  intros [-> | [-> | ->]] Hrest; [|done|done].
  destruct rest as [|c rest]; [done|]. simpl.
  destruct (Hrest c eq_refl) as [H1 H2]. apply N.eqb_neq in H1, H2. by rewrite H1, H2.
Qed.

Lemma digit_range c : is_digit c = true <-> 48 <= c <= 57.
Proof. unfold is_digit. rewrite andb_true_iff, !N.leb_le. done. Qed.

Lemma space_not_in c : is_space c = true -> c < 33 \/ 159 < c.
Proof.
  unfold is_space. intros H.
  repeat (apply orb_true_iff in H as [H|H]);
    repeat match goal with
           | H : (_ && _) = true |- _ => apply andb_true_iff in H as [? ?]
           | H : (_ <=? _) = true |- _ => apply N.leb_le in H
           | H : (_ =? _) = true |- _ => apply N.eqb_eq in H
           end; lia.
Qed.

Lemma space_not_currency c : is_space c = true -> c <> 36 /\ c <> 8364.
Proof.
  unfold is_space. intros H.
  repeat (apply orb_true_iff in H as [H|H]);
    repeat match goal with
           | H : (_ && _) = true |- _ => apply andb_true_iff in H as [? ?]
           | H : (_ <=? _) = true |- _ => apply N.leb_le in H
           | H : (_ =? _) = true |- _ => apply N.eqb_eq in H
           end; lia.
Qed.

Lemma not_space_between c : 33 <= c <= 159 -> is_space c = false.
Proof.
  intros Hc. apply not_true_is_false. intros H. apply space_not_in in H. lia.
Qed.

Lemma canonicalize_P x : canonicalize x = canonicalize 112 -> x = 80 \/ x = 112.
Proof.
  unfold canonicalize. simpl.
  destruct ((97 <=? x) && (x <=? 122)) eqn:Hx; [|by left].
  apply andb_true_iff in Hx as [H1 H2]. apply N.leb_le in H1, H2. lia.
Qed.

(** The code unit that starts a separator. *)
Lemma separator_head sep :
  separator_text (str "par") sep ->
  exists x t, sep = x :: t /\ (x = 47 \/ x = 80 \/ x = 112).
Proof.
  intros [->|Hw]; [by exists 47, []; split; [|left]|].
  destruct sep as [|x [|y [|z [|? ?]]]]; try done.
  injection Hw as Hx _ _. exists x, [y; z]. split; [done|]. right.
  by apply canonicalize_P.
Qed.

Lemma after_separator_app sep rest :
  separator_text (str "par") sep -> after_separator (sep ++ rest) = Some rest.
Proof.
  intros [->|Hw]; [done|].
  destruct sep as [|x [|y [|z [|? ?]]]]; try done.
  assert (Hx : x = 80 \/ x = 112) by (injection Hw as Hx _ _; by apply canonicalize_P).
  cbn [app after_separator].
  replace (x =? 47) with false by (symmetry; apply N.eqb_neq; lia).
  by rewrite bool_decide_eq_true_2.
Qed.

Lemma read_number_app num rest :
  number_text num ->
  (exists c t, rest = c :: t /\ is_digit c = false /\ dot_or_comma c = false) ->
  read_number (num ++ rest) = (num, rest).
Proof.
  intros Hnum (c & t & -> & Hd & Hdc). unfold read_number.
  destruct Hnum as [[Hne Hi]|(i & d & f & -> & [Hi1 Hi2] & Hdot & [Hf1 Hf2])].
  - rewrite span_run; [|done|by intros ? [= <-]]. by rewrite Hdc.
  - rewrite <- app_assoc. cbn [app].
    rewrite span_run; [|done|].
    2:{ intros ? [= <-]. unfold dot_or_comma, is_dot, is_comma in Hdot.
        apply not_true_is_false. intros Hdig%digit_range.
        apply orb_true_iff in Hdot as [H|H]; apply N.eqb_eq in H; lia. }
    rewrite Hdot. rewrite span_run; [|done|by intros ? [= <-]].
    by destruct f.
Qed.

(** Reading an occurrence from its start gives its number and what
    follows its separator: white space and the label. *)
Lemma read_occurrence_spec num lab a :
  unit_price_occurrence (str "par") num lab a ->
  exists ws, spaces ws /\ read_occurrence a = Some (num, ws ++ lab).
Proof.
  intros (cur1 & ws1 & ws2 & cur2 & ws3 & sep & ws4 & -> & H1 & H2 & H3 & H4 & H5 & H6
          & H7 & H8 & H9).
  exists ws4. split; [done|].
  destruct (separator_head sep H7) as (x & t & Hsep & Hx).
  assert (Hnum : exists d n, num = d :: n /\ is_digit d = true).
  { destruct H3 as [[Hne Hi]|(i & d & f & -> & [Hi1 Hi2] & _)].
    - destruct num as [|d n]; [done|]. inversion Hi; subst. by exists d, n.
    - destruct i as [|d' i]; [done|]. inversion Hi2; subst. by eexists d', _. }
  destruct Hnum as (d & n & Hnum & Hd). apply digit_range in Hd.
  assert (Hsephead : is_space x = false /\ is_digit x = false /\ dot_or_comma x = false
                     /\ x <> 36 /\ x <> 8364).
  { split; [apply not_space_between; lia|].
    split; [apply not_true_is_false; intros ?%digit_range; lia|].
    split; [|lia]. unfold dot_or_comma, is_dot, is_comma.
    apply orb_false_iff. split; apply N.eqb_neq; lia. }
  destruct Hsephead as (Hx1 & Hx2 & Hx3 & Hx4 & Hx5).
  set (rest := ws4 ++ lab).
  set (tail := ws2 ++ cur2 ++ ws3 ++ sep ++ rest).
  assert (Hac : after_currency (sep ++ rest) = sep ++ rest).
  { apply (after_currency_app []); [by left|rewrite Hsep; by intros ? [= <-]]. }
  assert (Hss : skip_spaces (sep ++ rest) = sep ++ rest).
  { apply (skip_spaces_app []); [constructor|rewrite Hsep; by intros ? [= <-]]. }
  assert (Htail : skip_spaces (after_currency (skip_spaces tail)) = sep ++ rest).
  { unfold tail. destruct H5 as [-> | Hcur].
    - cbn [app]. rewrite app_assoc, skip_spaces_app;
        [|by apply Forall_app|rewrite Hsep; by intros ? [= <-]].
      by rewrite Hac, Hss.
    - assert (Hc : exists c, cur2 = [c] /\ (c = 36 \/ c = 8364)).
      { destruct Hcur as [-> | ->]; eexists; (split; [done|]); [by left|by right]. }
      destruct Hc as (c & -> & Hc). cbn [app].
      rewrite skip_spaces_app; [|done|].
      2:{ intros ? [= <-]. apply not_true_is_false. intros Hsp%space_not_currency. lia. }
      assert (Hafter : after_currency (c :: ws3 ++ sep ++ rest) = ws3 ++ sep ++ rest).
      { simpl. by destruct Hc as [-> | ->]. }
      rewrite Hafter, skip_spaces_app; [done|done|rewrite Hsep; by intros ? [= <-]]. }
  unfold read_occurrence.
  rewrite after_currency_app; [|done|].
  2:{ intros c Hc. destruct ws1 as [|w ws1].
      - rewrite Hnum in Hc. injection Hc as <-. lia.
      - injection Hc as <-. inversion H2; subst. by apply space_not_currency. }
  rewrite skip_spaces_app; [|done|].
  2:{ rewrite Hnum. intros ? [= <-]. apply not_space_between. lia. }
  fold rest. fold tail.
  rewrite read_number_app; [|done|].
  2:{ unfold tail. destruct ws2 as [|w ws2].
      - destruct H5 as [-> | [-> | ->]].
        + destruct ws3 as [|w ws3].
          * rewrite Hsep. by eexists x, _.
          * inversion H6; subst. eexists w, _. split; [done|].
            assert (Hw : (w < 33 \/ 159 < w)) by by apply space_not_in.
            split; [apply not_true_is_false; intros ?%digit_range; lia|].
            unfold dot_or_comma, is_dot, is_comma.
            apply orb_false_iff. split; apply N.eqb_neq; lia.
        + by eexists 36, _.
        + by eexists 8364, _.
      - inversion H4; subst. eexists w, _. split; [done|].
        assert (Hw : (w < 33 \/ 159 < w)) by by apply space_not_in.
        split; [apply not_true_is_false; intros ?%digit_range; lia|].
        unfold dot_or_comma, is_dot, is_comma.
        apply orb_false_iff. split; apply N.eqb_neq; lia. }
  rewrite Htail. by rewrite after_separator_app.
Qed.

(** White space before a text does not count for [normalizeWhitespace]. *)
Lemma replace_runs_true_spaces ws s :
  spaces ws ->
  replace_runs_from is_space space true (ws ++ s) = replace_runs_from is_space space true s.
Proof.
  induction 1 as [|w ws Hw _ IH]; [done|]. simpl. by rewrite Hw, IH.
Qed.

Lemma trim_replace_runs s :
  trim (replace_runs_from is_space space false s)
  = trim (replace_runs_from is_space space true s).
Proof.
  destruct s as [|c s]; [done|]. simpl. destruct (is_space c); [|done].
  simpl. unfold trim. simpl. done.
Qed.

Lemma normalizeWhitespace_spaces ws s :
  spaces ws -> normalizeWhitespace (Some (ws ++ s)) = normalizeWhitespace (Some s).
Proof.
  intros Hws. unfold normalizeWhitespace. f_equal.
  rewrite !replace_each_id
    by (apply only_space_no_nbsp; apply (replace_runs_only is_space 32)).
  unfold replace_runs. destruct ws as [|w ws]; [done|].
  inversion Hws as [|? ? Hw Hws']; subst.
  rewrite (trim_replace_runs s). cbn [app replace_runs_from]. rewrite Hw.
  rewrite replace_runs_true_spaces by done.
  unfold trim. cbn [app trimStart]. done.
Qed.

(** The text in which [parseUnitPriceText] looks for the pattern has no
    line feed. *)
Lemma normalized_unit_text_line value : 10 ∉ normalized_unit_text value.
Proof.
  destruct value as [v|]; [|apply not_elem_of_nil]. unfold normalized_unit_text.
  set (r := replace_runs is_space space v).
  assert (Hp : only_of is_space 32 r) by apply replace_runs_only.
  rewrite (replace_each_id _ _ r) by by apply only_space_no_nbsp.
  destruct (trim_infix r) as (a & b & Hr). intros Hin.
  unfold only_of in Hp. rewrite Forall_forall in Hp.
  assert (H10 : (10 : N) = 32); [|done]. apply Hp; [|done].
  rewrite Hr. apply elem_of_app. right. apply elem_of_app. by left.
Qed.

End ReadOccurrence.

(** C7, as the script has it. [parseUnitPriceText] looks, in the text with
    its white space normalized, for an occurrence of: an optional currency
    symbol, a number, an optional currency symbol, a separator that is a
    slash or the word "par" in any letter case, and a label, with optional
    white space between them. When there is one, the match starts at the
    leftmost position at which there is one, and its label runs to the end
    of the text; the function returns the number of the match read by
    [parseNumber] and its label normalized. This determines the result:
    for every occurrence that starts at the leftmost position and runs to
    the end of the text, the result is its number read by [parseNumber]
    and its label normalized. When there is no occurrence, both fields are
    [null]. On "1,33$/100g" it returns the double nearest to 1.33 and the
    label "100g". *)
Theorem parseUnitPriceText_spec (value : option jstring) :
  let text := normalized_unit_text value in
  let leftmost (pre : jstring) :=
    forall pre' a' post' num' lab',
      text = pre' ++ a' ++ post' -> unit_price_occurrence (str "par") num' lab' a' ->
      (length pre <= length pre')%nat in
  (has_unit_price (str "par") text ->
   exists pre a num lab,
     text = pre ++ a /\ unit_price_occurrence (str "par") num lab a /\ leftmost pre /\
     parseUnitPriceText value =
       {| unitPrice := parseNumber (Some num);
          unitLabel := normalizeWhitespace (Some lab) |}) /\
  (forall pre a num lab,
     text = pre ++ a -> unit_price_occurrence (str "par") num lab a -> leftmost pre ->
     parseUnitPriceText value =
       {| unitPrice := parseNumber (Some num);
          unitLabel := normalizeWhitespace (Some lab) |}) /\
  (~ has_unit_price (str "par") text -> parseUnitPriceText value = no_unit_price) /\
  parseUnitPriceText (Some (str "1,33$/100g")) =
    {| unitPrice := Some (Fin false 5989787504402760 (-52));
       unitLabel := Some (str "100g") |} /\
  (2 * Z.abs (5989787504402760 * 100 - 133 * 2 ^ 52) <= 100)%Z.
Proof.
  intros text leftmost.
  assert (Hfound : has_unit_price (str "par") text ->
    exists pre a num lab,
      text = pre ++ a /\ unit_price_occurrence (str "par") num lab a /\ leftmost pre /\
      parseUnitPriceText value =
        {| unitPrice := parseNumber (Some num);
           unitLabel := normalizeWhitespace (Some lab) |}).
  { intros (pre & a & post & num & lab & Htext & Hocc).
    rewrite parseUnitPriceText_search. fold text.
    pose proof (unit_price_re_intro num lab a post Hocc) as Hm.
    destruct (search_complete unit_price_re pre a post _ Hm) as [m Hs].
    rewrite <- Htext in Hs. rewrite Hs.
    apply search_at in Hs as (pre0 & s0 & Htext0 & Hm0 & Hleft).
    apply rmatch_unit_price in Hm0 as (a0 & post0 & num0 & lab0 & -> & Hocc0 & Hpost & ->).
    assert (Hend : post0 = []).
    { destruct post0 as [|x post0]; [done|]. exfalso.
      pose proof (Hpost x eq_refl) as Hx. unfold not_newline in Hx.
      apply negb_false_iff, N.eqb_eq in Hx. subst x.
      apply (normalized_unit_text_line value). fold text. rewrite Htext0.
      apply elem_of_app. right. apply elem_of_app. right. apply list_elem_of_here. }
    subst post0. rewrite app_nil_r in Htext0.
    exists pre0, a0, num0, lab0. split; [done|]. split; [done|]. split; [|done].
    intros pre2 a2 post2 num2 lab2 Htext2 Hocc2.
    apply (Hleft pre2 a2 post2 [(2%nat, lab2); (1%nat, num2)] Htext2).
    by apply unit_price_re_intro. }
  split; [exact Hfound|]. split; [|split; [|split]].
  - intros pre a num lab Htext Hocc Hleft.
    destruct Hfound as (pre0 & a0 & num0 & lab0 & Htext0 & Hocc0 & Hleft0 & ->).
    { exists pre, a, [], num, lab. by rewrite app_nil_r. }
    assert (Hlen : length pre = length pre0).
    { apply Nat.le_antisymm.
      - apply (Hleft pre0 a0 [] num0 lab0); [by rewrite app_nil_r|done].
      - apply (Hleft0 pre a [] num lab); [by rewrite app_nil_r|done]. }
    rewrite Htext0 in Htext. apply app_inj_1 in Htext as [<- <-]; [|done].
    destruct (read_occurrence_spec _ _ _ Hocc) as (ws & Hws & Hread).
    destruct (read_occurrence_spec _ _ _ Hocc0) as (ws0 & Hws0 & Hread0).
    rewrite Hread0 in Hread. injection Hread as -> Hrest.
    f_equal.
    rewrite <- (normalizeWhitespace_spaces ws0 lab0 Hws0), Hrest.
    by apply normalizeWhitespace_spaces.
  - intros Hno. rewrite parseUnitPriceText_search. fold text.
    destruct (search unit_price_re text) as [m|] eqn:Hs; [|done].
    exfalso. apply Hno.
    apply search_sound in Hs as (pre & a & post & Htext & Hm).
    apply unit_price_re_elim in Hm as (num & lab & Hocc & _).
    by exists pre, a, post, num, lab.
  - vm_compute. reflexivity.
  - vm_compute. discriminate.
Qed.

(** C7, counterexample: with the word "per" as the separator the text is
    an occurrence of the pattern that the claim describes, and the script
    returns [null] in both fields. *)
Lemma parseUnitPriceText_per_not_accepted :
  let text := str "1,33$ per 100g" in
  has_unit_price (str "per") (normalized_unit_text (Some text)) /\
  parseUnitPriceText (Some text) = no_unit_price.
Proof.
  split; [|vm_compute; reflexivity].
  exists [], (str "1,33$ per 100g"), [], (str "1,33"), (str "100g").
  split; [vm_compute; reflexivity|].
  exists [], [], [], (str "$"), space, (str "per"), space.
  split; [vm_compute; reflexivity|].
  split; [by left|]. split; [constructor|].
  split.
  { right. exists (str "1"), 44%N, (str "33"). split; [vm_compute; reflexivity|].
    split; [split; [done|repeat constructor]|].
    split; [done|split; [done|repeat constructor]]. }
  split; [constructor|]. split; [right; by left|].
  split; [repeat constructor|]. split; [by right|].
  split; [repeat constructor|]. split; [done|repeat constructor].
Qed.

(* ===================================================================== *)
(** * Deduplication keeps the first record of every key *)
(* ===================================================================== *)

Section DedupFacts.

Context {builtins : Builtins}.

Implicit Types (it : item) (l : list item) (m : gmap jstring item) (k : jstring).

Lemma buildFallbackKey_truthy it key :
  buildFallbackKey it = Some key -> JsString.truthy key = true.
Proof.
  unfold buildFallbackKey. destruct (name it) as [n|]; [|done].
  destruct n as [|c n]; [done|]. simpl. by intros [= <-].
Qed.

(** A key, when there is one, is a string that is not empty. *)
Lemma listing_key_truthy it : truthy_str (listing_key it) = bool_decide (is_Some (listing_key it)).
Proof.
  assert (Hyes : forall o : option jstring, is_Some o -> true = bool_decide (is_Some o))
    by (intros o Ho; symmetry; by apply bool_decide_eq_true_2).
  assert (Hno : false = bool_decide (is_Some (@None jstring)))
    by (symmetry; apply bool_decide_eq_false_2; by intros [? ?]).
  unfold listing_key.
  destruct (truthy_str (sku it)) eqn:Hsku.
  { rewrite Hsku. destruct (sku it); [|done]. by apply Hyes. }
  destruct (truthy_str (url it)) eqn:Hurl.
  { rewrite Hurl. destruct (url it); [|done]. by apply Hyes. }
  destruct (truthy_str (name it)) eqn:Hname; [|done].
  destruct (buildFallbackKey it) as [key|] eqn:Hkey; [|done].
  simpl. by rewrite (buildFallbackKey_truthy it key Hkey).
Qed.

(** [uniqueKeyForItem] and the loop of [scrapeListing] compute the same
    key. *)
Lemma uniqueKeyForItem_listing_key it : uniqueKeyForItem it = listing_key it.
Proof.
  unfold uniqueKeyForItem, listing_key, or_else.
  destruct (truthy_str (sku it)) eqn:Hsku; [by rewrite Hsku|].
  destruct (truthy_str (url it)) eqn:Hurl; [done|].
  destruct (truthy_str (name it)) eqn:Hname; [done|].
  unfold buildFallbackKey. destruct (name it) as [n|]; [|done].
  simpl in Hname. by rewrite Hname.
Qed.

Lemma add_listing_item_eq m l it :
  add_listing_item (m, l) it =
  match listing_key it with
  | Some k =>
      match m !! k with
      | None => (<[k := it]> m, l ++ [it])
      | Some _ => (m, l)
      end
  | None => (m, l ++ [it])
  end.
Proof.
  unfold add_listing_item. rewrite listing_key_truthy.
  destruct (listing_key it) as [k|]; [|done].
  replace (bool_decide (is_Some (Some k))) with true; [done|].
  symmetry. by apply bool_decide_eq_true_2.
Qed.

Lemma add_final_item_eq m l it : add_final_item (m, l) it = add_listing_item (m, l) it.
Proof.
  unfold add_final_item, add_listing_item. rewrite uniqueKeyForItem_listing_key.
  destruct (truthy_str (listing_key it)); [|done].
  destruct (listing_key it) as [k|]; [|done]. by destruct (m !! k).
Qed.

Lemma fold_add_listing_item l m acc :
  snd (fold_left add_listing_item l (m, acc)) = acc ++ first_seen listing_key (dom m) l.
Proof.
  revert m acc. induction l as [|it l IH]; intros m acc; cbn [fold_left first_seen].
  { simpl. by rewrite app_nil_r. }
  rewrite add_listing_item_eq. destruct (listing_key it) as [k|] eqn:Hk.
  - destruct (m !! k) as [old|] eqn:Hm.
    + rewrite decide_True by (apply elem_of_dom; eauto). apply IH.
    + rewrite decide_False by (by apply not_elem_of_dom).
      rewrite IH, dom_insert_L, <- app_assoc. done.
  - rewrite IH, <- app_assoc. done.
Qed.

Lemma fold_add_page_items pages st :
  fold_left add_page_items pages st = fold_left add_listing_item (concat pages) st.
Proof.
  revert st. induction pages as [|page pages IH]; intros st; simpl; [done|].
  rewrite IH. unfold add_page_items. by rewrite fold_left_app.
Qed.

Lemma aggregate_first_seen pages :
  aggregate pages = first_seen listing_key ∅ (concat pages).
Proof.
  unfold aggregate. rewrite fold_add_page_items, fold_add_listing_item.
  by rewrite dom_empty_L.
Qed.

Lemma final_items_first_seen l : final_items l = first_seen listing_key ∅ l.
Proof.
  unfold final_items.
  assert (H : forall st, fold_left add_final_item l st = fold_left add_listing_item l st).
  { induction l as [|it l IH]; intros [m acc]; cbn [fold_left]; [done|].
    by rewrite add_final_item_eq, IH. }
  rewrite H, fold_add_listing_item. by rewrite dom_empty_L.
Qed.

Lemma first_seen_sublist key seen l : first_seen key seen l `sublist_of` l.
Proof.
  revert seen. induction l as [|x l IH]; intros seen; simpl; [done|].
  destruct (key x) as [k|].
  - destruct (decide (k ∈ seen)); [by apply sublist_cons|by apply sublist_skip].
  - by apply sublist_skip.
Qed.

Lemma first_seen_keyed key seen l k :
  filter (fun it => key it = Some k) (first_seen key seen l) =
  if decide (k ∈ seen) then [] else take 1 (filter (fun it => key it = Some k) l).
Proof.
  revert seen. induction l as [|x l IH]; intros seen; simpl.
  { by destruct (decide (k ∈ seen)). }
  destruct (key x) as [k'|] eqn:Hx.
  - destruct (decide (k' ∈ seen)) as [Hin|Hnin].
    + rewrite IH. destruct (decide (k ∈ seen)) as [|Hk]; [done|].
      rewrite (filter_cons_False _ x); [done|]. rewrite Hx. intros [= ->]. done.
    + destruct (decide (k' = k)) as [->|Hne].
      * rewrite !filter_cons_True by done. rewrite IH.
        rewrite decide_True by (apply elem_of_union; left; by apply elem_of_singleton).
        by rewrite decide_False.
      * rewrite !filter_cons_False by (rewrite Hx; congruence). rewrite IH.
        destruct (decide (k ∈ seen)) as [Hk|Hk].
        -- by rewrite decide_True by (apply elem_of_union; by right).
        -- rewrite decide_False; [done|].
           intros [Hin%elem_of_singleton|Hin]%elem_of_union; congruence.
  - rewrite !filter_cons_False by (rewrite Hx; congruence). apply IH.
Qed.

Lemma first_seen_keyless key seen l :
  filter (fun it => key it = None) (first_seen key seen l) =
  filter (fun it => key it = None) l.
Proof.
  revert seen. induction l as [|x l IH]; intros seen; simpl; [done|].
  destruct (key x) as [k|] eqn:Hx.
  - rewrite (filter_cons_False _ x l) by (rewrite Hx; congruence).
    destruct (decide (k ∈ seen)); [apply IH|].
    rewrite filter_cons_False by (rewrite Hx; congruence). apply IH.
  - rewrite !filter_cons_True by done. by rewrite IH.
Qed.

End DedupFacts.

Section MergeFacts.

Context {builtins : Builtins}.

(** What the merge of pages keeps. The identity key of a record is its sku when it has one, else its
    url when it has one, else the composite of name, sale price and unit
    label when it has a name, else nothing. The records that a query keeps
    are records of its pages, in their order; for every key only the first
    record with that key is kept; every record without a key is kept. The
    second pass, in [main], uses the same key and keeps the same records. *)
Lemma aggregate_spec (pages : list (list item)) :
  let input := concat pages in
  let out := aggregate pages in
  (forall it,
     uniqueKeyForItem it = listing_key it /\
     (truthy_str (sku it) = true -> listing_key it = sku it) /\
     (truthy_str (sku it) = false -> truthy_str (url it) = true ->
      listing_key it = url it) /\
     (truthy_str (sku it) = false -> truthy_str (url it) = false ->
      forall n, name it = Some n -> JsString.truthy n = true ->
      listing_key it =
        Some (n ++ str "__" ++ template_number (price_sale it) ++ str "__"
              ++ default [] (unit_label it ||| Some []))) /\
     (truthy_str (sku it) = false -> truthy_str (url it) = false ->
      truthy_str (name it) = false -> listing_key it = None)) /\
  out `sublist_of` input /\
  (forall k, filter (fun it => listing_key it = Some k) out
             = take 1 (filter (fun it => listing_key it = Some k) input)) /\
  filter (fun it => listing_key it = None) out
  = filter (fun it => listing_key it = None) input /\
  final_items out = out.
Proof.
  intros input out. unfold out, input. rewrite aggregate_first_seen.
  split; [|split; [|split; [|split]]].
  - intros it. split; [apply uniqueKeyForItem_listing_key|].
    unfold listing_key. repeat split.
    + by intros ->.
    + by intros -> ->.
    + intros -> -> n Hn Ht. unfold buildFallbackKey. rewrite Hn. simpl. by rewrite Ht.
    + by intros -> -> ->.
  - apply first_seen_sublist.
  - intros k. by rewrite first_seen_keyed, decide_False by apply not_elem_of_empty.
  - apply first_seen_keyless.
  - rewrite final_items_first_seen.
    generalize (concat pages). intros l.
    assert (H : forall seen seen', seen' ⊆ seen ->
              first_seen listing_key seen' (first_seen listing_key seen l)
              = first_seen listing_key seen l).
    { induction l as [|x l IH]; intros seen seen' Hsub; simpl; [done|].
      destruct (listing_key x) as [k|] eqn:Hx.
      - destruct (decide (k ∈ seen)) as [Hin|Hnin]; [by apply IH|].
        simpl. rewrite Hx. rewrite decide_False by (intros Hin; by apply Hnin, Hsub).
        f_equal. apply IH. by apply union_mono_l.
      - simpl. rewrite Hx. f_equal. by apply IH. }
    by apply H.
Qed.

End MergeFacts.

(* ===================================================================== *)
(** * Prices of the published records *)
(* ===================================================================== *)

Lemma normalizePricePair_distinct p :
  distinct_prices (sale (normalizePricePair p)) (regular (normalizePricePair p)).
Proof.
  intros s r. destruct p as [[s0|] [r0|]]; unfold normalizePricePair; simpl; try done.
  destruct (strict_eq s0 r0) eqn:Heq; simpl; [done|]. by intros [= <-] [= <-].
Qed.

(** The records that [scrapeListing] builds from the cards never have two
    equal prices. *)
Lemma card_to_item_distinct_prices {builtins : Builtins} query baseUrlString pageCategory
    now card :
  let it := card_to_item query baseUrlString pageCategory now card in
  distinct_prices (price_sale it) (price_regular it).
Proof. apply normalizePricePair_distinct. Qed.

(** The prices read from a product page never are two equal prices. *)
Lemma detail_prices_distinct details :
  distinct_prices (sale (detail_prices details)) (regular (detail_prices details)).
Proof. apply normalizePricePair_distinct. Qed.

(** C1, at the failing input. The listing gives the record a sale price of
    4.99 and a regular price of 6.99; its product page shows 4,99 $ alone,
    which [normalizePricePair] turns into a regular price of 4.99 without a
    sale price; the merge then takes the sale price of the listing back. The
    run of [main] on the site with this card and this product page writes a
    dataset whose record has a sale price and a regular price that are both
    4.99. *)
Theorem published_record_with_equal_prices :
  let published := enrich_with coffee_item coffee_details in
  price_sale coffee_item = Some (Fin false 5618240535144694 (-50)) /\
  price_regular coffee_item = Some (Fin false 7870040348829942 (-50)) /\
  detail_prices coffee_details
    = {| sale := None; regular := Some (Fin false 5618240535144694 (-50)) |} /\
  price_sale published = Some (Fin false 5618240535144694 (-50)) /\
  price_regular published = Some (Fin false 5618240535144694 (-50)) /\
  ~ distinct_prices (price_sale published) (price_regular published) /\
  let run := @main example_builtins browser (simulated coffee_site) (start, ∅) in
  fst run = Ok (Some tt) /\
  snd (snd run) !! data_json_path = Some (JsonText (JArr [json_of_item published])) /\
  snd (snd run) !! data_csv_path = Some (CsvText [published]).
Proof.
  intros published.
  assert (Hs : price_sale published = Some (Fin false 5618240535144694 (-50)))
    by (vm_compute; reflexivity).
  assert (Hr : price_regular published = Some (Fin false 5618240535144694 (-50)))
    by (vm_compute; reflexivity).
  split; [vm_compute; reflexivity|]. split; [vm_compute; reflexivity|].
  split; [vm_compute; reflexivity|]. split; [done|]. split; [done|]. split.
  - intros Hd. specialize (Hd _ _ Hs Hr). vm_compute in Hd. discriminate.
  - split; [vm_compute; reflexivity|]. split; vm_compute; reflexivity.
Qed.

(* ===================================================================== *)
(** * The publish guard *)
(* ===================================================================== *)

Section PublishGuard.

Implicit Types (files : store) (enrichedItems : list item).

Lemma paths_distinct :
  metadata_path <> data_json_path /\ metadata_path <> data_csv_path
  /\ data_json_path <> data_csv_path.
Proof. repeat split; discriminate. Qed.

Lemma publish_eq enrichedItems pagesScraped files :
  publish enrichedItems pagesScraped files =
  let metadata := JsonText (metadata_json pagesScraped (length enrichedItems)) in
  match enrichedItems with
  | [] =>
      if Number.gt (historical_count files) zero
      then (Throw (ZeroItemsRegression (historical_count files)), files)
      else (Ok tt, <[metadata_path := metadata]> files)
  | _ :: _ =>
      (Ok tt,
       <[metadata_path := metadata]>
         (<[data_csv_path := CsvText enrichedItems]>
            (<[data_json_path := JsonText (JArr (map json_of_item enrichedItems))]> files)))
  end.
Proof.
  unfold publish, bind, readHistoricalCount, historical_count.
  destruct enrichedItems as [|it rest]; [|reflexivity].
  cbn [length Nat.eqb].
  destruct (Number.gt _ zero); reflexivity.
Qed.

End PublishGuard.

(** The publish step, case by case. *)
Lemma publish_cases (enrichedItems : list item) (pagesScraped : nat) (files : store) :
  let historicalCount := historical_count files in
  let metadata := JsonText (metadata_json pagesScraped (length enrichedItems)) in
  readHistoricalCount files = (Ok historicalCount, files) /\
  (forall n, metadata_count files = Some n -> historicalCount = n) /\
  (metadata_count files = None ->
   forall elements, read_json data_json_path files = Some (JArr elements) ->
   historicalCount = of_Z (Z.of_nat (length elements))) /\
  (metadata_count files = None -> files !! data_json_path = None ->
   historicalCount = zero) /\
  (enrichedItems = [] -> Number.gt historicalCount zero = true ->
   publish enrichedItems pagesScraped files
   = (Throw (ZeroItemsRegression historicalCount), files)) /\
  (enrichedItems = [] -> Number.gt historicalCount zero = false ->
   exists files',
     publish enrichedItems pagesScraped files = (Ok tt, files') /\
     files' = <[metadata_path := metadata]> files /\
     files' !! data_json_path = files !! data_json_path /\
     files' !! data_csv_path = files !! data_csv_path) /\
  (enrichedItems <> [] ->
   exists files',
     publish enrichedItems pagesScraped files = (Ok tt, files') /\
     files' !! data_json_path = Some (JsonText (JArr (map json_of_item enrichedItems))) /\
     files' !! data_csv_path = Some (CsvText enrichedItems) /\
     files' !! metadata_path = Some metadata).
Proof.
  intros historicalCount metadata.
  destruct paths_distinct as (Hmj & Hmc & Hjc).
  split; [done|]. split; [|split; [|split; [|split; [|split]]]].
  - intros n Hn. unfold historicalCount, historical_count. by rewrite Hn.
  - intros Hn elements He. unfold historicalCount, historical_count, data_count.
    by rewrite Hn, He.
  - intros Hn Hd. unfold historicalCount, historical_count, data_count, read_json.
    by rewrite Hn, Hd.
  - intros -> Hgt. rewrite publish_eq. fold historicalCount. by rewrite Hgt.
  - intros -> Hgt. eexists. split; [|split; [reflexivity|split]].
    + rewrite publish_eq. fold historicalCount. by rewrite Hgt.
    + by rewrite lookup_insert_ne.
    + by rewrite lookup_insert_ne.
  - intros Hne. destruct enrichedItems as [|it rest] eqn:Hitems; [done|].
    eexists. split; [by rewrite publish_eq|].
    split; [|split].
    + rewrite lookup_insert_ne by done. rewrite lookup_insert_ne by done.
      by rewrite lookup_insert_eq.
    + rewrite lookup_insert_ne by done. by rewrite lookup_insert_eq.
    + by rewrite lookup_insert_eq.
Qed.

(* ===================================================================== *)
(** * Properties of the traversal *)
(* ===================================================================== *)

Lemma bind_Ok {S A B : Type} (c : M S A) (k : A -> M S B) s b s' :
  bind c k s = (Ok b, s') -> exists a s1, c s = (Ok a, s1) /\ k a s1 = (Ok b, s').
Proof. unfold bind. destruct (c s) as [[a|e] s1]; [eauto|discriminate]. Qed.

Lemma bind_run {S A B : Type} (c : M S A) (k : A -> M S B) s a s1 :
  c s = (Ok a, s1) -> bind c k s = k a s1.
Proof. unfold bind. by intros ->. Qed.

Lemma bind_throw {S A B : Type} (c : M S A) (k : A -> M S B) s e s1 :
  c s = (Throw e, s1) -> bind c k s = (Throw e, s1).
Proof. unfold bind. by intros ->. Qed.

Ltac inv_bind H :=
  let a := fresh "a" in
  let w := fresh "w" in
  let Hc := fresh "Hc" in
  apply bind_Ok in H as (a & w & Hc & H).

Tactic Notation "inv_bind_as" hyp(H) ident(a) ident(w) ident(Hc) :=
  apply bind_Ok in H as (a & w & Hc & H).

Local Open Scope string_scope.

Local Close Scope string_scope.

Section TraversalFacts.

Context {builtins : Builtins} {W : Type} {surface : Surface W}.

Implicit Types (st : Loop.t) (w : W) (ex : Extracted.t) (q b : jstring).

Lemma same_page_eq (a : option Z) (z : Z) : same_page a (Some z) = true <-> a = Some z.
Proof.
  destruct a as [x|]; simpl; [|done]. rewrite Z.eqb_eq. split; congruence.
Qed.

(** [after_transition] never throws: it returns its verdict, after a sleep
    when the loop continues. *)
Lemma after_transition_eq st ex ps w :
  after_transition st ex ps w =
  (Ok (transition_verdict st ex ps),
   match transition_verdict st ex ps with
   | Continue _ => sleep w
   | Break _ => w
   end).
Proof.
  unfold after_transition, transition_verdict. destruct ps as [status|]; [|done].
  by destruct (same_page (afterActive status) _).
Qed.

Lemma try_catch_Ok {S A : Type} (body : M S A) (handler : exn -> M S A) s a s' :
  try_catch body handler s = (Ok a, s') ->
  body s = (Ok a, s') \/ exists e s1, body s = (Throw e, s1) /\ handler e s1 = (Ok a, s').
Proof.
  unfold try_catch. destruct (body s) as [[a0|e] s1]; [by left|].
  intros H. right. by exists e, s1.
Qed.

(** The click loop of [goToPage] returns a status only when the active page
    read after a click is the target page, or the pager shows it. *)
Lemma after_click_status target beforeActive beforeCount w status w' :
  after_click target beforeActive beforeCount w = (Ok (Some status), w') ->
  afterActive status = Some target \/
  exists w1 w2 text,
    getPagerText w1 = (Ok text, w2) /\ pagerShowsTarget text target = true.
Proof.
  unfold after_click. intros H. apply try_catch_Ok in H as [H|(e & s1 & _ & H)].
  - inv_bind H. inv_bind H. inv_bind H.
    inv_bind_as H afterActive wa Ha. inv_bind H. inv_bind H.
    inv_bind_as H text wt Ht.
    destruct (same_page afterActive (Some target)) eqn:Hsame.
    + injection H as <- _. left. by apply same_page_eq.
    + destruct (pagerShowsTarget text target) eqn:Hpager; simpl in H.
      * right. by eexists _, wt, text.
      * inv_bind H. discriminate.
  - inv_bind H. inv_bind H. discriminate.
Qed.

Lemma click_attempts_status n target w status w' :
  click_attempts n target w = (Ok (Some status), w') ->
  afterActive status = Some target \/
  exists w1 w2 text,
    getPagerText w1 = (Ok text, w2) /\ pagerShowsTarget text target = true.
Proof.
  revert w. induction n as [|n IH]; intros w; simpl; intros H.
  - inv_bind H. discriminate.
  - inv_bind H. inv_bind H. inv_bind H. inv_bind H. inv_bind H. inv_bind H. inv_bind H.
    inv_bind_as H moved wm Hm. destruct moved as [moved|].
    + injection H as <- _. by apply after_click_status in Hm.
    + by apply IH in H.
Qed.

Lemma accumulate_fields q b st ex w st1 w1 :
  accumulate q b st ex w = (Ok st1, w1) ->
  Loop.currentPage st1 = Loop.currentPage st /\
  Loop.pageCount st1 = S (Loop.pageCount st) /\
  Loop.stoppedReason st1 = Loop.stoppedReason st.
Proof.
  unfold accumulate. intros H.
  inv_bind H. inv_bind H. inv_bind H.
  destruct (add_page_items _ _) as [uniqueItems allItems].
  inv_bind H. injection H as <- _. done.
Qed.

Lemma transition_verdict_end st st1 ex ps :
  Loop.currentPage st1 = Loop.currentPage st ->
  Loop.pageCount st1 = S (Loop.pageCount st) ->
  Loop.stoppedReason st1 = Loop.stoppedReason st ->
  turn_end st (transition_verdict st1 ex ps).
Proof.
  intros Hp Hc Hr. unfold transition_verdict. destruct ps as [status|].
  - destruct (same_page _ _).
    + rewrite Hp. by apply moved.
    + apply stopped; [done|done|]. unfold turn_reasons. set_solver.
  - apply stopped; [done|done|]. unfold turn_reasons.
    destruct (bool_decide _); set_solver.
Qed.

Lemma advance_end b st st1 ex w t w' :
  Loop.currentPage st1 = Loop.currentPage st ->
  Loop.pageCount st1 = S (Loop.pageCount st) ->
  Loop.stoppedReason st1 = Loop.stoppedReason st ->
  advance b st1 ex w = (Ok t, w') -> turn_end st t.
Proof.
  intros Hp Hc Hr. unfold advance.
  destruct (2 <=? Loop.emptyPageStreak st1)%nat.
  { intros [= <- _]. apply stopped; [done|done|]. unfold turn_reasons. set_solver. }
  assert (Hgo : forall w0,
    bind (transition b st1 ex) (fun ps => after_transition st1 ex ps) w0 = (Ok t, w') ->
    turn_end st t).
  { intros w0 H. inv_bind H. rewrite after_transition_eq in H. injection H as <- _.
    by apply transition_verdict_end. }
  destruct (Loop.maxPage st1) as [m|]; [|apply Hgo].
  destruct (m <=? Loop.currentPage st1)%Z; [|apply Hgo].
  intros [= <- _]. apply stopped; [done|done|]. unfold turn_reasons. set_solver.
Qed.

Lemma process_page_end q b st w t w' :
  process_page q b st w = (Ok t, w') -> turn_end st t.
Proof.
  unfold process_page. intros H. inv_bind H.
  destruct a as [ex|].
  - inv_bind H. apply accumulate_fields in Hc0 as (Hp & Hcount & Hr).
    by apply (advance_end b st a ex w1 t w').
  - injection H as <- _. constructor.
Qed.

End TraversalFacts.

Local Open Scope string_scope.

Local Close Scope string_scope.

Section LoopFacts.

Context {builtins : Builtins} {W : Type} {surface : Surface W}.

Implicit Types (st : Loop.t) (w : W) (ex : Extracted.t) (q b : jstring).

Lemma loop_entry_initial : loop_entry initial_loop_state (Z.to_nat PAGE_MAX_LIMIT).
Proof. unfold loop_entry, PAGE_MAX_LIMIT. simpl. repeat split; try done; lia. Qed.

Lemma listing_loop_unfold fuel q b st w :
  (Loop.currentPage st <= PAGE_MAX_LIMIT)%Z ->
  listing_loop (S fuel) q b st w =
  bind (process_page q b st)
       (fun r => match r with
                 | Break st' => ret (Some st')
                 | Continue st' => listing_loop fuel q b st'
                 end) w.
Proof.
  intros Hle. simpl. apply Z.leb_le in Hle. by rewrite Hle.
Qed.

Lemma loop_entry_continue st st1 fuel :
  loop_entry st (S fuel) -> (Loop.currentPage st <= PAGE_MAX_LIMIT)%Z ->
  turn_end st (Continue st1) -> loop_entry st1 fuel.
Proof.
  intros (Hr & Hp & Hc & Hf) Hle Hend. inversion Hend as [| |st2 Hp2 Hc2 Hr2]; subst.
  unfold loop_entry. simpl. rewrite Hr2, Hc2. repeat split; try done; lia.
Qed.

(** The loop does not run out of fuel, and it is left in one of three
    ways. *)
Lemma listing_loop_exit fuel q b st w r w' :
  loop_entry st fuel ->
  listing_loop fuel q b st w = (Ok r, w') ->
  exists final, r = Some final /\ loop_exit final.
Proof.
  revert st w. induction fuel as [|fuel IH]; intros st w Hentry.
  - destruct Hentry as (Hr & Hp & Hc & Hf). simpl.
    destruct (Loop.currentPage st <=? PAGE_MAX_LIMIT)%Z eqn:Hle.
    { apply Z.leb_le in Hle. lia. }
    intros [= <- _]. exists st. split; [done|]. apply Z.leb_gt in Hle.
    apply exit_limit; [done|lia|unfold PAGE_MAX_LIMIT in *; lia].
  - destruct (Z.le_gt_cases (Loop.currentPage st) PAGE_MAX_LIMIT) as [Hle|Hgt].
    + rewrite listing_loop_unfold by done. intros H. inv_bind H.
      pose proof (process_page_end _ _ _ _ _ _ Hc) as Hend.
      destruct a as [st1|st1].
      * apply (IH st1 w0); [|done]. by apply (loop_entry_continue st).
      * injection H as <- _. exists st1. split; [done|].
        destruct Hentry as (Hr & Hp & Hcount & Hf).
        inversion Hend as [|st2 reason Hp2 Hc2 Hin|]; subst.
        -- by apply exit_failed.
        -- apply (exit_stopped _ reason); simpl; [done|done|lia|lia].
    + destruct Hentry as (Hr & Hp & Hc & Hf). simpl.
      replace (Loop.currentPage st <=? PAGE_MAX_LIMIT)%Z with false
        by (symmetry; apply Z.leb_gt; lia).
      intros [= <- _]. exists st. split; [done|].
      apply exit_limit; [done|lia|unfold PAGE_MAX_LIMIT in *; lia].
Qed.

(** The loop, from a turn that the run gets to, gives what the run gives. *)
Lemma listing_loop_reaches q b x y fuel :
  reaches q b x y -> loop_entry (fst x) fuel ->
  exists fuel',
    loop_entry (fst y) fuel' /\
    listing_loop fuel q b (fst x) (snd x) = listing_loop fuel' q b (fst y) (snd y).
Proof.
  intros Hreach. revert fuel.
  induction Hreach as [x|st w st1 w1 y Hle Hturn Hreach IH]; intros fuel Hentry.
  { by exists fuel. }
  simpl in *. destruct fuel as [|fuel].
  { destruct Hentry as (_ & _ & _ & Hf). lia. }
  pose proof (process_page_end _ _ _ _ _ _ Hturn) as Hend.
  destruct (IH fuel) as (fuel' & Hentry' & Heq).
  { by apply (loop_entry_continue st). }
  exists fuel'. split; [done|].
  rewrite listing_loop_unfold by done. by rewrite (bind_run _ _ _ _ _ Hturn).
Qed.

Lemma loop_exit_page_count st : loop_exit st -> (Loop.pageCount st <= 100)%nat.
Proof.
  inversion 1; subst; unfold PAGE_MAX_LIMIT in *; lia.
Qed.

Lemma turn_reasons_not_limit reason :
  reason ∈ turn_reasons -> reason <> "page-limit-reached"%string.
Proof.
  unfold turn_reasons. intros Hin ->. repeat (apply elem_of_cons in Hin as [Hin|Hin]; [done|]).
  by apply elem_of_nil in Hin.
Qed.

End LoopFacts.

(* ===================================================================== *)
(** * The pages that a traversal merges *)
(* ===================================================================== *)

Section PagesFacts.

Context {builtins : Builtins} {W : Type} {surface : Surface W}.

Implicit Types (st : Loop.t) (w : W) (ex : Extracted.t) (q b : jstring).

(** One more turn at the end of the turns of a run. *)
Lemma reaches_snoc q b x st w st1 w1 :
  reaches q b x (st, w) ->
  (Loop.currentPage st <= PAGE_MAX_LIMIT)%Z ->
  process_page q b st w = (Ok (Continue st1), w1) ->
  reaches q b x (st1, w1).
Proof.
  intros Hreach Hle Hturn. remember (st, w) as y eqn:Hy.
  induction Hreach as [x|st0 w0 st2 w2 y Hle0 Hturn0 Hreach IH].
  - subst x. apply (reaches_turn q b st w st1 w1); [done|done|apply reaches_here].
  - apply (reaches_turn q b st0 w0 st2 w2); [done|done|by apply IH].
Qed.

Lemma mapM_stamps {A B : Type} (f : jstring -> A -> B) (xs : list A) w ys w' :
  mapM (fun x => bind (total_op date_now) (fun now => ret (f now x))) xs w = (Ok ys, w') ->
  exists stamps, length stamps = length xs /\ ys = zip_with f stamps xs.
Proof.
  revert w ys w'. induction xs as [|x xs IH]; intros w ys w'; simpl.
  - intros [= <- _]. by exists [].
  - intros H. inv_bind_as H y w1 Hy. inv_bind_as H rest w2 Hrest.
    injection H as <- _. inv_bind_as Hy now w3 Hnow. injection Hy as <- _.
    destruct (IH _ _ _ Hrest) as (stamps & Hlen & ->).
    exists (now :: stamps). split; [simpl; by rewrite Hlen|done].
Qed.

(** What [accumulate] does to the output: the records of the cards of the
    page are merged into it. *)
Lemma accumulate_page q b st ex w st1 w1 :
  accumulate q b st ex w = (Ok st1, w1) ->
  exists stamps,
    length stamps = length (Extracted.results ex) /\
    (Loop.uniqueItems st1, Loop.allItems st1)
    = add_page_items (Loop.uniqueItems st, Loop.allItems st) (page_records q b ex stamps).
Proof.
  unfold accumulate. intros H.
  inv_bind H. inv_bind H. inv_bind_as H pageItems wp Hpage.
  apply mapM_stamps in Hpage as (stamps & Hlen & ->).
  exists stamps. split; [done|].
  change (page_records q b ex stamps)
    with (zip_with (card_to_item q b (Extracted.breadcrumb ex ||| None)) stamps
            (Extracted.results ex)).
  destruct (add_page_items _ _) as [uniqueItems allItems].
  inv_bind H. by injection H as <- _.
Qed.

(** The end of a turn leaves the output and the page count as they are. *)
Lemma advance_output b st ex w t w' :
  advance b st ex w = (Ok t, w') ->
  Loop.allItems (turn_state t) = Loop.allItems st /\
  Loop.uniqueItems (turn_state t) = Loop.uniqueItems st /\
  Loop.pageCount (turn_state t) = Loop.pageCount st.
Proof.
  unfold advance.
  destruct (2 <=? Loop.emptyPageStreak st)%nat; [by intros [= <- _]|].
  assert (Hgo : forall w0,
    bind (transition b st ex) (fun ps => after_transition st ex ps) w0 = (Ok t, w') ->
    Loop.allItems (turn_state t) = Loop.allItems st /\
    Loop.uniqueItems (turn_state t) = Loop.uniqueItems st /\
    Loop.pageCount (turn_state t) = Loop.pageCount st).
  { intros w0 H. inv_bind_as H ps wt Ht. rewrite after_transition_eq in H.
    injection H as <- _. unfold transition_verdict. destruct ps as [status|]; [|done].
    by destruct (same_page _ _). }
  destruct (Loop.maxPage st) as [m|]; [|apply Hgo].
  destruct (m <=? Loop.currentPage st)%Z; [|apply Hgo].
  by intros [= <- _].
Qed.

(** A turn of a run merges at most one page into the output: the page
    that it extracts. *)
Lemma process_page_gathered q w0 st w t w' pages :
  reaches q (listing_base_url q) (initial_loop_state, w0) (st, w) ->
  (Loop.currentPage st <= PAGE_MAX_LIMIT)%Z ->
  gathered q (listing_base_url q) w0 st pages ->
  process_page q (listing_base_url q) st w = (Ok t, w') ->
  exists pages', gathered q (listing_base_url q) w0 (turn_state t) pages'.
Proof.
  set (b := listing_base_url q). intros Hreach Hle (Hlen & Hpages & Hfold).
  unfold process_page. intros H. inv_bind_as H extracted we Hex.
  destruct extracted as [ex|].
  2:{ injection H as <- _. by exists pages. }
  inv_bind_as H st1 wa Hacc.
  pose proof (accumulate_fields _ _ _ _ _ _ _ Hacc) as (_ & Hcount & _).
  destruct (accumulate_page _ _ _ _ _ _ _ Hacc) as (stamps & Hstamps & Hmerge).
  apply advance_output in H as (Hall & Huniq & Hpc).
  exists (pages ++ [page_records q b ex stamps]). split; [|split].
  - rewrite length_app, Hpc, Hcount, Hlen. simpl. lia.
  - intros i page Hi. apply lookup_app_Some in Hi as [Hi|[Hge Hi]]; [by apply Hpages|].
    apply list_lookup_singleton_Some in Hi as [Hi <-].
    exists st, w, ex, we, stamps. repeat split; try done. lia.
  - rewrite Hall, Huniq, Hmerge, Hfold, fold_left_app. done.
Qed.

(** The output of the loop is what the merge of the pages that the run
    extracted gives. *)
Lemma listing_loop_gathered q w0 fuel st w final w' pages :
  reaches q (listing_base_url q) (initial_loop_state, w0) (st, w) ->
  gathered q (listing_base_url q) w0 st pages ->
  listing_loop fuel q (listing_base_url q) st w = (Ok (Some final), w') ->
  exists pages', gathered q (listing_base_url q) w0 final pages'.
Proof.
  revert st w pages. induction fuel as [|fuel IH]; intros st w pages Hreach Hg; simpl.
  - destruct (Loop.currentPage st <=? PAGE_MAX_LIMIT)%Z; [done|].
    intros [= <- _]. by exists pages.
  - destruct (Loop.currentPage st <=? PAGE_MAX_LIMIT)%Z eqn:Hle.
    2:{ intros [= <- _]. by exists pages. }
    apply Z.leb_le in Hle. intros H. inv_bind_as H t wt Hturn.
    destruct (process_page_gathered _ _ _ _ _ _ _ Hreach Hle Hg Hturn) as [pages' Hg'].
    destruct t as [st1|st1]; simpl in Hg'.
    + apply (IH st1 wt pages'); [|done|done]. by apply (reaches_snoc _ _ _ st w).
    + injection H as <- _. by exists pages'.
Qed.

End PagesFacts.

Section TurnFacts.

Context {builtins : Builtins} {W : Type} {surface : Surface W}.

Implicit Types (st : Loop.t) (w : W) (ex : Extracted.t) (q b : jstring).

Local Open Scope string_scope.

Lemma scrapeListing_run q w run w' :
  listing_loop (Z.to_nat PAGE_MAX_LIMIT) q (listing_base_url q) initial_loop_state w
  = (Ok run, w') ->
  scrapeListing q w = (Ok (option_map (listing_result (listing_base_url q)) run), w').
Proof. intros H. unfold scrapeListing. by rewrite (bind_run _ _ _ _ _ H). Qed.

(** A turn that a run gets to and that ends by [break] gives the result of
    the run. *)
Lemma reaches_break q w0 st w st' w' :
  reaches q (listing_base_url q) (initial_loop_state, w0) (st, w) ->
  (Loop.currentPage st <= PAGE_MAX_LIMIT)%Z ->
  process_page q (listing_base_url q) st w = (Ok (Break st'), w') ->
  scrapeListing q w0 = (Ok (Some (listing_result (listing_base_url q) st')), w').
Proof.
  intros Hreach Hle Hturn.
  destruct (listing_loop_reaches q _ _ _ _ Hreach loop_entry_initial)
    as (fuel & Hentry & Hloop).
  simpl in Hentry, Hloop. destruct fuel as [|fuel].
  { destruct Hentry as (_ & _ & _ & Hf). lia. }
  rewrite listing_loop_unfold in Hloop by done.
  rewrite (bind_run _ _ _ _ _ Hturn) in Hloop.
  by rewrite (scrapeListing_run q w0 _ _ Hloop).
Qed.

(** The state of the loop at the head of a turn that a run gets to. *)
Lemma reaches_entry q w0 st w :
  reaches q (listing_base_url q) (initial_loop_state, w0) (st, w) ->
  Loop.stoppedReason st = None /\
  (1 <= Loop.currentPage st)%Z /\
  Z.of_nat (Loop.pageCount st) = (Loop.currentPage st - 1)%Z.
Proof.
  intros Hreach.
  destruct (listing_loop_reaches q _ _ _ _ Hreach loop_entry_initial)
    as (fuel & (Hr & Hp & Hc & _) & _).
  simpl in *. repeat split; try done. lia.
Qed.

(** What [accumulate] does to the counters of the loop. *)
Lemma accumulate_counters q b st ex w st1 w1 :
  accumulate q b st ex w = (Ok st1, w1) ->
  Loop.emptyPageStreak st1
  = (if (Extracted.visibleCardCount ex =? 0)%nat then S (Loop.emptyPageStreak st) else O) /\
  Loop.maxPage st1 = known_max_page b st ex.
Proof.
  unfold accumulate. intros H.
  inv_bind H. inv_bind_as H streak ws Hstreak. inv_bind H.
  destruct (add_page_items _ _) as [uniqueItems allItems].
  inv_bind H. injection H as <- _. cbn [Loop.emptyPageStreak Loop.maxPage]. split.
  - destruct (Extracted.visibleCardCount ex =? 0)%nat.
    + inv_bind Hstreak. by injection Hstreak as <- _.
    + by injection Hstreak as <- _.
  - unfold known_max_page.
    destruct (getMaxPageFromButtons _ ?? getPaginationInfo _ _) as [d|]; [|by destruct (Loop.maxPage st)].
    by destruct (Loop.maxPage st).
Qed.

End TurnFacts.

Section TraversalClaims.

Context {builtins : Builtins} {W : Type} {surface : Surface W}.

Local Open Scope string_scope.

Lemma listing_result_reason b st :
  loop_exit st ->
  Result.stoppedReason (listing_result b st) ∈ stopped_reasons /\
  ((PAGE_MAX_LIMIT < Loop.currentPage st)%Z <->
   Result.stoppedReason (listing_result b st) = "page-limit-reached").
Proof.
  unfold listing_result, stopped_reasons. cbn [Result.stoppedReason].
  inversion 1 as [st0 Hr Hp Hc|st0 Hr Hp Hc|st0 reason Hr Hin Hp Hc]; subst; rewrite Hr.
  - replace (PAGE_MAX_LIMIT <? Loop.currentPage st)%Z with true
      by (symmetry; apply Z.ltb_lt; lia).
    split; [|split; [done|lia]].
    apply elem_of_app. right. apply list_elem_of_here.
  - replace (PAGE_MAX_LIMIT <? Loop.currentPage st)%Z with false
      by (symmetry; apply Z.ltb_ge; lia).
    split; [|split; [lia|done]].
    apply elem_of_app. right. apply list_elem_of_further, list_elem_of_here.
  - split; [apply elem_of_app; by left|]. split; [lia|].
    intros ->. by apply turn_reasons_not_limit in Hin.
Qed.

(** C8. The loop of [scrapeListing] never runs out of the fuel of one
    hundred turns: when the traversal returns, at most one hundred pages
    were extracted, whatever the surface showed; the loop is left by its
    condition exactly when the result says "page-limit-reached", and one
    hundred pages were extracted then. *)
Theorem scrapeListing_page_limit (q : jstring) (w : W) (run : option Loop.t) (w' : W) :
  let b := listing_base_url q in
  listing_loop (Z.to_nat PAGE_MAX_LIMIT) q b initial_loop_state w = (Ok run, w') ->
  exists final,
    run = Some final /\
    scrapeListing q w = (Ok (Some (listing_result b final)), w') /\
    Result.pageCount (listing_result b final) = Loop.pageCount final /\
    (Loop.pageCount final <= 100)%nat /\
    (Loop.currentPage final <= PAGE_MAX_LIMIT + 1)%Z /\
    ((PAGE_MAX_LIMIT < Loop.currentPage final)%Z <->
     Result.stoppedReason (listing_result b final) = "page-limit-reached") /\
    ((PAGE_MAX_LIMIT < Loop.currentPage final)%Z -> Loop.pageCount final = 100%nat).
Proof.
  intros b Hrun.
  destruct (listing_loop_exit _ _ _ _ _ _ _ loop_entry_initial Hrun) as (final & -> & Hexit).
  exists final. split; [done|].
  split; [by rewrite (scrapeListing_run q w (Some final) w' Hrun)|].
  split; [done|]. split; [by apply loop_exit_page_count|].
  split; [|split].
  - inversion Hexit; subst; lia.
  - by apply listing_result_reason.
  - inversion Hexit; subst; [done|lia|lia].
Qed.

(** C5, as the script has it. The result of a traversal gives one of six
    reasons, and "pagination-stalled" is not one of them. The loop does not
    look at the address: in a turn of a run that gets to its transition,
    the run goes on to a turn at the target page exactly when the
    transition returns a status whose active page, read after the
    transition, is the target page; when the transition returns no status,
    or a status with another active page, the traversal ends with that
    turn. *)
Theorem scrapeListing_stopped_reasons (q : jstring) (w0 : W) :
  let b := listing_base_url q in
  (forall r w',
     scrapeListing q w0 = (Ok (Some r), w') ->
     Result.stoppedReason r ∈ stopped_reasons /\
     Result.stoppedReason r <> "pagination-stalled") /\
  (forall st w ex w1 st1 w2 ps w3,
     reaches q b (initial_loop_state, w0) (st, w) ->
     (Loop.currentPage st <= PAGE_MAX_LIMIT)%Z ->
     extract_page b st w = (Ok (Some ex), w1) ->
     accumulate q b st ex w1 = (Ok st1, w2) ->
     (Loop.emptyPageStreak st1 < 2)%nat ->
     (forall m, Loop.maxPage st1 = Some m -> (Loop.currentPage st1 < m)%Z) ->
     transition b st1 ex w2 = (Ok ps, w3) ->
     let target := (Loop.currentPage st + 1)%Z in
     let confirmed := exists status, ps = Some status /\ afterActive status = Some target in
     (confirmed ->
      process_page q b st w = (Ok (Continue (set_currentPage st1 target)), sleep w3) /\
      reaches q b (initial_loop_state, w0) (set_currentPage st1 target, sleep w3)) /\
     (~ confirmed ->
      exists r reason,
        process_page q b st w = (Ok (Break (set_stopped st1 reason)), w3) /\
        scrapeListing q w0 = (Ok (Some r), w3) /\
        Result.pageCount r = S (Loop.pageCount st) /\
        Result.stoppedReason r = reason /\
        (reason = "next-disabled" \/ reason = "no-next-page"))).
Proof.
  intros b. split.
  - intros r w' Hrun. unfold scrapeListing in Hrun. inv_bind Hrun.
    destruct (listing_loop_exit _ _ _ _ _ _ _ loop_entry_initial Hc) as (final & -> & Hexit).
    injection Hrun as <- _.
    destruct (listing_result_reason (listing_base_url q) final Hexit) as [Hin _].
    split; [done|].
    intros Heq. rewrite Heq in Hin. unfold stopped_reasons, turn_reasons in Hin.
    simpl in Hin. repeat (apply elem_of_cons in Hin as [Hin|Hin]; [done|]).
    by apply elem_of_nil in Hin.
  - intros st w ex w1 st1 w2 ps w3 Hreach Hle Hex Hacc Hstreak Hmax Htr target confirmed.
    pose proof (accumulate_fields _ _ _ _ _ _ _ Hacc) as (Hp1 & Hc1 & Hr1).
    assert (Hturn : process_page q b st w
                    = (Ok (transition_verdict st1 ex ps),
                       match transition_verdict st1 ex ps with
                       | Continue _ => sleep w3
                       | Break _ => w3
                       end)).
    { unfold process_page. rewrite (bind_run _ _ _ _ _ Hex), (bind_run _ _ _ _ _ Hacc).
      unfold advance.
      replace (2 <=? Loop.emptyPageStreak st1)%nat with false
        by (symmetry; apply Nat.leb_gt; lia).
      assert (Hgo : bind (transition b st1 ex) (fun ps0 => after_transition st1 ex ps0) w2
                    = (Ok (transition_verdict st1 ex ps),
                       match transition_verdict st1 ex ps with
                       | Continue _ => sleep w3
                       | Break _ => w3
                       end)).
      { by rewrite (bind_run _ _ _ _ _ Htr), after_transition_eq. }
      destruct (Loop.maxPage st1) as [m|] eqn:Hm; [|done].
      replace (m <=? Loop.currentPage st1)%Z with false; [done|].
      symmetry. apply Z.leb_gt. by apply Hmax. }
    split.
    + intros (status & -> & Hactive).
      assert (Hverdict : transition_verdict st1 ex (Some status)
                         = Continue (set_currentPage st1 target)).
      { unfold transition_verdict. rewrite Hp1.
        replace (same_page (afterActive status) (Some (Loop.currentPage st + 1)%Z))
          with true; [done|]. symmetry. by apply same_page_eq. }
      rewrite Hverdict in Hturn. split; [done|].
      by apply (reaches_snoc q b _ st w).
    + intros Hnot.
      set (reason := match ps with
                     | Some _ => "no-next-page"
                     | None =>
                         if bool_decide
                              (Extracted.disabled (Extracted.nextPage ex) = Some true)
                         then "next-disabled" else "no-next-page"
                     end).
      assert (Hverdict : transition_verdict st1 ex ps = Break (set_stopped st1 reason)).
      { unfold transition_verdict, reason. destruct ps as [status|]; [|done].
        destruct (same_page (afterActive status) _) eqn:Hsame; [|done].
        apply same_page_eq in Hsame. rewrite Hp1 in Hsame.
        exfalso. apply Hnot. by exists status. }
      rewrite Hverdict in Hturn.
      exists (listing_result b (set_stopped st1 reason)), reason.
      split; [done|]. split; [by apply (reaches_break q w0 st w)|].
      split; [done|]. split; [done|].
      unfold reason. destruct ps; [by right|]. destruct (bool_decide _); [by left|by right].
Qed.

(** C6, as the script has it. In a turn of a run that gets to its
    transition: when the transition returns a status whose active page is
    not the target page, or returns no status (the click loop of [goToPage]
    ended without the target page, or there was no way to the next page),
    the traversal ends there, with the pages and the records it has; the
    reason is "no-next-page" for a status, and for no status
    "next-disabled" when the next control is disabled and "no-next-page"
    when it is not. *)
Theorem mismatch_ends_traversal (q : jstring) (w0 : W) (st : Loop.t) (w : W)
    (ex : Extracted.t) (w1 : W) (st1 : Loop.t) (w2 : W)
    (ps : option pagination_status) (w3 : W) :
  let b := listing_base_url q in
  let target := (Loop.currentPage st + 1)%Z in
  reaches q b (initial_loop_state, w0) (st, w) ->
  (Loop.currentPage st <= PAGE_MAX_LIMIT)%Z ->
  extract_page b st w = (Ok (Some ex), w1) ->
  accumulate q b st ex w1 = (Ok st1, w2) ->
  (Loop.emptyPageStreak st1 < 2)%nat ->
  (forall m, Loop.maxPage st1 = Some m -> (Loop.currentPage st1 < m)%Z) ->
  transition b st1 ex w2 = (Ok ps, w3) ->
  (forall status, ps = Some status -> afterActive status <> Some target) ->
  exists r,
    scrapeListing q w0 = (Ok (Some r), w3) /\
    Result.pageCount r = S (Loop.pageCount st) /\
    Result.items r = Loop.allItems st1 /\
    Result.stoppedReason r =
      match ps with
      | Some _ => "no-next-page"
      | None =>
          if bool_decide (Extracted.disabled (Extracted.nextPage ex) = Some true)
          then "next-disabled" else "no-next-page"
      end.
Proof.
  intros b target Hreach Hle Hex Hacc Hstreak Hmax Htr Hmis.
  pose proof (accumulate_fields _ _ _ _ _ _ _ Hacc) as (Hp1 & Hc1 & Hr1).
  set (reason := match ps with
                 | Some _ => "no-next-page"
                 | None =>
                     if bool_decide (Extracted.disabled (Extracted.nextPage ex) = Some true)
                     then "next-disabled" else "no-next-page"
                 end).
  assert (Hverdict : transition_verdict st1 ex ps = Break (set_stopped st1 reason)).
  { unfold transition_verdict, reason. destruct ps as [status|]; [|done].
    destruct (same_page (afterActive status) _) eqn:Hsame; [|done].
    apply same_page_eq in Hsame. rewrite Hp1 in Hsame. by apply Hmis in Hsame. }
  assert (Hturn : process_page q b st w = (Ok (Break (set_stopped st1 reason)), w3)).
  { unfold process_page. rewrite (bind_run _ _ _ _ _ Hex).
    rewrite (bind_run _ _ _ _ _ Hacc). unfold advance.
    replace (2 <=? Loop.emptyPageStreak st1)%nat with false
      by (symmetry; apply Nat.leb_gt; lia).
    assert (Hgo : bind (transition b st1 ex) (fun ps0 => after_transition st1 ex ps0) w2
                  = (Ok (Break (set_stopped st1 reason)), w3)).
    { rewrite (bind_run _ _ _ _ _ Htr), after_transition_eq. by rewrite Hverdict. }
    destruct (Loop.maxPage st1) as [m|] eqn:Hm; [|done].
    replace (m <=? Loop.currentPage st1)%Z with false; [done|].
    symmetry. apply Z.leb_gt. by apply Hmax. }
  destruct (listing_loop_reaches q b _ _ _ Hreach loop_entry_initial)
    as (fuel & Hentry & Hloop).
  simpl in Hentry, Hloop.
  destruct fuel as [|fuel].
  { destruct Hentry as (_ & _ & _ & Hf). lia. }
  rewrite listing_loop_unfold in Hloop by done.
  rewrite (bind_run _ _ _ _ _ Hturn) in Hloop.
  exists (listing_result b (set_stopped st1 reason)).
  split; [by rewrite (scrapeListing_run q w0 _ _ Hloop)|].
  split; [done|]. split; [done|]. done.
Qed.

End TraversalClaims.

Section Dedup.

Context {builtins : Builtins} {W : Type} {surface : Surface W}.

(** C3. The records that a traversal returns are the merge of the pages
    that it extracted: there is one page for every turn that counts in the
    page count, in the order of the turns, and the page of a turn is the
    list of the records built from the cards that the turn extracted. The
    identity key of a record is its sku when it has one, else its url when
    it has one, else the composite of name, sale price and unit label when
    it has a name, else nothing. The records that are returned are records
    of the pages, in their order; for every key only the first record with
    that key is returned; every record without a key is returned. The
    second pass, in [main], uses the same key and keeps the same
    records. *)
Theorem scrapeListing_keeps_first_seen (q : jstring) (w0 : W) (r : Result.t) (w' : W) :
  scrapeListing q w0 = (Ok (Some r), w') ->
  exists pages,
    length pages = Result.pageCount r /\
    (forall i page, pages !! i = Some page -> turn_page q (listing_base_url q) w0 i page) /\
    Result.items r = aggregate pages /\
    let input := concat pages in
    let out := Result.items r in
    (forall it,
       uniqueKeyForItem it = listing_key it /\
       (truthy_str (sku it) = true -> listing_key it = sku it) /\
       (truthy_str (sku it) = false -> truthy_str (url it) = true ->
        listing_key it = url it) /\
       (truthy_str (sku it) = false -> truthy_str (url it) = false ->
        forall n, name it = Some n -> JsString.truthy n = true ->
        listing_key it =
          Some (n ++ str "__" ++ template_number (price_sale it) ++ str "__"
                ++ default [] (unit_label it ||| Some []))) /\
       (truthy_str (sku it) = false -> truthy_str (url it) = false ->
        truthy_str (name it) = false -> listing_key it = None)) /\
    out `sublist_of` input /\
    (forall k, filter (fun it => listing_key it = Some k) out
               = take 1 (filter (fun it => listing_key it = Some k) input)) /\
    filter (fun it => listing_key it = None) out
    = filter (fun it => listing_key it = None) input /\
    final_items out = out.
Proof.
  unfold scrapeListing. intros H. inv_bind_as H final wf Hloop.
  destruct final as [final|]; [|done]. injection H as <- _.
  destruct (listing_loop_gathered q w0 (Z.to_nat PAGE_MAX_LIMIT) initial_loop_state w0
              final wf [] (reaches_here _ _ _)) as (pages & Hlen & Hpages & Hfold);
    [|exact Hloop|].
  { split; [done|]. split; [|done]. intros i page Hi. by rewrite lookup_nil in Hi. }
  exists pages. cbn [option_map listing_result Result.items Result.pageCount].
  split; [done|]. split; [done|].
  assert (Hout : Loop.allItems final = aggregate pages).
  { unfold aggregate. by rewrite <- Hfold. }
  split; [done|]. rewrite Hout. apply aggregate_spec.
Qed.

End Dedup.

(* ===================================================================== *)
(** * Traversals of the simulated sites *)
(* ===================================================================== *)

Section SimulatedRuns.

Local Open Scope string_scope.

(** C3, witness: on the site of two pages that both show the coffee card,
    the traversal extracts two pages and returns the record of the card
    once. *)
Lemma scrapeListing_keeps_first_seen_twice :
  exists r w' pages,
    @scrapeListing example_builtins browser (simulated repeating_site) onsale_query start
    = (Ok (Some r), w') /\
    Result.pageCount r = 2%nat /\ length pages = 2%nat /\
    Result.items r = @aggregate example_builtins pages /\
    Result.items r = [coffee_item].
Proof.
  set (run := @scrapeListing example_builtins browser (simulated repeating_site)
                onsale_query start).
  assert (Hrun : exists r, run = (Ok (Some r), snd run)).
  { eexists. vm_compute. reflexivity. }
  destruct Hrun as [r Hrun].
  destruct (@scrapeListing_keeps_first_seen example_builtins browser
              (simulated repeating_site) onsale_query start r (snd run) Hrun)
    as (pages & Hlen & _ & Hitems & _).
  assert (Hr : returned run = Some (Some r)) by by rewrite Hrun.
  assert (Hcount : Result.pageCount <$> default None (returned run) = Some 2%nat)
    by (vm_compute; reflexivity).
  assert (Hout : Result.items <$> default None (returned run) = Some [coffee_item])
    by (vm_compute; reflexivity).
  rewrite Hr in Hcount, Hout. simpl in Hcount, Hout.
  injection Hcount as Hcount. injection Hout as Hout.
  exists r, (snd run), pages. split; [exact Hrun|].
  split; [done|]. split; [by rewrite Hlen|]. by split.
Defined.

(** C8, witness: on the site without an end the loop is left by its
    condition after one hundred pages. *)
Lemma scrapeListing_page_limit_endless :
  exists final,
    @scrapeListing example_builtins browser (simulated endless_site) onsale_query start
    = (Ok (Some (listing_result onsale_base final)),
       snd (@scrapeListing example_builtins browser (simulated endless_site) onsale_query start)) /\
    Loop.pageCount final = 100%nat /\
    Result.stoppedReason (listing_result onsale_base final) = "page-limit-reached".
Proof.
  set (run := @listing_loop example_builtins browser (simulated endless_site)
                (Z.to_nat PAGE_MAX_LIMIT) onsale_query onsale_base initial_loop_state start).
  destruct (@scrapeListing_page_limit example_builtins browser (simulated endless_site)
              onsale_query start (default None (returned run)) (snd run))
    as (final & Hfinal & Hrun & _ & _ & _ & Hreason & Hcount).
  { vm_compute. reflexivity. }
  assert (Hpage : Loop.currentPage <$> default None (returned run) = Some 101%Z)
    by (vm_compute; reflexivity).
  assert (Hlimit : (PAGE_MAX_LIMIT < Loop.currentPage final)%Z).
  { rewrite Hfinal in Hpage. injection Hpage as ->. reflexivity. }
  exists final. split; [|split].
  - rewrite Hrun. vm_compute. reflexivity.
  - by apply Hcount.
  - by apply Hreason.
Defined.

(** C5, witness: the traversal of the site of three pages whose buttons
    change the page without changing the address. Its first transition
    returns a status whose active page is page 2, and the run goes on to a
    turn at page 2, at the address of page 1; its result gives one of the
    six reasons. *)
Lemma scrapeListing_stopped_reasons_spa :
  exists r st2 w2,
    returned (@scrapeListing example_builtins browser (simulated spa_site) onsale_query start)
    = Some (Some r) /\
    Result.stoppedReason r ∈ stopped_reasons /\
    Result.stoppedReason r <> "pagination-stalled" /\
    @reaches example_builtins browser (simulated spa_site) onsale_query onsale_base
      (initial_loop_state, start) (st2, w2) /\
    Loop.currentPage st2 = 2%Z /\ active w2 = 2%Z /\ address w2 = onsale_base.
Proof.
  destruct (@scrapeListing_stopped_reasons example_builtins browser (simulated spa_site)
              onsale_query start) as [Hreasons Hturns].
  set (run := @scrapeListing example_builtins browser (simulated spa_site) onsale_query start).
  assert (Hrun : exists r, run = (Ok (Some r), snd run)).
  { eexists. vm_compute. reflexivity. }
  destruct Hrun as [r Hrun].
  destruct (Hreasons r (snd run) Hrun) as [Hin Hne].
  set (page1 := @extract_page browser (simulated spa_site) onsale_base
                  initial_loop_state start).
  set (ex := simulated_extracted spa_site (snd page1)).
  set (acc := @accumulate example_builtins browser (simulated spa_site)
                onsale_query onsale_base initial_loop_state ex (snd page1)).
  set (st1 := match fst acc with
              | Ok st1 => st1
              | _ => initial_loop_state
              end).
  set (tr := @transition example_builtins browser (simulated spa_site)
               onsale_base st1 ex (snd acc)).
  destruct (Hturns initial_loop_state start ex (snd page1) st1 (snd acc)
              (default None (returned tr)) (snd tr)) as [Hgo _].
  - apply reaches_here.
  - vm_compute. discriminate.
  - vm_compute. reflexivity.
  - vm_compute. reflexivity.
  - vm_compute. lia.
  - intros m Hm. vm_compute in Hm. injection Hm as <-. vm_compute. reflexivity.
  - vm_compute. reflexivity.
  - destruct Hgo as [_ Hnext].
    { eexists. split; vm_compute; reflexivity. }
    exists r, (set_currentPage st1 2), (snd tr).
    split; [fold run; by rewrite Hrun|]. split; [done|]. split; [done|].
    split; [exact Hnext|]. split; [reflexivity|].
    split; vm_compute; reflexivity.
Defined.

(** C5, counterexample: on the site whose buttons change the page without
    changing the address, the second and the third page are read at the
    address at which the first page was read; the traversal goes on through
    them and stops at the last page with "max-page-reached". *)
Lemma spa_traversal_continues_at_same_address :
  exists r w',
    @scrapeListing example_builtins browser (simulated spa_site) onsale_query start
    = (Ok (Some r), w') /\
    scraped w' = [(1%Z, onsale_base); (2%Z, onsale_base); (3%Z, onsale_base)] /\
    clicked w' = [2%Z; 3%Z] /\
    Result.pageCount r = 3%nat /\
    Result.stoppedReason r = "max-page-reached" /\
    Result.stoppedReason r <> "pagination-stalled".
Proof.
  eexists. eexists. split; [vm_compute; reflexivity|].
  repeat split; try (vm_compute; reflexivity). vm_compute. discriminate.
Qed.

(** C5, a run in which the page moves and the traversal stops: on the same
    site, with waits for the load state that throw, the click shows page 2
    and [goToPage] returns no status after its five attempts; the
    traversal ends after one page, with "no-next-page", on page 2. *)
Lemma spa_traversal_stops_when_waits_throw :
  exists r w',
    @scrapeListing example_builtins browser (impatient spa_site) onsale_query start
    = (Ok (Some r), w') /\
    Result.pageCount r = 1%nat /\
    Result.stoppedReason r = "no-next-page" /\
    active w' = 2%Z /\
    (exists st1 ex w2 w3,
       @transition example_builtins browser (impatient spa_site) onsale_base st1 ex w2
       = (Ok None, w3) /\
       Loop.currentPage st1 = 1%Z /\ active w2 = 1%Z /\ active w3 = 2%Z).
Proof.
  eexists _, _. split; [vm_compute; reflexivity|].
  split; [reflexivity|]. split; [reflexivity|]. split; [reflexivity|].
  set (st := @initial_loop_state).
  set (r1 := @extract_page browser (impatient spa_site) onsale_base st start).
  assert (H1 : exists ex, r1 = (Ok (Some ex), snd r1)) by (eexists; vm_compute; reflexivity).
  destruct H1 as [ex H1].
  set (r2 := @accumulate example_builtins browser (impatient spa_site) onsale_query onsale_base
               st ex (snd r1)).
  assert (H2 : exists st1, r2 = (Ok st1, snd r2)).
  { eexists. unfold r2. 
    assert (Hex : Some ex = default None (returned r1)) by (rewrite H1; reflexivity).
    vm_compute in Hex. injection Hex as ->. vm_compute. reflexivity. }
  destruct H2 as [st1 H2].
  exists st1, ex, (snd r2).
  assert (Hex : Some ex = default None (returned r1)) by (rewrite H1; reflexivity).
  vm_compute in Hex. injection Hex as ->.
  assert (Hst : Some st1 = returned r2) by (rewrite H2; reflexivity).
  vm_compute in Hst. injection Hst as ->.
  eexists. split; [vm_compute; reflexivity|]. 
  split; [reflexivity|]. split; [vm_compute; reflexivity|]. vm_compute; reflexivity.
Qed.

(** C6, witness: on the site whose buttons do nothing, the click on the
    button of page 2 leaves page 1 active; the pager shows "2", so that
    [goToPage] returns a status, and the traversal ends with one page and
    "no-next-page". *)
Lemma mismatch_ends_traversal_frozen :
  exists r w',
    @scrapeListing example_builtins browser (simulated frozen_site) onsale_query start
    = (Ok (Some r), w') /\
    clicked w' = [2%Z] /\ active w' = 1%Z /\
    Result.pageCount r = 1%nat /\
    Result.stoppedReason r = "no-next-page".
Proof.
  edestruct (@mismatch_ends_traversal example_builtins browser (simulated frozen_site)
               onsale_query start initial_loop_state start)
    as (r & Hrun & Hcount & _ & Hreason).
  - apply reaches_here.
  - vm_compute. discriminate.
  - vm_compute. reflexivity.
  - vm_compute. reflexivity.
  - vm_compute. lia.
  - intros m Hm. vm_compute in Hm. injection Hm as <-. vm_compute. reflexivity.
  - vm_compute. reflexivity.
  - intros status [= <-]. vm_compute. discriminate.
  - exists r. eexists. split; [exact Hrun|].
    split; [vm_compute; reflexivity|]. split; [vm_compute; reflexivity|].
    split; [exact Hcount|exact Hreason].
Defined.

(** C6, counterexample: on the site whose next control is disabled and
    whose buttons do nothing, the button of page 2 is clicked five times
    and page 1 stays active; [goToPage] returns [null] and the traversal
    ends with "next-disabled", not with "no-next-page". *)
Lemma failed_clicks_end_with_next_disabled :
  exists r w',
    @scrapeListing example_builtins browser (simulated stuck_site) onsale_query start
    = (Ok (Some r), w') /\
    clicked w' = [2%Z; 2%Z; 2%Z; 2%Z; 2%Z] /\ active w' = 1%Z /\
    Result.pageCount r = 1%nat /\
    Result.stoppedReason r = "next-disabled" /\
    Result.stoppedReason r <> "no-next-page".
Proof.
  eexists. eexists. split; [vm_compute; reflexivity|].
  repeat split; try (vm_compute; reflexivity). vm_compute. discriminate.
Qed.

End SimulatedRuns.

(* ===================================================================== *)
(** * The publish guard in a run of [main] *)
(* ===================================================================== *)

Section MainFacts.

Context {builtins : Builtins} {W : Type} {surface : Surface W}.

Lemma scrapeListing_returns q (w : W) r w' :
  scrapeListing q w = (Ok r, w') -> exists result, r = Some result.
Proof.
  unfold scrapeListing. intros H. inv_bind H.
  destruct (listing_loop_exit _ _ _ _ _ _ _ loop_entry_initial Hc) as (final & -> & _).
  injection H as <- _. by eexists.
Qed.

Lemma run_queries_returns qs result (w : W) r w' :
  run_queries qs result w = (Ok r, w') -> exists found, r = Some found.
Proof.
  revert result w. induction qs as [|q qs IH]; intros result w; simpl.
  { intros [= <- _]. by eexists. }
  intros H. inv_bind H.
  destruct (scrapeListing_returns _ _ _ _ Hc) as [runResult ->].
  destruct (0 <? length (Result.items runResult))%nat.
  - injection H as <- _. by eexists.
  - by apply IH in H.
Qed.

(** [main] up to the publish step never ends out of fuel. *)
Lemma collect_returns (w : W) r w' :
  collect w = (Ok r, w') -> exists collected, r = Some collected.
Proof.
  unfold collect. intros H. inv_bind H. inv_bind H. inv_bind H.
  destruct (run_queries_returns _ _ _ _ _ Hc1) as [found ->].
  inv_bind H. inv_bind H. injection H as <- _. by eexists.
Qed.

(** [main] is its first part followed by the publish step, which alone
    changes the output directory. *)
Lemma main_eq (w : W) (files : store) :
  main (w, files) =
  match collect w with
  | (Ok (Some (enrichedItems, pagesScraped)), w') =>
      match publish enrichedItems pagesScraped files with
      | (Ok _, files') => (Ok (Some tt), (w', files'))
      | (Throw e, files') => (Throw e, (w', files'))
      end
  | (Ok None, w') => (Ok None, (w', files))
  | (Throw e, w') => (Throw e, (w', files))
  end.
Proof.
  unfold main, bind, on_fst, on_snd, ret.
  destruct (collect w) as [[[[enrichedItems pagesScraped]|]|e] w']; try done.
  by destruct (publish enrichedItems pagesScraped files) as [[[]|e] files'].
Qed.

End MainFacts.

Section MainClaims.

Context {builtins : Builtins} {W : Type} {surface : Surface W}.

(** C2. In a run of [main] that gets to the publish step: the historical
    count is the count of the prior metadata when it has one, else the
    length of the prior data file when it is an array, else zero; when no
    record was collected and the historical count is greater than zero, the
    run throws and every file of the output directory is as it was; when no
    record was collected and the historical count is not greater than zero,
    the run returns and has written the metadata alone; when records were
    collected, the run returns and has written the dataset, as JSON and as
    CSV, and the metadata. *)
Theorem main_publish_guard (w : W) (files : store) (enrichedItems : list item)
    (pagesScraped : nat) (w' : W) :
  collect w = (Ok (Some (enrichedItems, pagesScraped)), w') ->
  let historicalCount := historical_count files in
  let metadata := JsonText (metadata_json pagesScraped (length enrichedItems)) in
  (forall n, metadata_count files = Some n -> historicalCount = n) /\
  (metadata_count files = None ->
   forall elements, read_json data_json_path files = Some (JArr elements) ->
   historicalCount = of_Z (Z.of_nat (length elements))) /\
  (metadata_count files = None -> files !! data_json_path = None ->
   historicalCount = zero) /\
  (enrichedItems = [] -> Number.gt historicalCount zero = true ->
   main (w, files) = (Throw (ZeroItemsRegression historicalCount), (w', files))) /\
  (enrichedItems = [] -> Number.gt historicalCount zero = false ->
   exists files',
     main (w, files) = (Ok (Some tt), (w', files')) /\
     files' = <[metadata_path := metadata]> files /\
     files' !! data_json_path = files !! data_json_path /\
     files' !! data_csv_path = files !! data_csv_path) /\
  (enrichedItems <> [] ->
   exists files',
     main (w, files) = (Ok (Some tt), (w', files')) /\
     files' !! data_json_path = Some (JsonText (JArr (map json_of_item enrichedItems))) /\
     files' !! data_csv_path = Some (CsvText enrichedItems) /\
     files' !! metadata_path = Some metadata).
Proof.
  intros Hcollect historicalCount metadata.
  destruct (publish_cases enrichedItems pagesScraped files)
    as (_ & H1 & H2 & H3 & H4 & H5 & H6).
  split; [done|]. split; [done|]. split; [done|].
  split; [|split].
  - intros Hnil Hgt. rewrite main_eq, Hcollect. by rewrite (H4 Hnil Hgt).
  - intros Hnil Hgt. destruct (H5 Hnil Hgt) as (files' & Hp & Hrest).
    exists files'. split; [|done]. rewrite main_eq, Hcollect. by rewrite Hp.
  - intros Hne. destruct (H6 Hne) as (files' & Hp & Hrest).
    exists files'. split; [|done]. rewrite main_eq, Hcollect. by rewrite Hp.
Qed.

End MainClaims.

Section MainRuns.

(** C2, witness: the site shows no card. With 120 records published
    before, the run throws and the output directory is as it was; with an
    empty output directory the run returns and the metadata is the one file
    of the directory. *)
Lemma main_publish_guard_empty_site :
  @main example_builtins browser (simulated empty_site) (start, published_120)
  = (Throw (ZeroItemsRegression (of_Z 120)), (snd empty_collect, published_120)) /\
  @main example_builtins browser (simulated empty_site) (start, ∅)
  = (Ok (Some tt),
     (snd empty_collect, {[ metadata_path := JsonText (metadata_json 1 0) ]})).
Proof.
  assert (Hcollect : @collect example_builtins browser (simulated empty_site) start
                     = (Ok (Some ([], 1%nat)), snd empty_collect))
    by (vm_compute; reflexivity).
  split.
  - destruct (@main_publish_guard example_builtins browser (simulated empty_site)
                start published_120 [] 1%nat (snd empty_collect) Hcollect)
      as (_ & _ & _ & Hthrow & _).
    rewrite Hthrow; [|done|vm_compute; reflexivity].
    assert (Hcount : historical_count published_120 = of_Z 120)
      by (vm_compute; reflexivity).
    by rewrite Hcount.
  - destruct (@main_publish_guard example_builtins browser (simulated empty_site)
                start ∅ [] 1%nat (snd empty_collect) Hcollect)
      as (_ & _ & _ & _ & Hmeta & _).
    destruct Hmeta as (files' & -> & -> & _); [done|vm_compute; reflexivity|].
    by rewrite insert_empty.
Defined.

End MainRuns.

(* ===================================================================== *)
(** * More of the normalizer *)
(* ===================================================================== *)

(** X1. What [normalizeWhitespace] returns for a string: a string whose
    only white space is the space character, without two spaces in a row
    and without white space at its start or at its end; the code units
    that are not white space are those of the input, in their order. For
    [null] it returns [null]. *)
Theorem normalizeWhitespace_canonical (value : jstring) :
  normalizeWhitespace None = None /\
  exists out,
    normalizeWhitespace (Some value) = Some out /\
    (forall c, c ∈ out -> is_space c = true -> c = 32%N) /\
    includes out (space ++ space) = false /\
    (forall c, head out = Some c -> is_space c = false) /\
    (forall c, last out = Some c -> is_space c = false) /\
    filter (fun c => is_space c = false) out = filter (fun c => is_space c = false) value.
Proof.
  split; [done|]. eexists. split; [reflexivity|].
  set (r := replace_runs is_space space value).
  assert (Hp : only_of is_space 32 r) by apply replace_runs_only.
  rewrite (replace_each_id _ _ r) by by apply only_space_no_nbsp.
  destruct (trim_infix r) as (a & b & Hr).
  split; [|split; [|split; [|split]]].
  - intros c Hc. unfold only_of in Hp. rewrite Forall_forall in Hp. apply Hp.
    rewrite Hr. apply elem_of_app. right. apply elem_of_app. by left.
  - apply not_true_is_false. intros (a' & b' & H)%includes_infix.
    destruct (replace_runs_no_pair is_space 32 false value eq_refl) as [Hs _].
    apply no_pair_infix in Hs. apply Hs.
    change (replace_runs_from is_space [32%N] false value) with r. rewrite Hr, H. exists (a ++ a'), (b' ++ b). by rewrite <- !app_assoc.
  - apply trim_head.
  - apply trimEnd_last.
  - unfold trim. rewrite filter_trimEnd, filter_trimStart. apply filter_replace_runs.
Qed.

(** X2. [normalizeWhitespace] is idempotent: what it returns is a string
    that it leaves as it is. *)
Theorem normalizeWhitespace_idempotent (value : option jstring) :
  normalizeWhitespace (normalizeWhitespace value) = normalizeWhitespace value.
Proof.
  destruct value as [v|]; [|done]. simpl. f_equal.
  set (r := replace_runs is_space space v).
  assert (Hp : only_of is_space 32 r) by apply replace_runs_only.
  rewrite (replace_each_id _ _ r) by by apply only_space_no_nbsp.
  set (out := trim r).
  destruct (trim_infix r) as (a & b & Hr). fold out in Hr.
  assert (Hpo : only_of is_space 32 out).
  { unfold only_of in *. rewrite Hr in Hp.
    apply Forall_app in Hp as [_ Hp]. by apply Forall_app in Hp as [Hp _]. }
  assert (Hso : no_pair 32 out).
  { apply no_pair_infix. intros (a' & b' & H).
    destruct (replace_runs_no_pair is_space 32 false v eq_refl) as [Hs _].
    apply no_pair_infix in Hs. apply Hs.
    change (replace_runs_from is_space [32%N] false v) with r. rewrite Hr, H. exists (a ++ a'), (b' ++ b). by rewrite <- !app_assoc. }
  unfold replace_runs at 1. rewrite replace_runs_id by done.
  rewrite replace_each_id by by apply only_space_no_nbsp.
  unfold trim at 1. rewrite trimStart_id by apply trim_head.
  apply trimEnd_id. apply trimEnd_last.
Qed.

Section NumberTextFacts.

Implicit Types (s t : jstring) (c : N).

Lemma replace_runs_from_delete p in_run s :
  replace_runs_from p [] in_run s = filter (fun c => p c = false) s.
Proof.
  revert in_run. induction s as [|c s IH]; intros in_run; simpl; [done|].
  destruct (p c) eqn:Hc.
  - rewrite filter_cons_False by (rewrite Hc; done). rewrite IH. by destruct in_run.
  - rewrite filter_cons_True by done. by rewrite IH.
Qed.

Lemma replace_each_delete p s : replace_each p [] s = filter (fun c => p c = false) s.
Proof.
  unfold replace_each. induction s as [|c s IH]; simpl; [done|].
  destruct (p c) eqn:Hc.
  - by rewrite filter_cons_False by (rewrite Hc; done).
  - rewrite filter_cons_True by done. by rewrite IH.
Qed.

Lemma replace_each_comma s : replace_each is_comma (str ".") s = map comma_to_dot s.
Proof.
  unfold replace_each, comma_to_dot. induction s as [|c s IH]; simpl; [done|].
  rewrite IH. by destruct (is_comma c).
Qed.

(** The cleaning chain keeps the digits, the dots and the commas, and
    writes the commas as dots. *)
Lemma clean_number_text_eq s :
  clean_number_text s = map comma_to_dot (filter (fun c => kept_in_number c = true) s).
Proof.
  unfold clean_number_text, replace_runs.
  rewrite replace_runs_from_delete, !replace_each_delete, replace_each_comma.
  induction s as [|c s IH]; [done|].
  destruct (kept_in_number c) eqn:Hk.
  - rewrite (filter_cons_True (fun c => kept_in_number c = true)) by done.
    assert (Hb : (44 <= c <= 57)%N).
    { unfold kept_in_number, dot_or_comma, is_digit, is_dot, is_comma in Hk.
      repeat (apply orb_true_iff in Hk as [Hk|Hk]);
        repeat match goal with
               | H : (_ && _) = true |- _ => apply andb_true_iff in H as [? ?]
               | H : (_ <=? _)%N = true |- _ => apply N.leb_le in H
               | H : (_ =? _)%N = true |- _ => apply N.eqb_eq in H
               end; lia. }
    assert (Hsp : is_space c = false).
    { destruct (is_space c) eqn:Hsp; [|done]. exfalso.
      unfold is_space in Hsp.
      repeat (apply orb_true_iff in Hsp as [Hsp|Hsp]);
        repeat match goal with
               | H : (_ && _) = true |- _ => apply andb_true_iff in H as [? ?]
               | H : (_ <=? _)%N = true |- _ => apply N.leb_le in H
               | H : (_ =? _)%N = true |- _ => apply N.eqb_eq in H
               end; lia. }
    assert (Hd : is_dollar c = false).
    { unfold is_dollar. apply N.eqb_neq. lia. }
    rewrite (filter_cons_True (fun c => is_space c = false)) by done.
    rewrite (filter_cons_True (fun c => is_dollar c = false)) by done.
    cbn [map]. rewrite filter_cons_True; [by rewrite IH|].
    unfold not_digit_or_dot, comma_to_dot. apply negb_false_iff.
    unfold kept_in_number, dot_or_comma in Hk.
    destruct (is_comma c) eqn:Hcomma; [done|]. by rewrite orb_false_r in Hk.
  - rewrite (filter_cons_False (fun c => kept_in_number c = true)) by (rewrite Hk; done).
    rewrite <- IH.
    assert (Hcomma : is_comma c = false).
    { unfold kept_in_number, dot_or_comma in Hk. destruct (is_comma c); [|done].
      by rewrite !orb_true_r in Hk. }
    assert (Hdd : not_digit_or_dot c = true).
    { unfold not_digit_or_dot. apply negb_true_iff.
      unfold kept_in_number, dot_or_comma in Hk. rewrite Hcomma, orb_false_r in Hk. done. }
    destruct (is_space c) eqn:Hsp.
    { by rewrite (filter_cons_False (fun c => is_space c = false)) by (rewrite Hsp; done). }
    rewrite (filter_cons_True (fun c => is_space c = false)) by done.
    destruct (is_dollar c) eqn:Hd.
    { by rewrite (filter_cons_False (fun c => is_dollar c = false)) by (rewrite Hd; done). }
    rewrite (filter_cons_True (fun c => is_dollar c = false)) by done.
    cbn [map]. unfold comma_to_dot at 1. rewrite Hcomma.
    by rewrite filter_cons_False by (rewrite Hdd; done).
Qed.

Lemma parseNumber_eq s :
  parseNumber (Some s) =
  let cleaned := clean_number_text s in
  if JsString.truthy cleaned
  then (if isFinite (parseFloat cleaned) then Some (parseFloat cleaned) else None)
  else None.
Proof.
  unfold parseNumber. destruct s as [|c s]; [done|]. simpl.
  by destruct (clean_number_text (c :: s)).
Qed.

Lemma kept_comma_to_dot c : kept_in_number (comma_to_dot c) = kept_in_number c.
Proof.
  unfold comma_to_dot. destruct (is_comma c) eqn:Hc; [|done].
  unfold is_comma in Hc. by apply N.eqb_eq in Hc as ->.
Qed.

Lemma comma_to_dot_idemp c : comma_to_dot (comma_to_dot c) = comma_to_dot c.
Proof. unfold comma_to_dot. by destruct (is_comma c) eqn:Hc; [|rewrite Hc]. Qed.

Lemma filter_kept_map s :
  filter (fun c => kept_in_number c = true) (map comma_to_dot s)
  = map comma_to_dot (filter (fun c => kept_in_number c = true) s).
Proof.
  induction s as [|c s IH]; [done|]. cbn [map].
  destruct (kept_in_number c) eqn:Hk.
  - rewrite !filter_cons_True by (by rewrite ?kept_comma_to_dot). cbn [map]. by rewrite IH.
  - by rewrite !filter_cons_False by (rewrite ?kept_comma_to_dot, Hk; done).
Qed.

Lemma filter_idemp {A} (P : A -> Prop) `{forall x, Decision (P x)} (l : list A) :
  filter P (filter P l) = filter P l.
Proof.
  induction l as [|x l IH]; [done|].
  destruct (decide (P x)).
  - rewrite !filter_cons_True by done. by rewrite IH.
  - by rewrite filter_cons_False by done.
Qed.

End NumberTextFacts.

(** X3. [parseNumber] reads the digits, the dots and the commas of its
    input and nothing else: every other code unit (a sign, a currency
    symbol, a letter, white space) can be taken out without changing the
    result; and a comma reads as a dot. *)
Theorem parseNumber_kept_text (value : jstring) :
  parseNumber (Some value)
  = parseNumber (Some (filter (fun c => kept_in_number c = true) value)) /\
  parseNumber (Some value) = parseNumber (Some (map comma_to_dot value)).
Proof.
  rewrite !parseNumber_eq, !clean_number_text_eq. split.
  - by rewrite filter_idemp.
  - rewrite filter_kept_map, map_map.
    by rewrite (map_ext _ comma_to_dot comma_to_dot_idemp).
Qed.

Section DecimalTextFacts.

Implicit Types (s t : jstring) (c : N).

Lemma exponent_part_no_letter s :
  (forall c, head s = Some c -> c <> 101%N /\ c <> 69%N) -> exponent_part s = 0%Z.
Proof.
  destruct s as [|c s]; [done|]. intros H. destruct (H c eq_refl) as [H1 H2].
  unfold exponent_part. apply N.eqb_neq in H1, H2. by rewrite H1, H2.
Qed.

(** [parseFloat] on digits, a dot, digits, and a rest that starts with
    neither a digit nor an exponent letter. *)
Lemma parseFloat_decimal i f rest :
  i <> [] ->
  Forall (fun c => is_digit c = true) i ->
  Forall (fun c => is_digit c = true) f ->
  (forall c, head rest = Some c -> is_digit c = false /\ c <> 101%N /\ c <> 69%N) ->
  parseFloat (i ++ 46%N :: f ++ rest)
  = round false (digits_value (i ++ f)) (10 ^ Z.of_nat (length f)).
Proof.
  intros Hne Hi Hf Hrest. unfold parseFloat.
  destruct i as [|d i]; [done|]. inversion Hi as [|? ? Hd Hi']; subst.
  assert (Hdig : (48 <= d <= 57)%N).
  { unfold is_digit in Hd. apply andb_true_iff in Hd as [H1 H2].
    apply N.leb_le in H1, H2. lia. }
  assert (Hstart : trimStart ((d :: i) ++ 46%N :: f ++ rest) = (d :: i) ++ 46%N :: f ++ rest).
  { simpl. replace (is_space d) with false; [done|]. symmetry.
    unfold is_space.
    repeat (apply orb_false_iff; split);
      try (apply andb_false_iff; left; apply N.leb_gt; lia);
      try (apply andb_false_iff; right; apply N.leb_gt; lia);
      apply N.eqb_neq; lia. }
  rewrite Hstart. cbn [app].
  replace (d =? 45)%N with false by (symmetry; apply N.eqb_neq; lia).
  replace (d =? 43)%N with false by (symmetry; apply N.eqb_neq; lia).
  replace (startsWith (d :: i ++ 46%N :: f ++ rest) infinity_word) with false.
  2:{ symmetry. apply not_true_is_false. intros [k Hk]%startsWith_prefix.
      injection Hk as -> _. lia. }
  change (d :: i ++ 46%N :: f ++ rest) with ((d :: i) ++ 46%N :: f ++ rest).
  rewrite (span_run is_digit (d :: i) (46%N :: f ++ rest)); [|done|by intros c [= <-]].
  cbn [N.eqb Pos.eqb].
  rewrite (span_run is_digit f rest); [|done|intros c Hc; by apply Hrest].
  rewrite exponent_part_no_letter by (intros c Hc; by apply Hrest).
  destruct ((d :: i) ++ f) as [|x l] eqn:Hds; [done|]. rewrite <- Hds.
  f_equal.
  - replace (Z.max 0 (0 - Z.of_nat (length f))) with 0%Z by lia. simpl. lia.
  - f_equal. lia.
Qed.

Lemma filter_kept_digits i :
  Forall (fun c => is_digit c = true) i ->
  map comma_to_dot (filter (fun c => kept_in_number c = true) i) = i.
Proof.
  induction 1 as [|c i Hc _ IH]; [done|].
  rewrite filter_cons_True by (unfold kept_in_number; by rewrite Hc).
  cbn [map]. rewrite IH. f_equal.
  unfold comma_to_dot. destruct (is_comma c) eqn:Hcomma; [|done].
  unfold is_comma in Hcomma. apply N.eqb_eq in Hcomma as ->. done.
Qed.

End DecimalTextFacts.

(** X4. A price text: code units that [parseNumber] does not keep, then an
    integer part of one digit or more, a dot or a comma, a fraction of
    digits, and a rest in which the first code unit that [parseNumber]
    keeps, if any, is not a digit. [parseNumber] reads the double nearest
    to the integer part and the fraction as a decimal number, and the rest
    does not count: [1,234.56] is read as [1.234]. The result is [null]
    when that double is an infinity. *)
Theorem parseNumber_decimal_text (pre i : jstring) (sep : N) (f rest : jstring) :
  filter (fun c => kept_in_number c = true) pre = [] ->
  digits1 i ->
  dot_or_comma sep = true ->
  Forall (fun c => is_digit c = true) f ->
  (forall c, head (filter (fun c => kept_in_number c = true) rest) = Some c ->
             is_digit c = false) ->
  let x := round false (digits_value (i ++ f)) (10 ^ Z.of_nat (length f)) in
  parseNumber (Some (pre ++ i ++ sep :: f ++ rest))
  = if isFinite x then Some x else None.
Proof.
  intros Hpre [Hne Hi] Hsep Hf Hrest x.
  rewrite parseNumber_eq, clean_number_text_eq.
  rewrite filter_app, Hpre, filter_app, filter_cons_True, filter_app
    by (unfold kept_in_number; by rewrite Hsep, orb_true_r).
  cbn [app]. rewrite map_app. cbn [map]. rewrite map_app.
  rewrite !filter_kept_digits by done.
  assert (Hsep' : comma_to_dot sep = 46%N).
  { unfold comma_to_dot. destruct (is_comma sep) eqn:Hc; [done|].
    unfold dot_or_comma in Hsep. rewrite Hc, orb_false_r in Hsep.
    unfold is_dot in Hsep. by apply N.eqb_eq in Hsep. }
  rewrite Hsep'.
  set (rest' := map comma_to_dot (filter (fun c => kept_in_number c = true) rest)).
  assert (Hrest' : forall c, head rest' = Some c ->
                             is_digit c = false /\ c <> 101%N /\ c <> 69%N).
  { intros c Hc. unfold rest' in Hc.
    destruct (filter (fun c => kept_in_number c = true) rest) as [|c0 r] eqn:Hfil; [done|].
    simpl in Hc. injection Hc as <-.
    assert (Hk : kept_in_number c0 = true).
    { assert (Hin : c0 ∈ filter (fun c => kept_in_number c = true) rest)
        by (rewrite Hfil; apply list_elem_of_here).
      by apply list_elem_of_filter in Hin as [Hk _]. }
    pose proof (Hrest c0 eq_refl) as Hnd.
    unfold kept_in_number in Hk. rewrite Hnd in Hk. simpl in Hk.
    assert (Hdot : comma_to_dot c0 = 46%N).
    { unfold comma_to_dot. destruct (is_comma c0) eqn:Hc; [done|].
      unfold dot_or_comma in Hk. rewrite Hc, orb_false_r in Hk.
      unfold is_dot in Hk. by apply N.eqb_eq in Hk. }
    rewrite Hdot. done. }
  rewrite parseFloat_decimal by done. fold x.
  destruct i as [|d i]; [done|]. done.
Qed.

(** X4, witness: [$ 4,99 / kg] is read as 4.99 and [1,234.56] as 1.234. *)
Lemma parseNumber_decimal_text_examples :
  parseNumber (Some (str "$ 4,99 / kg")) = Some (Fin false 5618240535144694 (-50)) /\
  parseNumber (Some (str "1,234.56")) = Some (Fin false 5557441940175192 (-52)).
Proof.
  split.
  - apply (parseNumber_decimal_text (str "$ ") (str "4") 44%N (str "99") (str " / kg"));
      [reflexivity|split; [done|by repeat constructor]|reflexivity
      |by repeat constructor|by vm_compute].
  - apply (parseNumber_decimal_text [] (str "1") 44%N (str "234") (str ".56"));
      [reflexivity|split; [done|by repeat constructor]|reflexivity
      |by repeat constructor|vm_compute; by intros c [= <-]].
Defined.

Section SkuPattern.

Implicit Types (s a b d : jstring) (cs : captures).

(** What the pattern of [extractSkuFromUrl] matches: a hyphen, a run of
    three digits or more, and a code unit that is not a digit or the end of
    the text. *)
Lemma sku_in_url_re_elim a b cs :
  matches sku_in_url_re a b cs ->
  exists d tail,
    a = 45%N :: d ++ tail /\ cs = [(1%nat, d)] /\
    Forall (fun c => is_digit c = true) d /\ (3 <= length d)%nat /\
    ((exists x, tail = [x] /\ is_digit x = false) \/ (tail = [] /\ b = [])).
Proof.
  intros Hm. unfold sku_in_url_re in Hm. simpl in Hm.
  apply matches_cat_inv in Hm as (a1 & r1 & c1 & e1 & -> & -> & Hm1 & Hm).
  apply matches_cat_inv in Hm as (d & r2 & c2 & e2 & -> & -> & Hm2 & Hm).
  apply matches_cat_inv in Hm as (tail & r3 & c3 & e3 & -> & -> & Hm3 & Hm).
  apply matches_eps_inv in Hm as [-> ->].
  apply matches_class_inv in Hm1 as (x & -> & Hx & ->). apply N.eqb_eq in Hx as <-.
  apply matches_group_inv in Hm2 as (c2' & -> & Hm2).
  apply matches_cat_inv in Hm2 as (d1 & q1 & f1 & g1 & -> & -> & Hd1 & Hm2).
  apply matches_cat_inv in Hm2 as (d2 & q2 & f2 & g2 & -> & -> & Hd2 & Hm2).
  apply matches_cat_inv in Hm2 as (d3 & q3 & f3 & g3 & -> & -> & Hd3 & Hm2).
  apply matches_cat_inv in Hm2 as (d4 & q4 & f4 & g4 & -> & -> & Hd4 & Hm2).
  apply matches_eps_inv in Hm2 as [-> ->].
  apply matches_class_inv in Hd1 as (x1 & -> & Hx1 & ->).
  apply matches_class_inv in Hd2 as (x2 & -> & Hx2 & ->).
  apply matches_class_inv in Hd3 as (x3 & -> & Hx3 & ->).
  apply matches_star_class_elim in Hd4 as [Hd4 ->].
  assert (Ht : c3 = [] /\
               ((exists x, tail = [x] /\ is_digit x = false) \/ (tail = [] /\ b = []))).
  { apply matches_alt_inv in Hm3 as [Hm3|Hm3].
    - apply matches_class_inv in Hm3 as (y & -> & Hy & ->). split; [done|].
      left. exists y. split; [done|]. by apply negb_true_iff.
    - apply matches_eos_inv in Hm3 as (-> & Hb & ->). split; [done|]. by right. }
  destruct Ht as [-> Ht].
  rewrite !app_nil_r. exists ([x1] ++ [x2] ++ [x3] ++ d4), tail.
  split; [done|]. split; [done|].
  split; [by repeat constructor|]. split; [simpl; lia|done].
Qed.

Lemma sku_in_url_re_intro d tail b :
  Forall (fun c => is_digit c = true) d -> (3 <= length d)%nat ->
  ((exists x, tail = [x] /\ is_digit x = false) \/ (tail = [] /\ b = [])) ->
  matches sku_in_url_re (45%N :: d ++ tail) b [(1%nat, d)].
Proof.
  intros Hd Hlen Htail. unfold sku_in_url_re. simpl.
  destruct d as [|x1 [|x2 [|x3 d4]]]; simpl in Hlen; try lia.
  inversion Hd as [|? ? H1 Hd1]; subst. inversion Hd1 as [|? ? H2 Hd2]; subst.
  inversion Hd2 as [|? ? H3 Hd3]; subst.
  apply (M_cat _ _ [45%N] _ b [] [(1%nat, x1 :: x2 :: x3 :: d4)]); [by constructor|].
  apply (M_cat _ _ (x1 :: x2 :: x3 :: d4) tail b [(1%nat, x1 :: x2 :: x3 :: d4)] []).
  - constructor.
    apply (M_cat _ _ [x1] (x2 :: x3 :: d4) _ [] []); [by constructor|].
    apply (M_cat _ _ [x2] (x3 :: d4) _ [] []); [by constructor|].
    apply (M_cat _ _ [x3] d4 _ [] []); [by constructor|].
    rewrite <- (app_nil_r d4) at 1.
    apply (M_cat _ _ d4 [] _ [] []); [|constructor].
    by apply matches_star_class_intro.
  - rewrite <- (app_nil_r tail) at 1.
    apply (M_cat _ _ tail [] b [] []); [|constructor].
    destruct Htail as [(x & -> & Hx)|[-> ->]].
    + apply M_alt_l. constructor. by apply negb_true_iff.
    + apply M_alt_r. constructor.
Qed.

(** A hyphen followed by three digits or more is the start of a match. *)
Lemma sku_at_matches u pre d :
  sku_at u pre d -> exists a b cs, u = pre ++ a ++ b /\ matches sku_in_url_re a b cs.
Proof.
  intros (post & -> & Hd & Hlen).
  pose proof (span_app is_digit post) as Hspan.
  pose proof (span_Forall is_digit post) as Hmore.
  pose proof (span_head is_digit post) as Hnext.
  destruct (span is_digit post) as [more rest]. simpl in *. subst post.
  assert (Hd' : Forall (fun c => is_digit c = true) (d ++ more)) by by apply Forall_app.
  assert (Hlen' : (3 <= length (d ++ more))%nat) by (rewrite length_app; lia).
  destruct rest as [|x rest].
  - exists (45%N :: (d ++ more) ++ []), [], [(1%nat, d ++ more)]. split.
    + by rewrite !app_nil_r.
    + apply sku_in_url_re_intro; [done|done|by right].
  - exists (45%N :: (d ++ more) ++ [x]), rest, [(1%nat, d ++ more)]. split.
    + simpl. by rewrite <- !app_assoc.
    + apply sku_in_url_re_intro; [done|done|]. left. exists x. split; [done|].
      by apply Hnext.
Qed.

End SkuPattern.

(** X5. [extractSkuFromUrl] returns the digits that follow the first
    hyphen of the address that is followed by three digits or more, up to
    the first code unit that is not a digit; it returns [null] when the
    address has no hyphen followed by three digits, and for an address that
    is empty or [null]. *)
Theorem extractSkuFromUrl_spec (u : jstring) :
  extractSkuFromUrl None = None /\
  extractSkuFromUrl (Some []) = None /\
  (forall sku,
     extractSkuFromUrl (Some u) = Some sku ->
     exists pre post,
       u = pre ++ 45%N :: sku ++ post /\
       Forall (fun c => is_digit c = true) sku /\ (3 <= length sku)%nat /\
       (forall c, head post = Some c -> is_digit c = false) /\
       (forall pre' d', sku_at u pre' d' -> (length pre <= length pre')%nat)) /\
  (extractSkuFromUrl (Some u) = None <-> forall pre d, ~ sku_at u pre d).
Proof.
  split; [done|]. split; [done|].
  assert (Heq : extractSkuFromUrl (Some u) =
                match search sku_in_url_re u with
                | Some m => group 1 m ||| None
                | None => None
                end).
  { destruct u as [|c u]; reflexivity. }
  assert (Hfound : forall m, search sku_in_url_re u = Some m ->
            exists pre d tail b,
              u = pre ++ (45%N :: d ++ tail) ++ b /\ m = [(1%nat, d)] /\
              Forall (fun c => is_digit c = true) d /\ (3 <= length d)%nat /\
              ((exists x, tail = [x] /\ is_digit x = false) \/ (tail = [] /\ b = [])) /\
              (forall pre' d', sku_at u pre' d' -> (length pre <= length pre')%nat)).
  { intros m Hs. apply search_leftmost in Hs as (pre & a & b & Hu & Hm & Hleft).
    apply sku_in_url_re_elim in Hm as (d & tail & -> & -> & Hd & Hlen & Htail).
    exists pre, d, tail, b. repeat (split; [done|]).
    intros pre' d' Hat. destruct (sku_at_matches _ _ _ Hat) as (a' & b' & cs' & Hu' & Hm').
    by apply (Hleft pre' a' b' cs'). }
  split.
  - intros sku. rewrite Heq. destruct (search sku_in_url_re u) as [m|] eqn:Hs; [|done].
    destruct (Hfound m eq_refl) as (pre & d & tail & b & Hu & -> & Hd & Hlen & Htail & Hleft).
    simpl. destruct d as [|x d]; [simpl in Hlen; lia|]. simpl. intros [= <-].
    exists pre, (tail ++ b). split; [rewrite Hu; simpl; by rewrite <- app_assoc|].
    repeat (split; [done|]). split; [|done].
    intros c. destruct Htail as [(y & -> & Hy)|[-> ->]]; [|done]. by intros [= <-].
  - rewrite Heq. split.
    + destruct (search sku_in_url_re u) as [m|] eqn:Hs.
      * destruct (Hfound m eq_refl) as (pre & d & tail & b & Hu & -> & Hd & Hlen & _).
        destruct d as [|x d]; [simpl in Hlen; lia|]. done.
      * intros _ pre d Hat.
        destruct (sku_at_matches _ _ _ Hat) as (a & b & cs & -> & Hm).
        destruct (search_complete _ pre a b cs Hm) as [m Hm']. congruence.
    + intros Hno. destruct (search sku_in_url_re u) as [m|] eqn:Hs; [|done].
      destruct (Hfound m eq_refl) as (pre & d & tail & b & Hu & -> & Hd & Hlen & _).
      exfalso. apply (Hno pre d). exists (tail ++ b). split; [|done].
      rewrite Hu. simpl. by rewrite <- app_assoc.
Qed.

(* ===================================================================== *)
(** * Pagers and page numbers *)
(* ===================================================================== *)

Section PagerFacts.

Local Open Scope N_scope.

Implicit Types (s t a b : jstring) (c x : N).








End PagerFacts.



Section MaxPageFacts.

Local Open Scope Z_scope.

Lemma fold_max_spec (l : list Z) (acc : option Z) :
  let r := fold_left (fun max value =>
                        match max with
                        | None => Some value
                        | Some m => Some (Z.max m value)
                        end) l acc in
  (r = None <-> acc = None /\ l = []) /\
  forall m, r = Some m ->
            (acc = Some m \/ m ∈ l) /\
            (forall a, acc = Some a -> a <= m) /\
            (forall x, x ∈ l -> x <= m).
Proof.
  revert acc. induction l as [|x l IH]; intros acc; simpl.
  - split; [split; [done|by intros [-> _]]|].
    intros m ->. split; [by left|]. split; [by intros a [= ->]|].
    intros x Hx. by apply elem_of_nil in Hx.
  - destruct (IH (match acc with None => Some x | Some m => Some (Z.max m x) end))
      as [Hnone Hsome].
    split.
    + split; [|by intros [_ ?]]. intros Hr. apply Hnone in Hr as [Hr _]. by destruct acc.
    + intros m Hm. destruct (Hsome m Hm) as (Hin & Hacc & Hall).
      split; [|split].
      * destruct Hin as [Hin|Hin]; [|right; by apply list_elem_of_further].
        destruct acc as [a|]; injection Hin as <-.
        -- destruct (Z.max_spec a x) as [[_ ->]|[_ ->]];
             [right; apply list_elem_of_here|by left].
        -- right. apply list_elem_of_here.
      * intros a ->. specialize (Hacc _ eq_refl). lia.
      * intros y [->|Hy]%elem_of_cons; [|by apply Hall].
        destruct acc as [a|]; specialize (Hacc _ eq_refl); lia.
Qed.

End MaxPageFacts.

(** X7. [getMaxPageFromButtons] returns [null] for no page number, and
    else the greatest of the page numbers. *)
Theorem getMaxPageFromButtons_spec (paginationButtons : list Z) :
  (getMaxPageFromButtons paginationButtons = None <-> paginationButtons = []) /\
  forall m, getMaxPageFromButtons paginationButtons = Some m ->
            m ∈ paginationButtons /\ forall x, x ∈ paginationButtons -> (x <= m)%Z.
Proof.
  destruct paginationButtons as [|b l]; [by split|].
  unfold getMaxPageFromButtons.
  destruct (fold_max_spec (b :: l) None) as [Hnone Hsome]. cbv zeta in Hnone, Hsome.
  split.
  - split; [|done]. intros Hr. apply Hnone in Hr as [_ Hr]. done.
  - intros m Hm. destruct (Hsome m Hm) as ([Hin|Hin] & _ & Hall); [done|]. by split.
Qed.

Section PaginationInfoFacts.

Context {builtins : Builtins}.

Local Open Scope Z_scope.

(** The fold of [getPaginationInfo] over the page numbers of the links. *)
Lemma getPaginationInfo_fold links baseUrl :
  getPaginationInfo links baseUrl =
  fold_left (fun maxPage n =>
               match maxPage with
               | Some m => if m =? 0 then Some n else Some (Z.max m n)
               | None => Some n
               end) (omap (link_page baseUrl) links) None.
Proof.
  unfold getPaginationInfo.
  set (step := fun (maxPage : option Z) (n : Z) =>
                 match maxPage with
                 | Some m => if m =? 0 then Some n else Some (Z.max m n)
                 | None => Some n
                 end).
  set (body := fun (maxPage : option Z) (href : option jstring) => _).
  assert (Hbody : forall acc href,
            body acc href = match link_page baseUrl href with
                            | Some n => step acc n
                            | None => acc
                            end).
  { intros acc href. unfold body, link_page. destruct href as [h|]; [|done].
    destruct h as [|c h]; [done|]. cbn [JsString.truthy negb].
    by destruct (url_search_param (c :: h) baseUrl (str "page")) as [[[|d p]|]|]. }
  clearbody body. generalize (@None Z).
  induction links as [|href links IH]; intros acc; [done|].
  cbn [fold_left omap list_omap]. rewrite IH, Hbody.
  by destruct (link_page baseUrl href).
Qed.

Lemma fold_pages_spec (l : list Z) (acc : option Z) :
  let r := fold_left (fun maxPage n =>
                        match maxPage with
                        | Some m => if m =? 0 then Some n else Some (Z.max m n)
                        | None => Some n
                        end) l acc in
  (r = None <-> acc = None /\ l = []) /\
  forall m, r = Some m ->
            (acc = Some m \/ m ∈ l) /\
            ((forall x, x ∈ l -> 0 <= x) ->
             (forall a, acc = Some a -> 0 <= a) ->
             (forall a, acc = Some a -> a <= m) /\ (forall x, x ∈ l -> x <= m)).
Proof.
  revert acc. induction l as [|x l IH]; intros acc; simpl.
  - split; [split; [done|by intros [-> _]]|].
    intros m ->. split; [by left|]. intros _ _. split; [by intros a [= ->]|].
    intros x Hx. by apply elem_of_nil in Hx.
  - set (acc' := match acc with
                 | Some m => if m =? 0 then Some x else Some (Z.max m x)
                 | None => Some x
                 end).
    destruct (IH acc') as [Hnone Hsome]. split.
    + split; [|by intros [_ ?]]. intros Hr. apply Hnone in Hr as [Hr _].
      unfold acc' in Hr. destruct acc as [a|]; [|done]. by destruct (a =? 0).
    + intros m Hm. destruct (Hsome m Hm) as (Hin & Hle). split.
      * destruct Hin as [Hin|Hin]; [|right; by apply list_elem_of_further].
        unfold acc' in Hin. destruct acc as [a|].
        -- destruct (a =? 0); injection Hin as <-; [right; apply list_elem_of_here|].
           destruct (Z.max_spec a x) as [[_ ->]|[_ ->]];
             [right; apply list_elem_of_here|by left].
        -- injection Hin as <-. right. apply list_elem_of_here.
      * intros Hl Hacc.
        assert (Hx : 0 <= x) by (apply Hl, list_elem_of_here).
        destruct Hle as [Hacc' Hall].
        { intros y Hy. by apply Hl, list_elem_of_further. }
        { intros a' Ha'. unfold acc' in Ha'. destruct acc as [a|].
          - specialize (Hacc _ eq_refl).
            destruct (a =? 0); injection Ha' as <-; lia.
          - by injection Ha' as <-. }
        split.
        -- intros a ->. specialize (Hacc _ eq_refl). unfold acc' in Hacc'.
           destruct (a =? 0) eqn:Ha.
           ++ apply Z.eqb_eq in Ha as ->. specialize (Hacc' _ eq_refl). lia.
           ++ specialize (Hacc' _ eq_refl). lia.
        -- intros y [->|Hy]%elem_of_cons; [|by apply Hall].
           unfold acc' in Hacc'. destruct acc as [a|].
           ++ destruct (a =? 0); specialize (Hacc' _ eq_refl); lia.
           ++ specialize (Hacc' _ eq_refl). lia.
Qed.

End PaginationInfoFacts.

Section PaginationInfo.

Context {builtins : Builtins}.

(** X8. [getPaginationInfo] returns [null] when no link has a page number,
    and else the page number of one of the links; when no page number is
    negative, it is the greatest of them. Links that are empty, whose
    address cannot be read, or without an integer [page] parameter are
    passed over. *)
Theorem getPaginationInfo_spec (paginationLinks : list (option jstring))
    (baseUrl : jstring) :
  let pages := omap (link_page baseUrl) paginationLinks in
  (getPaginationInfo paginationLinks baseUrl = None <-> pages = []) /\
  (forall m, getPaginationInfo paginationLinks baseUrl = Some m -> m ∈ pages) /\
  ((forall x, x ∈ pages -> (0 <= x)%Z) ->
   forall m, getPaginationInfo paginationLinks baseUrl = Some m ->
             forall x, x ∈ pages -> (x <= m)%Z).
Proof.
  intros pages. rewrite getPaginationInfo_fold. fold pages.
  destruct (fold_pages_spec pages None) as [Hnone Hsome]. cbv zeta in Hnone, Hsome.
  split; [|split].
  - split; [by intros [_ ?]%Hnone|]. intros H. by apply Hnone.
  - intros m Hm. by destruct (Hsome m Hm) as ([Hin|Hin] & _).
  - intros Hpos m Hm. destruct (Hsome m Hm) as (_ & Hle).
    destruct Hle as [_ Hall]; [done|done|]. done.
Qed.

End PaginationInfo.

(* ===================================================================== *)
(** * The CSV file and the debug file names *)
(* ===================================================================== *)

Section CsvFacts.

Implicit Types (s v rest cell : jstring) (cells : list jstring)
  (rows : list (list jstring)) (c : N).

Lemma includes_one s c : includes s [c] = false <-> c ∉ s.
Proof.
  rewrite <- not_true_iff_false, includes_infix. split.
  - intros H Hin. apply H. apply list_elem_of_split in Hin as (a & b & ->). by exists a, b.
  - intros H (a & b & ->). apply H. apply elem_of_app. right. apply list_elem_of_here.
Qed.

Lemma read_plain mode d rows cells cell v rest :
  mode <> Quoted -> (mode = AfterQuote -> v = []) ->
  d = 44%N \/ d = 10%N ->
  44%N ∉ v -> 10%N ∉ v -> 34%N ∉ v ->
  read_csv mode rows cells cell (v ++ d :: rest)
  = after_delimiter d rows cells (cell ++ v) rest.
Proof.
  intros Hmode Hafter Hd. revert mode cell Hmode Hafter.
  induction v as [|c v IH]; intros mode cell Hmode Hafter H44 H10 H34.
  - rewrite app_nil_r. unfold after_delimiter. simpl.
    destruct Hd as [-> | ->]; by destruct mode.
  - apply not_elem_of_cons in H44 as [Hc44 H44].
    apply not_elem_of_cons in H10 as [Hc10 H10].
    apply not_elem_of_cons in H34 as [Hc34 H34].
    assert (Hstep : read_csv mode rows cells cell ((c :: v) ++ d :: rest)
                    = read_csv Plain rows cells (cell ++ [c]) (v ++ d :: rest)).
    { simpl. apply N.eqb_neq in Hc44, Hc10, Hc34.
      rewrite (N.eqb_sym c 44), Hc44, (N.eqb_sym c 10), Hc10, (N.eqb_sym c 34), Hc34.
      destruct mode; try done. }
    rewrite Hstep, IH by done. by rewrite <- app_assoc.
Qed.

Lemma read_quoted d rows cells cell v rest :
  d = 44%N \/ d = 10%N ->
  read_csv Quoted rows cells cell
    (replace_each (N.eqb 34) (double_quote ++ double_quote) v ++ double_quote ++ d :: rest)
  = after_delimiter d rows cells (cell ++ v) rest.
Proof.
  intros Hd. revert cell. induction v as [|c v IH]; intros cell.
  - rewrite app_nil_r. unfold after_delimiter. simpl. by destruct Hd as [-> | ->].
  - unfold replace_each in *. cbn [flat_map].
    destruct (34 =? c)%N eqn:Hc.
    + apply N.eqb_eq in Hc as <-. simpl. rewrite IH. by rewrite <- app_assoc.
    + simpl. rewrite N.eqb_sym, Hc, IH. by rewrite <- app_assoc.
Qed.

(** The reader, at the start of a cell, reads what [sanitize] wrote and
    the delimiter after it as the cell. *)
Lemma read_sanitize mode d rows cells v rest :
  mode = RowStart \/ mode = CellStart ->
  d = 44%N \/ d = 10%N ->
  read_csv mode rows cells [] (sanitize v ++ d :: rest)
  = after_delimiter d rows cells v rest.
Proof.
  intros Hmode Hd. unfold sanitize.
  destruct (includes v comma || includes v double_quote || includes v line_feed) eqn:Hq.
  - rewrite <- !app_assoc.
    assert (Hopen : forall t, read_csv mode rows cells [] (double_quote ++ t)
                              = read_csv Quoted rows cells [] t).
    { intros t. simpl. by destruct Hmode as [-> | ->]. }
    rewrite Hopen. by rewrite read_quoted.
  - apply orb_false_iff in Hq as [Hq H10]. apply orb_false_iff in Hq as [H44 H34].
    apply includes_one in H44, H34, H10.
    rewrite read_plain; [done| | |done|done|done|done].
    + by destruct Hmode as [-> | ->].
    + by destruct Hmode as [-> | ->].
Qed.

(** A line of cells, followed by a line feed, is read as a row. *)
Lemma read_line mode rows cells (vs : list jstring) rest :
  mode = RowStart \/ mode = CellStart ->
  vs <> [] ->
  read_csv mode rows cells [] (join comma (map sanitize vs) ++ line_feed ++ rest)
  = read_csv RowStart (rows ++ [cells ++ vs]) [] [] rest.
Proof.
  intros Hmode Hne. revert mode cells Hmode.
  induction vs as [|v vs IH]; intros mode cells Hmode; [done|].
  destruct vs as [|v' vs].
  - simpl. rewrite read_sanitize by (done || by right). done.
  - change (join comma (map sanitize (v :: v' :: vs)))
      with (sanitize v ++ comma ++ join comma (map sanitize (v' :: vs))).
    rewrite <- !app_assoc. unfold comma at 1. cbn [str map list_ascii_of_string app].
    rewrite read_sanitize by (done || by left).
    unfold after_delimiter. cbn [N.eqb Pos.eqb N_of_ascii N_of_digits].
    rewrite IH by (done || by right). by rewrite <- app_assoc.
Qed.

Lemma read_lines rows (lines : list (list jstring)) :
  Forall (fun vs => vs <> []) lines -> lines <> [] ->
  read_csv RowStart rows [] []
    (join line_feed (map (fun vs => join comma (map sanitize vs)) lines) ++ line_feed)
  = rows ++ lines.
Proof.
  intros Hall Hne. revert rows. induction Hall as [|vs lines Hvs Hall IH]; intros rows; [done|].
  destruct lines as [|vs' lines].
  - cbn [map join]. rewrite <- (app_nil_r line_feed).
    rewrite read_line by (done || by left). done.
  - change (join line_feed (map (fun vs => join comma (map sanitize vs)) (vs :: vs' :: lines)))
      with (join comma (map sanitize vs) ++ line_feed
            ++ join line_feed (map (fun vs => join comma (map sanitize vs)) (vs' :: lines))).
    rewrite <- !app_assoc. rewrite read_line by (done || by left).
    rewrite IH by done. by rewrite <- app_assoc.
Qed.

End CsvFacts.

Section CsvRoundTrip.

Context {builtins : Builtins}.

(** X9. The text that [writeCsv] writes is read back, by a reader of CSV,
    as the row of the thirteen headers followed by one row for every
    record, in their order, with the thirteen cells of the record as they
    were: a comma, a double quote or a line feed in a cell does not break
    the row. So two lists of records with different cells give different
    texts. *)
Theorem writeCsv_read_back (items : list item) :
  read_csv RowStart [] [] [] (csv_text items) = csv_headers :: map csv_cells items /\
  forall items', csv_text items = csv_text items' ->
                 map csv_cells items = map csv_cells items'.
Proof.
  assert (Hread : forall l, read_csv RowStart [] [] [] (csv_text l)
                            = csv_headers :: map csv_cells l).
  { intros l. unfold csv_text.
    pose proof (read_lines [] (csv_headers :: map csv_cells l)) as H.
    cbn [map app] in H. rewrite map_map in H. apply H; [|done].
    constructor; [done|]. apply Forall_forall. intros vs Hvs.
    apply list_elem_of_In, in_map_iff in Hvs as (it & <- & _). done. }
  split; [apply Hread|].
  intros items' Heq. pose proof (Hread items) as H1. rewrite Heq, Hread in H1.
  by injection H1.
Qed.

End CsvRoundTrip.

Section SlugFacts.

Implicit Types (s t : jstring) (c : N).

Lemma strip_hyphens_infix s : exists a b, s = a ++ strip_hyphens s ++ b.
Proof.
  unfold strip_hyphens. destruct (span_suffix (N.eqb 45) s) as [a Ha].
  set (t := snd (span (N.eqb 45) s)) in *.
  destruct (span_suffix (N.eqb 45) (rev t)) as [b Hb].
  exists a, (rev b). rewrite Ha at 1. f_equal.
  apply (f_equal (@rev N)) in Hb. by rewrite rev_involutive, rev_app_distr in Hb.
Qed.

Lemma strip_hyphens_head s : head (strip_hyphens s) <> Some 45%N.
Proof.
  unfold strip_hyphens. set (t := snd (span (N.eqb 45) s)).
  assert (Ht : head t <> Some 45%N).
  { intros H. by apply span_head in H. }
  destruct (span_suffix (N.eqb 45) (rev t)) as [b Hb].
  apply (f_equal (@rev N)) in Hb. rewrite rev_involutive, rev_app_distr in Hb.
  destruct (rev (snd (span (N.eqb 45) (rev t)))) as [|c r]; [done|].
  rewrite Hb in Ht. done.
Qed.

End SlugFacts.

(** X10. Whatever the input is, and whatever [toLowerCase] does,
    [slugify] returns a text that is not empty, has forty code units at
    most, holds only lower-case ASCII letters, digits and hyphens, does not
    start with a hyphen and has no two hyphens in a row. *)
Theorem slugify_spec (lowerCase : jstring -> jstring) (value : option jstring) :
  let slug := slugify lowerCase value in
  slug <> [] /\
  (length slug <= 40)%nat /\
  (forall c, c ∈ slug -> is_slug_char c = true \/ c = 45%N) /\
  head slug <> Some 45%N /\
  includes slug (hyphen ++ hyphen) = false.
Proof.
  unfold slugify.
  set (text := default (str "query") (value ||| Some (str "query"))).
  set (r := replace_runs (fun c => negb (is_slug_char c)) hyphen (lowerCase text)).
  set (slug := take 40 (strip_hyphens r)).
  assert (Hfallback :
    str "query" <> [] /\ (length (str "query") <= 40)%nat /\
    (forall c, c ∈ str "query" -> is_slug_char c = true \/ c = 45%N) /\
    head (str "query") <> Some 45%N /\ includes (str "query") (hyphen ++ hyphen) = false).
  { split; [done|]. split; [simpl; lia|]. split; [|split; [done|done]].
    intros c Hc. left. simpl in Hc.
    repeat (apply elem_of_cons in Hc as [->|Hc]; [done|]). by apply elem_of_nil in Hc. }
  destruct slug as [|c0 slug'] eqn:Hslug; [exact Hfallback|]. cbn [JsString.truthy].
  rewrite <- Hslug. clear Hfallback.
  destruct (strip_hyphens_infix r) as (a & b & Hr).
  assert (Hinfix : exists a' b', r = a' ++ slug ++ b').
  { exists a, (drop 40 (strip_hyphens r) ++ b). unfold slug.
    rewrite app_assoc, (app_assoc _ _ b), <- (app_assoc a), take_drop. by rewrite <- app_assoc. }
  destruct Hinfix as (a' & b' & Hr').
  split; [by rewrite Hslug|]. split; [unfold slug; rewrite length_take; lia|].
  split; [|split].
  - intros c Hc.
    pose proof (replace_runs_only (fun c => negb (is_slug_char c)) 45 false (lowerCase text))
      as Honly.
    unfold only_of in Honly. rewrite Forall_forall in Honly.
    destruct (is_slug_char c) eqn:Hsc; [by left|]. right. apply Honly; [|by rewrite Hsc].
    change (c ∈ r). rewrite Hr'. apply elem_of_app. right. apply elem_of_app. by left.
  - pose proof (strip_hyphens_head r) as Hhead. unfold slug.
    destruct (strip_hyphens r) as [|c r']; [done|]. done.
  - apply not_true_is_false. intros (x & y & H)%includes_infix.
    destruct (replace_runs_no_pair (fun c => negb (is_slug_char c)) 45 false
                (lowerCase text) eq_refl) as [Hs _].
    apply no_pair_infix in Hs. apply Hs. change (exists a0 b0, r = a0 ++ [45%N; 45%N] ++ b0).
    rewrite Hr', H. exists (a' ++ x), (y ++ b'). by rewrite <- !app_assoc.
Qed.

(* ===================================================================== *)
(** * The ends of a traversal and its records *)
(* ===================================================================== *)

Section TraversalEnds.

Context {builtins : Builtins} {W : Type} {surface : Surface W}.

Local Open Scope string_scope.

(** X11. In a turn that a run gets to: when every attempt to extract the
    page threw, the traversal ends there and returns the records and the
    page count that it had, and the reason that it gives is "completed",
    as for a traversal that ended without an error. *)
Theorem failed_extraction_ends_completed (q : jstring) (w0 : W) (st : Loop.t) (w w1 : W) :
  let b := listing_base_url q in
  reaches q b (initial_loop_state, w0) (st, w) ->
  (Loop.currentPage st <= PAGE_MAX_LIMIT)%Z ->
  extract_page b st w = (Ok None, w1) ->
  exists r,
    scrapeListing q w0 = (Ok (Some r), w1) /\
    Result.items r = Loop.allItems st /\
    Result.pageCount r = Loop.pageCount st /\
    Z.of_nat (Result.pageCount r) = (Loop.currentPage st - 1)%Z /\
    Result.stoppedReason r = "completed".
Proof.
  intros b Hreach Hle Hex.
  destruct (reaches_entry _ _ _ _ Hreach) as (Hreason & _ & Hcount).
  assert (Hturn : process_page q b st w = (Ok (Break st), w1)).
  { unfold process_page. by rewrite (bind_run _ _ _ _ _ Hex). }
  exists (listing_result b st). split; [by apply (reaches_break q w0 st w)|].
  split; [done|]. split; [done|]. split; [done|].
  unfold listing_result. cbn [Result.stoppedReason]. rewrite Hreason.
  by replace (PAGE_MAX_LIMIT <? Loop.currentPage st)%Z with false
    by (symmetry; apply Z.ltb_ge; lia).
Qed.

(** X12. In a turn that a run gets to, after a page without a visible
    card: when the page read in this turn has no visible card either, the
    traversal ends with "empty-pages-streak", whatever the pagination of
    the page shows; the page counts as read and its records, if it has
    some, are in the result. *)
Theorem empty_pages_streak_ends (q : jstring) (w0 : W) (st : Loop.t) (w : W)
    (ex : Extracted.t) (w1 : W) (st1 : Loop.t) (w2 : W) :
  let b := listing_base_url q in
  reaches q b (initial_loop_state, w0) (st, w) ->
  (Loop.currentPage st <= PAGE_MAX_LIMIT)%Z ->
  extract_page b st w = (Ok (Some ex), w1) ->
  accumulate q b st ex w1 = (Ok st1, w2) ->
  (1 <= Loop.emptyPageStreak st)%nat ->
  Extracted.visibleCardCount ex = 0%nat ->
  exists r,
    scrapeListing q w0 = (Ok (Some r), w2) /\
    Result.items r = Loop.allItems st1 /\
    Result.pageCount r = S (Loop.pageCount st) /\
    Result.stoppedReason r = "empty-pages-streak".
Proof.
  intros b Hreach Hle Hex Hacc Hstreak Hvisible.
  pose proof (accumulate_fields _ _ _ _ _ _ _ Hacc) as (Hp1 & Hc1 & Hr1).
  pose proof (accumulate_counters _ _ _ _ _ _ _ Hacc) as (Hs1 & _).
  rewrite Hvisible in Hs1. cbn [Nat.eqb] in Hs1.
  assert (Hturn : process_page q b st w
                  = (Ok (Break (set_stopped st1 "empty-pages-streak")), w2)).
  { unfold process_page. rewrite (bind_run _ _ _ _ _ Hex), (bind_run _ _ _ _ _ Hacc).
    unfold advance.
    by replace (2 <=? Loop.emptyPageStreak st1)%nat with true
      by (symmetry; apply Nat.leb_le; lia). }
  exists (listing_result b (set_stopped st1 "empty-pages-streak")).
  split; [by apply (reaches_break q w0 st w)|]. done.
Qed.

(** X13. The maximum page that the loop knows is the greatest page number
    that the buttons, or else the links, of the pages read so far gave. In
    a turn that a run gets to, once the page is read and is not the second
    page in a row without a visible card: when the page of the turn is the
    maximum page or is after it, the traversal ends with
    "max-page-reached", without any attempt to go to a next page. *)
Theorem max_page_ends (q : jstring) (w0 : W) (st : Loop.t) (w : W)
    (ex : Extracted.t) (w1 : W) (st1 : Loop.t) (w2 : W) (m : Z) :
  let b := listing_base_url q in
  reaches q b (initial_loop_state, w0) (st, w) ->
  (Loop.currentPage st <= PAGE_MAX_LIMIT)%Z ->
  extract_page b st w = (Ok (Some ex), w1) ->
  accumulate q b st ex w1 = (Ok st1, w2) ->
  (Extracted.visibleCardCount ex <> 0%nat \/ Loop.emptyPageStreak st = 0%nat) ->
  known_max_page b st ex = Some m ->
  (m <= Loop.currentPage st)%Z ->
  exists r,
    scrapeListing q w0 = (Ok (Some r), w2) /\
    Loop.maxPage st1 = Some m /\
    Result.items r = Loop.allItems st1 /\
    Result.pageCount r = S (Loop.pageCount st) /\
    Result.stoppedReason r = "max-page-reached".
Proof.
  intros b Hreach Hle Hex Hacc Hstreak Hknown Hm.
  pose proof (accumulate_fields _ _ _ _ _ _ _ Hacc) as (Hp1 & Hc1 & Hr1).
  pose proof (accumulate_counters _ _ _ _ _ _ _ Hacc) as (Hs1 & Hm1).
  rewrite Hknown in Hm1.
  assert (Hlt : (Loop.emptyPageStreak st1 < 2)%nat).
  { rewrite Hs1. destruct (Extracted.visibleCardCount ex =? 0)%nat eqn:Hv; [|lia].
    apply Nat.eqb_eq in Hv. destruct Hstreak as [Hne|Hzero]; [done|lia]. }
  assert (Hturn : process_page q b st w
                  = (Ok (Break (set_stopped st1 "max-page-reached")), w2)).
  { unfold process_page. rewrite (bind_run _ _ _ _ _ Hex), (bind_run _ _ _ _ _ Hacc).
    unfold advance.
    replace (2 <=? Loop.emptyPageStreak st1)%nat with false
      by (symmetry; apply Nat.leb_gt; lia).
    rewrite Hm1.
    by replace (m <=? Loop.currentPage st1)%Z with true
      by (symmetry; apply Z.leb_le; lia). }
  exists (listing_result b (set_stopped st1 "max-page-reached")).
  split; [by apply (reaches_break q w0 st w)|]. done.
Qed.

End TraversalEnds.

Section TraversalEndsRuns.

Local Open Scope string_scope.

(** X11, witness: with the network down, the three attempts to load the
    first page throw; the traversal returns no record, no page and
    "completed". *)
Lemma failed_extraction_ends_completed_offline :
  exists r w',
    @scrapeListing example_builtins browser (offline empty_site) onsale_query start
    = (Ok (Some r), w') /\
    Result.items r = [] /\ Result.pageCount r = 0%nat /\
    Result.stoppedReason r = "completed".
Proof.
  edestruct (@failed_extraction_ends_completed example_builtins browser (offline empty_site)
               onsale_query start initial_loop_state start)
    as (r & Hrun & Hitems & Hcount & _ & Hreason).
  - apply reaches_here.
  - vm_compute. discriminate.
  - vm_compute. reflexivity.
  - exists r. eexists. split; [exact Hrun|]. by split.
Defined.

(** X12, witness: on the site whose pages show no card and a next link,
    the traversal reads two pages and ends with "empty-pages-streak". *)
Lemma empty_pages_streak_ends_blank :
  exists r w',
    @scrapeListing example_builtins browser (simulated blank_site) onsale_query start
    = (Ok (Some r), w') /\
    Result.items r = [] /\ Result.pageCount r = 2%nat /\
    Result.stoppedReason r = "empty-pages-streak".
Proof.
  set (turn1 := @process_page example_builtins browser (simulated blank_site)
                  onsale_query onsale_base initial_loop_state start).
  set (st := match fst turn1 with
             | Ok (Continue st) => st
             | _ => initial_loop_state
             end).
  set (page2 := @extract_page browser (simulated blank_site)
                  onsale_base st (snd turn1)).
  set (ex := match fst page2 with
             | Ok (Some ex) => ex
             | _ => simulated_extracted blank_site start
             end).
  set (acc := @accumulate example_builtins browser (simulated blank_site)
                onsale_query onsale_base st ex (snd page2)).
  set (st1 := match fst acc with
              | Ok st1 => st1
              | _ => initial_loop_state
              end).
  destruct (@empty_pages_streak_ends example_builtins browser (simulated blank_site)
              onsale_query start st (snd turn1) ex (snd page2) st1 (snd acc))
    as (r & Hrun & Hitems & Hcount & Hreason).
  - apply (reaches_turn _ _ initial_loop_state start st (snd turn1));
      [vm_compute; discriminate|vm_compute; reflexivity|apply reaches_here].
  - vm_compute. discriminate.
  - vm_compute. reflexivity.
  - vm_compute. reflexivity.
  - vm_compute. lia.
  - vm_compute. reflexivity.
  - exists r. eexists. split; [exact Hrun|].
    split; [rewrite Hitems; vm_compute; reflexivity|].
    split; [rewrite Hcount; vm_compute; reflexivity|exact Hreason].
Defined.

(** X13, witness: on the site of one page, whose one button is the button
    of page 1, the traversal ends with "max-page-reached" after that
    page. *)
Lemma max_page_ends_coffee :
  exists r w',
    @scrapeListing example_builtins browser (simulated coffee_site) onsale_query start
    = (Ok (Some r), w') /\
    Result.items r = [coffee_item] /\ Result.pageCount r = 1%nat /\
    Result.stoppedReason r = "max-page-reached".
Proof.
  set (page1 := @extract_page browser (simulated coffee_site)
                  onsale_base initial_loop_state start).
  set (ex := simulated_extracted coffee_site (snd page1)).
  set (acc := @accumulate example_builtins browser (simulated coffee_site)
                onsale_query onsale_base initial_loop_state ex (snd page1)).
  set (st1 := match fst acc with
              | Ok st1 => st1
              | _ => initial_loop_state
              end).
  destruct (@max_page_ends example_builtins browser (simulated coffee_site)
              onsale_query start initial_loop_state start ex (snd page1) st1 (snd acc) 1%Z)
    as (r & Hrun & _ & Hitems & Hcount & Hreason).
  - apply reaches_here.
  - vm_compute. discriminate.
  - vm_compute. reflexivity.
  - vm_compute. reflexivity.
  - left. vm_compute. discriminate.
  - vm_compute. reflexivity.
  - vm_compute. discriminate.
  - exists r. eexists. split; [exact Hrun|].
    split; [rewrite Hitems; vm_compute; reflexivity|].
    split; [exact Hcount|exact Hreason].
Defined.

End TraversalEndsRuns.

Section ItemsFacts.

Context {builtins : Builtins} {W : Type} {surface : Surface W}.

Implicit Types (st : Loop.t) (w : W) (ex : Extracted.t) (q b : jstring)
  (m : gmap jstring item) (l : list item) (it : item).

Lemma keyed_add m l it :
  keyed m l -> keyed (fst (add_listing_item (m, l) it)) (snd (add_listing_item (m, l) it)).
Proof.
  intros [Hnd Hdom]. rewrite add_listing_item_eq.
  destruct (listing_key it) as [k|] eqn:Hk.
  - destruct (m !! k) as [old|] eqn:Hm; [done|]. cbn [fst snd].
    assert (Hnew : omap listing_key (l ++ [it]) = omap listing_key l ++ [k]).
    { rewrite omap_app. simpl. by rewrite Hk. }
    unfold keyed. rewrite Hnew. split.
    + apply NoDup_app. split; [done|]. split; [|apply NoDup_singleton].
      intros x Hx ->%list_elem_of_singleton. apply Hdom in Hx.
      by apply not_elem_of_dom in Hm.
    + intros x. rewrite dom_insert, elem_of_union, elem_of_singleton, elem_of_app,
        list_elem_of_singleton, Hdom. tauto.
  - cbn [fst snd]. unfold keyed. rewrite omap_app. simpl. rewrite Hk, app_nil_r. done.
Qed.

Lemma keyed_add_page m l pageItems :
  keyed m l ->
  keyed (fst (add_page_items (m, l) pageItems)) (snd (add_page_items (m, l) pageItems)).
Proof.
  unfold add_page_items. revert m l.
  induction pageItems as [|it pageItems IH]; intros m l Hk; [done|].
  cbn [fold_left]. pose proof (keyed_add m l it Hk) as Hk'.
  destruct (add_listing_item (m, l) it) as [m' l']. by apply IH.
Qed.

Lemma add_page_items_from (P : item -> Prop) m l pageItems :
  Forall P l -> Forall P pageItems -> Forall P (snd (add_page_items (m, l) pageItems)).
Proof.
  intros Hl Hp. unfold add_page_items. rewrite fold_add_listing_item.
  apply Forall_app. split; [done|]. generalize (dom m).
  induction Hp as [|it pageItems Hit _ IH]; intros seen; simpl; [constructor|].
  destruct (listing_key it) as [k|]; [|by constructor].
  destruct (decide (k ∈ seen)); [apply IH|by constructor].
Qed.

Lemma mapM_Forall {S A B : Type} (f : A -> M S B) (P : B -> Prop) (xs : list A) s ys s' :
  (forall x s1 y s2, f x s1 = (Ok y, s2) -> P y) ->
  mapM f xs s = (Ok ys, s') -> Forall P ys /\ length ys = length xs.
Proof.
  intros Hf. revert s ys s'. induction xs as [|x xs IH]; intros s ys s'; simpl.
  - intros [= <- _]. by split.
  - intros H. inv_bind_as H y s1 Hy. inv_bind_as H rest s2 Hrest.
    injection H as <- _. destruct (IH _ _ _ Hrest) as [Hall Hlen].
    split; [|simpl; by rewrite Hlen]. constructor; [by apply (Hf x s y s1)|done].
Qed.

(** What [accumulate] does to the output: the records of the cards of the
    page are merged into it. *)
Lemma accumulate_items q b st ex w st1 w1 :
  accumulate q b st ex w = (Ok st1, w1) ->
  exists pageItems,
    Forall (fun it => exists pageCategory now card,
                        it = card_to_item q b pageCategory now card) pageItems /\
    length pageItems = length (Extracted.results ex) /\
    (Loop.uniqueItems st1, Loop.allItems st1)
    = add_page_items (Loop.uniqueItems st, Loop.allItems st) pageItems.
Proof.
  unfold accumulate. intros H.
  inv_bind H. inv_bind H. inv_bind_as H pageItems wp Hpage.
  exists pageItems.
  apply mapM_Forall
    with (P := fun it => exists pageCategory now card,
                           it = card_to_item q b pageCategory now card) in Hpage as [Hall Hlen].
  2:{ intros card s1 y s2 Hy. inv_bind_as Hy now s3 Hnow. injection Hy as <- _.
      by eexists _, now, card. }
  split; [done|]. split; [done|].
  destruct (add_page_items _ _) as [uniqueItems allItems].
  inv_bind H. by injection H as <- _.
Qed.

(** A property of the output that the merge of a page keeps is a property
    of the output of every turn. *)
Lemma process_page_items (P : gmap jstring item -> list item -> Prop) q b st w t w' :
  (forall m l pageItems,
     P m l ->
     Forall (fun it => exists pageCategory now card,
                         it = card_to_item q b pageCategory now card) pageItems ->
     P (fst (add_page_items (m, l) pageItems)) (snd (add_page_items (m, l) pageItems))) ->
  P (Loop.uniqueItems st) (Loop.allItems st) ->
  process_page q b st w = (Ok t, w') ->
  P (Loop.uniqueItems (turn_state t)) (Loop.allItems (turn_state t)).
Proof.
  intros Hkeep HP. unfold process_page. intros H. inv_bind_as H extracted we Hex.
  destruct extracted as [ex|]; [|by injection H as <- _].
  inv_bind_as H st1 wa Hacc. apply advance_output in H as (-> & -> & _).
  apply accumulate_items in Hacc as (pageItems & Hall & _ & Heq).
  specialize (Hkeep _ _ pageItems HP Hall). rewrite <- Heq in Hkeep. done.
Qed.

Lemma listing_loop_items (P : gmap jstring item -> list item -> Prop) q b fuel st w r w' :
  (forall m l pageItems,
     P m l ->
     Forall (fun it => exists pageCategory now card,
                         it = card_to_item q b pageCategory now card) pageItems ->
     P (fst (add_page_items (m, l) pageItems)) (snd (add_page_items (m, l) pageItems))) ->
  P (Loop.uniqueItems st) (Loop.allItems st) ->
  listing_loop fuel q b st w = (Ok (Some r), w') ->
  P (Loop.uniqueItems r) (Loop.allItems r).
Proof.
  intros Hkeep. revert st w. induction fuel as [|fuel IH]; intros st w HP; simpl.
  - destruct (Loop.currentPage st <=? PAGE_MAX_LIMIT)%Z; [done|]. by intros [= <- _].
  - destruct (Loop.currentPage st <=? PAGE_MAX_LIMIT)%Z; [|by intros [= <- _]].
    intros H. inv_bind_as H t wt Hturn.
    pose proof (process_page_items P q b st w t wt Hkeep HP Hturn) as HP'.
    destruct t as [st1|st1]; simpl in HP'.
    + by apply (IH st1 wt).
    + by injection H as <- _.
Qed.

Lemma normalizePricePair_regular (p : price_pair) :
  regular (normalizePricePair p) = None -> sale (normalizePricePair p) = None.
Proof.
  unfold normalizePricePair. destruct (sale p) as [s|] eqn:Hs, (regular p) as [r|] eqn:Hr;
    try done.
  destruct (strict_eq s r); [done|]. by rewrite Hr.
Qed.

Lemma card_to_item_listed q b pageCategory now card :
  listed q (card_to_item q b pageCategory now card).
Proof.
  unfold listed. split; [done|]. split; [done|]. split; [done|]. split.
  - unfold card_to_item. cbn [url]. unfold or_else.
    by destruct (truthy_str (resolveUrl (Card.link card) b)) eqn:Hlink;
      [destruct (resolveUrl (Card.link card) b)|].
  - split; [|apply normalizePricePair_distinct].
    unfold card_to_item. cbn [price_sale price_regular]. apply normalizePricePair_regular.
Qed.

Lemma omap_uniqueKeyForItem l : omap uniqueKeyForItem l = omap listing_key l.
Proof.
  apply list_omap_ext. induction l as [|it l IH]; constructor; [|done].
  apply uniqueKeyForItem_listing_key.
Qed.

Lemma first_seen_nodup key seen l :
  NoDup (omap key l) -> (forall k, k ∈ omap key l -> k ∉ seen) ->
  first_seen key seen l = l.
Proof.
  revert seen. induction l as [|x l IH]; intros seen Hnd Hseen; simpl; [done|].
  simpl in Hnd, Hseen. destruct (key x) as [k|] eqn:Hx.
  - apply NoDup_cons in Hnd as [Hk Hnd].
    rewrite decide_False by (apply Hseen, list_elem_of_here). f_equal.
    apply IH; [done|]. intros k' Hk' [->%elem_of_singleton|Hin]%elem_of_union; [done|].
    by apply (Hseen k'); [apply list_elem_of_further|].
  - f_equal. by apply IH.
Qed.

End ItemsFacts.

Section TraversalItems.

Context {builtins : Builtins} {W : Type} {surface : Surface W}.

(** X14. Every record that [scrapeListing] returns was built from a card
    of a page of the traversal: it has the source "mayrand", the query of
    the traversal, no unit price and an address, its sale price comes with
    a regular price, and its two prices are never equal. No two records of
    the result have the same key, so that the second pass of [main] over
    the result keeps every record. *)
Theorem scrapeListing_items (q : jstring) (w : W) (r : Result.t) (w' : W) :
  scrapeListing q w = (Ok (Some r), w') ->
  Forall (fun it => exists pageCategory now card,
            it = card_to_item q (listing_base_url q) pageCategory now card)
         (Result.items r) /\
  Forall (listed q) (Result.items r) /\
  NoDup (omap listing_key (Result.items r)) /\
  NoDup (omap uniqueKeyForItem (Result.items r)) /\
  final_items (Result.items r) = Result.items r.
Proof.
  unfold scrapeListing. intros H. inv_bind_as H final wf Hloop.
  destruct final as [final|]; [|done]. injection H as <- _.
  cbn [option_map listing_result Result.items].
  set (b := listing_base_url q) in *.
  set (from_card := fun it => exists pageCategory now card,
                      it = card_to_item q b pageCategory now card).
  assert (Hfrom : Forall from_card (Loop.allItems final)).
  { apply (listing_loop_items (fun _ l => Forall from_card l) q b
             (Z.to_nat PAGE_MAX_LIMIT) initial_loop_state w final wf); [| |exact Hloop].
    - intros m l pageItems Hl Hp. by apply add_page_items_from.
    - constructor. }
  assert (Hkeyed : keyed (Loop.uniqueItems final) (Loop.allItems final)).
  { apply (listing_loop_items keyed q b
             (Z.to_nat PAGE_MAX_LIMIT) initial_loop_state w final wf); [| |exact Hloop].
    { intros m l pageItems Hk _. by apply keyed_add_page. }
    split; [constructor|]. intros k. simpl. rewrite dom_empty. split; intros Hk.
    - by apply elem_of_empty in Hk.
    - by apply elem_of_nil in Hk. }
  destruct Hkeyed as [Hnd _].
  split; [done|]. split; [|split; [done|split]].
  - eapply Forall_impl; [exact Hfrom|]. intros it (cat & now & card & ->).
    apply card_to_item_listed.
  - by rewrite omap_uniqueKeyForItem.
  - rewrite final_items_first_seen. apply first_seen_nodup; [done|].
    intros k _. apply not_elem_of_empty.
Qed.

End TraversalItems.

(** X14, witness: the traversal of the site of three pages. *)
Lemma scrapeListing_items_spa :
  exists r w',
    @scrapeListing example_builtins browser (simulated spa_site) onsale_query start
    = (Ok (Some r), w') /\
    length (Result.items r) = 3%nat /\
    Forall (listed onsale_query) (Result.items r) /\
    NoDup (omap (@listing_key example_builtins) (Result.items r)).
Proof.
  set (run := @scrapeListing example_builtins browser (simulated spa_site) onsale_query start).
  assert (Hrun : exists r, run = (Ok (Some r), snd run)).
  { eexists. vm_compute. reflexivity. }
  destruct Hrun as [r Hrun].
  destruct (@scrapeListing_items example_builtins browser (simulated spa_site)
              onsale_query start r (snd run) Hrun) as (_ & Hlisted & Hnodup & _).
  assert (Hr : returned run = Some (Some r)) by by rewrite Hrun.
  assert (Hlen : length <$> (Result.items <$> default None (returned run)) = Some 3%nat)
    by (vm_compute; reflexivity).
  rewrite Hr in Hlen. simpl in Hlen. injection Hlen as Hlen.
  exists r, (snd run). split; [exact Hrun|]. by split.
Defined.

(* ===================================================================== *)
(** * Enrichment and the published count *)
(* ===================================================================== *)

Section EnrichFacts.

Context {builtins : Builtins} {W : Type} {surface : Surface W}.

Implicit Types (it r : item) (w : W).

Lemma truthy_or_else (a b : option jstring) :
  truthy_str (a ||| b) = truthy_str a || truthy_str b.
Proof. unfold or_else. by destruct (truthy_str a) eqn:Ha; [rewrite Ha|]. Qed.

Lemma try_finally_Ok {S A : Type} (body : M S A) (cleanup : M S unit) s a s' :
  try_finally body cleanup s = (Ok a, s') ->
  exists s1, body s = (Ok a, s1) /\ cleanup s1 = (Ok tt, s').
Proof.
  unfold try_finally. destruct (body s) as [[a0|e] s1].
  - destruct (cleanup s1) as [[[]|e] s2] eqn:Hc; [|done].
    intros [= <- <-]. by exists s1.
  - by destruct (cleanup s1) as [[[]|e'] s2].
Qed.

Lemma enrich_item_from it w r w' :
  enrich_item it w = (Ok r, w') -> enriched_from it r.
Proof.
  unfold enrich_item, enriched_from. destruct (url it) as [u|] eqn:Hu.
  - destruct u as [|c u]; simpl.
    + intros [= <- _]. by left.
    + intros H. right. split; [done|]. inv_bind H. inv_bind H.
      apply try_finally_Ok in H as (s1 & H & _).
      apply try_catch_Ok in H as [H|(e & s2 & _ & H)].
      * inv_bind_as H details wd Hd. injection H as <- _. right. by exists details.
      * injection H as <- _. by left.
  - intros [= <- _]. by left.
Qed.

Lemma enrich_item_total it w :
  (forall w1, exists w2, context_newPage w1 = (Ok tt, w2)) ->
  (forall w1, exists w2, detail_page_close w1 = (Ok tt, w2)) ->
  exists r w', enrich_item it w = (Ok r, w').
Proof.
  intros Hopen Hclose. unfold enrich_item. destruct (url it) as [u|]; [|by eexists _, _].
  destruct u as [|c u]; simpl; [by eexists _, _|].
  unfold bind at 1. unfold total_op at 1.
  destruct (Hopen (sleep w)) as [w1 Hw1]. unfold bind at 1. rewrite Hw1.
  unfold try_finally, try_catch, bind.
  destruct (scrapeProductPage (c :: u) w1) as [[details|e] w2]; simpl.
  - destruct (Hclose w2) as [w3 ->]. by eexists _, _.
  - destruct (Hclose w2) as [w3 ->]. by eexists _, _.
Qed.

End EnrichFacts.

Section Enrichment.

Context {builtins : Builtins} {W : Type} {surface : Surface W}.

(** X15. When [enrichItemsWithDetails] returns, its result has one record
    for every record of its input, in the same order. A record without an
    address is returned as it is; every other record is merged with what
    its product page gave or, when the page could not be read, only gets a
    name of last resort. In both cases the record keeps its source, query,
    address, image and time stamp, and has a name that is not empty. *)
Theorem enrichItemsWithDetails_slots (items : list item) (w : W) (out : list item) (w' : W) :
  enrichItemsWithDetails items w = (Ok out, w') ->
  length out = length items /\
  Forall2 enriched_from items out /\
  Forall2 (fun it r =>
             source r = source it /\ query r = query it /\ url r = url it /\
             image r = image it /\ scraped_at r = scraped_at it /\
             (truthy_str (url it) = true -> truthy_str (name r) = true))
          items out.
Proof.
  unfold enrichItemsWithDetails. revert w out w'.
  induction items as [|it items IH]; intros w out w'; simpl.
  { intros [= <- _]. split; [done|]. split; constructor. }
  intros H. inv_bind_as H r w1 Hr. inv_bind_as H rest w2 Hrest. injection H as <- _.
  destruct (IH _ _ _ Hrest) as (Hlen & Hfrom & Hkeep).
  pose proof (enrich_item_from _ _ _ _ Hr) as Hit.
  split; [simpl; by rewrite Hlen|]. split; [by constructor|].
  constructor; [|done].
  destruct Hit as [[Hno ->]|[Hyes [->|[details ->]]]].
  - repeat (split; [done|]). by rewrite Hno.
  - repeat (split; [done|]). intros _. cbn [enrich_failed name].
    by rewrite !truthy_or_else, orb_true_r.
  - repeat (split; [done|]). intros _. cbn [enrich_with name].
    by rewrite !truthy_or_else, orb_true_r.
Qed.

(** X16. [enrichItemsWithDetails] does not throw because a product page
    could not be read: when opening and closing a page never throw, it
    returns for every input, whatever reading the product pages does. *)
Theorem enrichItemsWithDetails_returns (items : list item) (w : W) :
  (forall w1, exists w2, context_newPage w1 = (Ok tt, w2)) ->
  (forall w1, exists w2, detail_page_close w1 = (Ok tt, w2)) ->
  exists out w', enrichItemsWithDetails items w = (Ok out, w').
Proof.
  intros Hopen Hclose. unfold enrichItemsWithDetails. revert w.
  induction items as [|it items IH]; intros w; simpl; [by eexists _, _|].
  destruct (enrich_item_total it w Hopen Hclose) as (r & w1 & Hr).
  destruct (IH w1) as (rest & w2 & Hrest).
  exists (r :: rest), w2. unfold bind at 1. rewrite Hr.
  unfold bind at 1. by rewrite Hrest.
Qed.

End Enrichment.

Section EnrichmentRuns.

(** X15, witness: the record of the coffee card, on the site that has its
    product page. *)
Lemma enrichItemsWithDetails_slots_coffee :
  exists out w',
    @enrichItemsWithDetails browser (simulated coffee_site) [coffee_item] start
    = (Ok out, w') /\
    out = [enrich_with coffee_item coffee_details] /\
    Forall2 enriched_from [coffee_item] out.
Proof.
  set (run := @enrichItemsWithDetails browser (simulated coffee_site)
                [coffee_item] start).
  assert (Hrun : run = (Ok [enrich_with coffee_item coffee_details], snd run))
    by (vm_compute; reflexivity).
  destruct (@enrichItemsWithDetails_slots browser (simulated coffee_site)
              [coffee_item] start [enrich_with coffee_item coffee_details] (snd run) Hrun)
    as (_ & Hfrom & _).
  exists [enrich_with coffee_item coffee_details], (snd run).
  split; [exact Hrun|]. split; [reflexivity|exact Hfrom].
Defined.

(** X16, witness: on the site without product pages, reading the page of
    the record throws, and the record is returned with its own name. *)
Lemma enrichItemsWithDetails_returns_without_pages :
  exists out w',
    @enrichItemsWithDetails browser (simulated empty_site) [coffee_item] start
    = (Ok out, w') /\
    out = [enrich_failed coffee_item].
Proof.
  destruct (@enrichItemsWithDetails_returns browser (simulated empty_site)
              [coffee_item] start) as (out & w' & Hrun).
  - intros w1. by exists w1.
  - intros w1. by exists w1.
  - exists out, w'. split; [done|].
    assert (Hout : returned (@enrichItemsWithDetails browser
                               (simulated empty_site) [coffee_item] start)
                   = Some [enrich_failed coffee_item]) by (vm_compute; reflexivity).
    rewrite Hrun in Hout. by injection Hout.
Defined.

End EnrichmentRuns.

Section CountFacts.

Local Open Scope Z_scope.

(** A count under [2^53] is a double, exactly. *)
Lemma of_Z_count n :
  0 < n < 2 ^ 53 ->
  of_Z n = Fin false (n * 2 ^ (52 - Z.log2 n)) (Z.log2 n - 52).
Proof.
  intros [Hpos Hlt]. unfold of_Z, round.
  replace (n <? 0) with false by (symmetry; apply Z.ltb_ge; lia).
  rewrite Z.abs_eq by lia.
  replace (n =? 0) with false by (symmetry; apply Z.eqb_neq; lia).
  pose proof (Z.log2_spec n Hpos) as [Hlo Hhi].
  pose proof (Z.log2_nonneg n) as Hl0.
  assert (Hl52 : Z.log2 n <= 52).
  { apply Z.log2_lt_pow2 in Hlt; lia. }
  assert (Hilog : ilog2 n 1 = Z.log2 n).
  { unfold ilog2, scale. simpl Z.log2. rewrite Z.sub_0_r.
    rewrite (Z.max_l 0 (- Z.log2 n)) by lia. rewrite (Z.max_r 0 (Z.log2 n)) by lia.
    rewrite Z.pow_0_r, Z.mul_1_r, Z.mul_1_l.
    by replace (2 ^ Z.log2 n <=? n) with true by (symmetry; apply Z.leb_le; lia). }
  rewrite Hilog. unfold emin, emax.
  rewrite (Z.max_r (-1074) (Z.log2 n - 52)) by lia.
  unfold scale.
  rewrite (Z.max_r 0 (- (Z.log2 n - 52))) by lia.
  rewrite (Z.max_l 0 (Z.log2 n - 52)) by lia.
  rewrite Z.pow_0_r, Z.mul_1_l.
  replace (- (Z.log2 n - 52)) with (52 - Z.log2 n) by lia.
  set (m := n * 2 ^ (52 - Z.log2 n)).
  assert (Hm : round_half_even m 1 = m).
  { unfold round_half_even. rewrite Z.mod_1_r, Z.div_1_r. done. }
  rewrite Hm.
  assert (Hm53 : m < 2 ^ 53).
  { unfold m. replace (2 ^ 53) with (2 ^ Z.succ (Z.log2 n) * 2 ^ (52 - Z.log2 n)).
    - apply Z.mul_lt_mono_pos_r; [apply Z.pow_pos_nonneg; lia|lia].
    - rewrite <- Z.pow_add_r by lia. f_equal. lia. }
  replace (m =? 2 ^ 53) with false by (symmetry; apply Z.eqb_neq; lia).
  by replace (971 <? Z.log2 n - 52) with false by (symmetry; apply Z.ltb_ge; lia).
Qed.

Lemma of_Z_count_value n :
  0 < n < 2 ^ 53 ->
  isFinite (of_Z n) = true /\ Number.gt (of_Z n) zero = true /\ to_Z (of_Z n) = Some n.
Proof.
  intros Hn. rewrite (of_Z_count n Hn). destruct Hn as [Hpos Hlt].
  pose proof (Z.log2_nonneg n) as Hl0.
  assert (Hl52 : Z.log2 n <= 52) by (apply Z.log2_lt_pow2 in Hlt; lia).
  assert (Hp : 0 < 2 ^ (52 - Z.log2 n)) by (apply Z.pow_pos_nonneg; lia).
  split; [done|]. split.
  - unfold Number.gt, Number.lt, zero, ulps. apply Z.ltb_lt.
    assert (0 < 2 ^ (Z.log2 n - 52 - emin)) by (apply Z.pow_pos_nonneg; unfold emin; lia).
    nia.
  - unfold to_Z. destruct (0 <=? Z.log2 n - 52) eqn:He.
    + apply Z.leb_le in He. replace (Z.log2 n) with 52 by lia. simpl. f_equal. lia.
    + replace (- (Z.log2 n - 52)) with (52 - Z.log2 n) by lia.
      rewrite Z.div_mul by lia. f_equal. lia.
Qed.

End CountFacts.

(** X17. The count that [readHistoricalCount] reads after [main] has
    published records is the number of the records published; a later run
    that collects no record then throws at the publish step and leaves the
    files as they are. *)
Theorem publish_then_count (enrichedItems : list item) (pagesScraped : nat) (files : store) :
  enrichedItems <> [] ->
  (Z.of_nat (length enrichedItems) < 2 ^ 32)%Z ->
  let count := of_Z (Z.of_nat (length enrichedItems)) in
  exists files',
    publish enrichedItems pagesScraped files = (Ok tt, files') /\
    readHistoricalCount files' = (Ok count, files') /\
    to_Z count = Some (Z.of_nat (length enrichedItems)) /\
    forall pagesScraped',
      publish [] pagesScraped' files' = (Throw (ZeroItemsRegression count), files').
Proof.
  intros Hne Hlen count.
  assert (Hn : (0 < Z.of_nat (length enrichedItems) < 2 ^ 53)%Z).
  { assert (Hpow : (2 ^ 32 < 2 ^ 53)%Z) by reflexivity.
    destruct enrichedItems; [done|]. simpl length in *. lia. }
  destruct (of_Z_count_value _ Hn) as (Hfin & Hgt & HtoZ). fold count in Hfin, Hgt, HtoZ.
  destruct (publish_cases enrichedItems pagesScraped files)
    as (_ & _ & _ & _ & _ & _ & Hwrite).
  destruct (Hwrite Hne) as (files' & Hpub & _ & _ & Hmeta).
  exists files'. split; [done|].
  assert (Hcount : metadata_count files' = Some count).
  { unfold metadata_count, read_json. rewrite Hmeta.
    assert (Hfield : finite_field (metadata_json pagesScraped (length enrichedItems))
                       (str "totalItems") = Some count).
    { unfold finite_field, json_field, metadata_json. cbn [List.find fst snd].
      rewrite bool_decide_eq_false_2 by discriminate.
      rewrite bool_decide_eq_true_2 by done. cbn [fmap option_fmap option_map snd].
      fold count. by rewrite Hfin. }
    by rewrite Hfield. }
  assert (Hhist : historical_count files' = count).
  { unfold historical_count. by rewrite Hcount. }
  split; [|split; [done|]].
  - unfold readHistoricalCount. by rewrite Hcount.
  - intros pagesScraped'. rewrite publish_eq. cbv zeta. by rewrite Hhist, Hgt.
Qed.

(** X17, witness: the record of the coffee card, published into an empty
    directory. *)
Lemma publish_then_count_coffee :
  exists files',
    publish [coffee_item] 1 ∅ = (Ok tt, files') /\
    readHistoricalCount files' = (Ok (of_Z 1), files') /\
    publish [] 1 files' = (Throw (ZeroItemsRegression (of_Z 1)), files').
Proof.
  destruct (publish_then_count [coffee_item] 1 ∅) as (files' & Hpub & Hread & _ & Hguard);
    [done|vm_compute; reflexivity|].
  exists files'. split; [exact Hpub|]. split; [exact Hread|apply Hguard].
Defined.
